(** * Kokkos [MemPoolList]: a lock-free segregated free-list memory pool

    Shallow embedding of [core/src/impl/Kokkos_MemoryPool_Inline.hpp]
    ([MemPoolList::insert_list], [MemPoolList::allocate],
    [MemPoolList::deallocate]) as a thread-level transition function over
    the shared pool state, with a sequential runner (one thread, no other
    pool activity) and an interleaving semantics for any number of threads.
    The memory is modelled twice: word by word ([shared]), and byte by byte
    ([image]) for the properties that depend on which bytes a link
    occupies.

    Modelling conventions.
    - [size_t] and pointers are 64-bit words, held in [Z]; the arithmetic
      that can wrap in the source is written with [wrap].
    - [m_chunk_size] is the size-class table; reading the array at or past
      the end of the list yields the zero sentinel.
    - [m_freelist] is the array of list heads; [m_next a] is the [m_next]
      field of the [Link] that starts at address [a].  In [shared] link
      fields are word-granular, as if two link accesses either hit the
      same address or did not overlap; this is what the machine does as
      long as the links in use are [link_size] bytes apart, which needs
      class sizes of at least [link_size] ([holds_link]).  In [image] a
      link is the [link_size] bytes from its address on, and links that
      are closer overlap.  The head array is not part of the chunk memory.
    - every access to shared mutable memory (a read of a list head, a
      compare-and-swap, a link read or write) is one atomic step, so the
      interleaving semantics is sequentially consistent.
    - [KOKKOS_MEMPOOLLIST_PRINTERR] is a build-time switch; the source
      defines it (abort on error).  It is a field of the pool so that the
      code under [#ifdef] reads as in the source. *)

From Stdlib Require Import ZArith List Lia Bool Arith.
Import ListNotations.
Local Open Scope Z_scope.

Module MemPool.

(** ** Words *)

Definition modulus : Z := 2 ^ 64.

Definition wrap (x : Z) : Z := x mod modulus.

(** [reinterpret_cast<Link*>( ~uintptr_t(0) )] *)
Definition KOKKOS_MEMPOOLLIST_LOCK : Z := modulus - 1.

(** ** The pool *)

(** The members of [MemPoolList] that are fixed at construction. *)
Record MemPoolList : Type := {
  m_chunk_size : list Z;
  m_data : Z;
  m_data_size : Z;
  KOKKOS_MEMPOOLLIST_PRINTERR : bool
}.

(** [m_chunk_size[l]] *)
Definition chunk_size (P : MemPoolList) (l : nat) : Z :=
  nth l (m_chunk_size P) 0.

(** The memory that the operations mutate. *)
Record shared : Type := {
  m_freelist : nat -> Z;
  m_next : Z -> Z
}.

Definition set_freelist (sh : shared) (l : nat) (v : Z) : shared :=
  {| m_freelist := fun i => if Nat.eqb i l then v else m_freelist sh i;
     m_next := m_next sh |}.

(** [link->m_next = v] for the link at [a], word by word: the entry at [a]
    changes and no other.  The machine writes the eight bytes from [a] on
    (lines 108, 189, 240); that store is [store_link], and the two agree on
    the link at [a] and on every link that is [apart] from it
    ([view_store_link]). *)
Definition set_next (sh : shared) (a : Z) (v : Z) : shared :=
  {| m_freelist := m_freelist sh;
     m_next := fun b => if Z.eqb b a then v else m_next sh b |}.

(** ** Size-class lookup

    [for ( ; m_chunk_size[l] > 0 && alloc_size > m_chunk_size[l]; ++l );]
    The loop runs at most once per table entry: the sentinel stops it. *)
Fixpoint class_scan (P : MemPoolList) (alloc_size : Z) (fuel : nat) (l : nat)
  : nat :=
  match fuel with
  | O => l
  | S fuel' =>
      if (0 <? chunk_size P l) && (chunk_size P l <? alloc_size)
      then class_scan P alloc_size fuel' (S l)
      else l
  end.

Definition find_class (P : MemPoolList) (alloc_size : Z) : nat :=
  class_scan P alloc_size (length (m_chunk_size P)) 0.

(** ** Control states of one thread inside the pool *)

(** The messages of [Kokkos::abort], as the source prints them.  In the
    words of the specification: [REQUESTED_SIZE_TOO_LARGE] is
    RequestedSizeTooLarge, [NO_CHUNKS_BIG_ENOUGH] is PoolExhausted,
    [CHUNK_TOO_LARGE] is InvalidSize, [ADDRESS_OUT_OF_RANGE] is
    AddressOutOfRange and [UNLOCK_ERROR] is UnlockFailure. *)
Inductive abort_msg : Type :=
| REQUESTED_SIZE_TOO_LARGE
| UNLOCK_ERROR
| NO_CHUNKS_BIG_ENOUGH
| ADDRESS_OUT_OF_RANGE
| CHUNK_TOO_LARGE.

Inductive result : Type :=
| Ptr (p : Z)             (* the [void *] that [allocate] returns *)
| Void.                   (* [deallocate] and [insert_list] return nothing *)

Inductive outcome : Type :=
| Return (r : result)
| Abort (m : abort_msg).  (* [Kokkos::abort] *)

Inductive pc : Type :=
(* allocate *)
| AllocEntry (alloc_size : Z)
| AllocScan (l_exp : nat) (num_tries : Z) (l : nat)
| AllocReadHead (l_exp : nat) (num_tries : Z) (l : nat)
| AllocLock (l_exp : nat) (num_tries : Z) (l : nat) (old_head : Z)
| AllocReadNext (l_exp l : nat) (old_head : Z)
| AllocUnlock (l_exp l : nat) (old_head head_next : Z)
| AllocClear (l_exp l : nat) (old_head : Z)
| AllocSplit (l_exp : nat) (p num_chunks i : Z)
(* insert_list; [ret] is what the caller returns once the chain is in *)
| InsertRead (lp_head lp_tail : Z) (list : nat) (ret : result)
| InsertLink (lp_head lp_tail : Z) (list : nat) (old_head : Z) (ret : result)
| InsertCAS (lp_head lp_tail : Z) (list : nat) (old_head : Z) (ret : result)
(* deallocate *)
| DeallocEntry (alloc_ptr alloc_size : Z)
(* the call is over *)
| Done (o : outcome).

(** One atomic step of a thread.  Source lines are given on the right.
    The division of line 234 is reached only with a positive divisor: a
    chunk is removed from a list [l >= l_exp] only while the scan has seen
    [m_chunk_size[l] > 0] from [l_exp] on. *)
Definition thread_step (P : MemPoolList) (sh : shared) (c : pc) : shared * pc :=
  match c with
  | AllocEntry alloc_size =>                                     (* 134-145 *)
      let l_exp := find_class P alloc_size in
      if KOKKOS_MEMPOOLLIST_PRINTERR P && (chunk_size P l_exp =? 0)
      then (sh, Done (Abort REQUESTED_SIZE_TOO_LARGE))
      else (sh, AllocScan l_exp 0 l_exp)
  | AllocScan l_exp num_tries l =>                               (* 150-152 *)
      if 0 <? chunk_size P l then
        if m_freelist sh l =? 0
        then (sh, AllocScan l_exp num_tries (S l))
        else (sh, AllocReadHead l_exp num_tries l)
      else                                                       (* 200-213 *)
        if num_tries =? 100000 then
          if KOKKOS_MEMPOOLLIST_PRINTERR P
          then (sh, Done (Abort NO_CHUNKS_BIG_ENOUGH))
          else (sh, Done (Return (Ptr 0)))
        else (sh, AllocScan l_exp (num_tries + 1) l_exp)
  | AllocReadHead l_exp num_tries l =>                           (* 155-157 *)
      let old_head := m_freelist sh l in
      if negb (old_head =? 0) && negb (old_head =? KOKKOS_MEMPOOLLIST_LOCK)
      then (sh, AllocLock l_exp num_tries l old_head)
      else (sh, AllocScan l_exp num_tries l_exp)                 (* 193-198 *)
  | AllocLock l_exp num_tries l old_head =>                      (* 163-166 *)
      if m_freelist sh l =? old_head
      then (set_freelist sh l KOKKOS_MEMPOOLLIST_LOCK,
            AllocReadNext l_exp l old_head)
      else (sh, AllocScan l_exp num_tries l_exp)
  | AllocReadNext l_exp l old_head =>                            (* 169-170 *)
      (sh, AllocUnlock l_exp l old_head (m_next sh old_head))
  | AllocUnlock l_exp l old_head head_next =>                    (* 173-186 *)
      if m_freelist sh l =? KOKKOS_MEMPOOLLIST_LOCK
      then (set_freelist sh l head_next, AllocClear l_exp l old_head)
      else if KOKKOS_MEMPOOLLIST_PRINTERR P
           then (sh, Done (Abort UNLOCK_ERROR))
           else (sh, AllocClear l_exp l old_head)
  | AllocClear l_exp l old_head =>                          (* 188-190, 215-235 *)
      let sh' := set_next sh old_head 0 in
      if negb (old_head =? 0) && (l_exp <? l)%nat
      then (sh', AllocSplit l_exp old_head
                   (chunk_size P l / chunk_size P l_exp) 2)
      else (sh', Done (Return (Ptr old_head)))
  | AllocSplit l_exp p num_chunks i =>                           (* 238-247 *)
      let sz := chunk_size P l_exp in
      if i <? num_chunks
      then (set_next sh (wrap (p + (i - 1) * sz)) (wrap (p + i * sz)),
            AllocSplit l_exp p num_chunks (i + 1))
      else (sh, InsertRead (wrap (p + sz))
                           (wrap (p + (num_chunks - 1) * sz))
                           l_exp (Ptr p))
  | InsertRead lp_head lp_tail list ret =>                       (* 100-103 *)
      let old_head := m_freelist sh list in
      if negb (old_head =? KOKKOS_MEMPOOLLIST_LOCK)
      then (sh, InsertLink lp_head lp_tail list old_head ret)
      else (sh, InsertRead lp_head lp_tail list ret)
  | InsertLink lp_head lp_tail list old_head ret =>              (* 108-110 *)
      (set_next sh lp_tail old_head,
       InsertCAS lp_head lp_tail list old_head ret)
  | InsertCAS lp_head lp_tail list old_head ret =>               (* 116-120 *)
      if m_freelist sh list =? old_head
      then (set_freelist sh list lp_head, Done (Return ret))
      else (sh, InsertRead lp_head lp_tail list ret)
  | DeallocEntry alloc_ptr alloc_size =>                         (* 269-302 *)
      if KOKKOS_MEMPOOLLIST_PRINTERR P
         && ((alloc_ptr <? m_data P)
             || (wrap (m_data P + m_data_size P) <? wrap (alloc_ptr + alloc_size)))
      then (sh, Done (Abort ADDRESS_OUT_OF_RANGE))
      else
        let l := find_class P alloc_size in
        if KOKKOS_MEMPOOLLIST_PRINTERR P && (chunk_size P l =? 0)
        then (sh, Done (Abort CHUNK_TOO_LARGE))
        else (sh, InsertRead alloc_ptr alloc_ptr l Void)
  | Done o => (sh, Done o)
  end.

(** ** Sequential execution: one thread, no other pool activity *)

Definition final (c : pc) : option outcome :=
  match c with
  | Done o => Some o
  | _ => None
  end.

Fixpoint run (P : MemPoolList) (fuel : nat) (sh : shared) (c : pc)
  : option (outcome * shared) :=
  match final c with
  | Some o => Some (o, sh)
  | None =>
      match fuel with
      | O => None
      | S fuel' =>
          let (sh', c') := thread_step P sh c in run P fuel' sh' c'
      end
  end.

Definition insert_list (P : MemPoolList) (fuel : nat) (sh : shared)
    (lp_head lp_tail : Z) (list : nat) : option (outcome * shared) :=
  run P fuel sh (InsertRead lp_head lp_tail list Void).

Definition allocate (P : MemPoolList) (fuel : nat) (sh : shared)
    (alloc_size : Z) : option (outcome * shared) :=
  run P fuel sh (AllocEntry alloc_size).

Definition deallocate (P : MemPoolList) (fuel : nat) (sh : shared)
    (alloc_ptr alloc_size : Z) : option (outcome * shared) :=
  run P fuel sh (DeallocEntry alloc_ptr alloc_size).

(** ** Interleaved execution: any number of threads

    A thread is either in client code ([None]) or inside a pool operation.
    Client code may call [allocate] or [deallocate] with any arguments and
    may write any word of memory (chunks it owns, in the intended use).  A
    thread that aborted stays where it is; letting the others go on only
    adds behaviours. *)

Record config : Type := {
  mem : shared;
  thr : nat -> option pc
}.

Definition set_thr (c : config) (t : nat) (k : option pc) : config :=
  {| mem := mem c;
     thr := fun u => if Nat.eqb u t then k else thr c u |}.

Inductive action : Type :=
| CallAllocate (t : nat) (alloc_size : Z)
| CallDeallocate (t : nat) (alloc_ptr alloc_size : Z)
| Step (t : nat)
| Leave (t : nat)
| ClientWrite (a v : Z).

Definition sys_step (P : MemPoolList) (a : action) (c : config)
  : option config :=
  match a with
  | CallAllocate t alloc_size =>
      match thr c t with
      | None => Some (set_thr c t (Some (AllocEntry alloc_size)))
      | Some _ => None
      end
  | CallDeallocate t alloc_ptr alloc_size =>
      match thr c t with
      | None => Some (set_thr c t (Some (DeallocEntry alloc_ptr alloc_size)))
      | Some _ => None
      end
  | Step t =>
      match thr c t with
      | Some k =>
          let (sh', k') := thread_step P (mem c) k in
          Some {| mem := sh';
                  thr := fun u => if Nat.eqb u t then Some k' else thr c u |}
      | None => None
      end
  | Leave t =>
      match thr c t with
      | Some (Done (Return _)) => Some (set_thr c t None)
      | _ => None
      end
  | ClientWrite a v =>
      Some {| mem := set_next (mem c) a v; thr := thr c |}
  end.

Fixpoint sys_run (P : MemPoolList) (acts : list action) (c : config)
  : option config :=
  match acts with
  | [] => Some c
  | a :: rest =>
      match sys_step P a c with
      | Some c' => sys_run P rest c'
      | None => None
      end
  end.

(** Before any call: every thread is in client code.  Nothing is asked of
    the memory. *)
Definition initial (c : config) : Prop := forall t, thr c t = None.

Definition reachable (P : MemPoolList) (c : config) : Prop :=
  exists c0 acts, initial c0 /\ sys_run P acts c0 = Some c.

(** ** Vocabulary of the statements *)

(** The largest configured class size ([0] for an empty table). *)
Definition largest_class (P : MemPoolList) : Z :=
  fold_right Z.max 0 (m_chunk_size P).

(** The table is not empty and its sizes are positive [size_t] values; the
    sentinel follows them.  Nothing is asked here of how the sizes compare
    with the size of a link; see [holds_link]. *)
Definition table_ok (P : MemPoolList) : Prop :=
  m_chunk_size P <> [] /\
  Forall (fun c => 0 < c < modulus) (m_chunk_size P).

(** [sizeof( Link )]: a link is one pointer, eight bytes. *)
Definition link_size : Z := 8.

(** Every class is large enough to hold a link: the stores of lines 108,
    189 and 240 write [link_size] bytes at the start of a chunk, and with a
    smaller class the bytes of two links would overlap. *)
Definition holds_link (P : MemPoolList) : Prop :=
  Forall (fun c => link_size <= c) (m_chunk_size P).

(** The links at [a] and at [b] share no byte. *)
Definition apart (a b : Z) : Prop :=
  a + link_size <= b \/ b + link_size <= a.

(** The sequential run ends with outcome [o] in memory [sh'], given enough
    fuel. *)
Definition yields (P : MemPoolList) (sh : shared) (c : pc)
    (o : outcome) (sh' : shared) : Prop :=
  exists n, forall fuel, (n <= fuel)%nat -> run P fuel sh c = Some (o, sh').

(** The same as a derivation, one constructor per step. *)
Inductive exec (P : MemPoolList) : shared -> pc -> outcome -> shared -> Prop :=
| exec_done : forall sh o, exec P sh (Done o) o sh
| exec_step : forall sh c sh1 c1 o sh',
    final c = None ->
    thread_step P sh c = (sh1, c1) ->
    exec P sh1 c1 o sh' ->
    exec P sh c o sh'.

(** [n] steps of one thread. *)
Fixpoint steps (P : MemPoolList) (n : nat) (sh : shared) (c : pc)
  : shared * pc :=
  match n with
  | O => (sh, c)
  | S n' => let (sh', c') := thread_step P sh c in steps P n' sh' c'
  end.

(** What [allocate] does when it gives up: abort, or return the null
    pointer when the build does not abort. *)
Definition exhausted (P : MemPoolList) : outcome :=
  if KOKKOS_MEMPOOLLIST_PRINTERR P
  then Abort NO_CHUNKS_BIG_ENOUGH
  else Return (Ptr 0).

(** The range test of [deallocate], lines 274-281, negated. *)
Definition in_arena (P : MemPoolList) (alloc_ptr alloc_size : Z) : bool :=
  negb ((alloc_ptr <? m_data P)
        || (wrap (m_data P + m_data_size P) <? wrap (alloc_ptr + alloc_size))).

(** Some steps of one thread lead from one state to the other. *)
Definition reaches (P : MemPoolList) (sh : shared) (c : pc)
    (sh' : shared) (c' : pc) : Prop :=
  exists n, steps P n sh c = (sh', c').

(** The run ends with its [n]-th step: after [n] steps the call is over,
    with outcome [o] and memory [sh'], and after fewer it is not. *)
Definition ends_after (P : MemPoolList) (sh : shared) (c : pc) (n : nat)
    (o : outcome) (sh' : shared) : Prop :=
  steps P n sh c = (sh', Done o) /\
  forall m, (m < n)%nat -> final (snd (steps P m sh c)) = None.

(** The memory once the head of list [l] has been removed (lines 163-190):
    the head slot went through the lock and now holds the head's successor;
    the removed chunk's link is cleared. *)
Definition pop (sh : shared) (l : nat) : shared :=
  let old_head := m_freelist sh l in
  set_next
    (set_freelist (set_freelist sh l KOKKOS_MEMPOOLLIST_LOCK) l
                  (m_next sh old_head))
    old_head 0.

(** [h] heads the null-terminated chain of chunks [cs]. *)
Fixpoint chain (sh : shared) (h : Z) (cs : list Z) : Prop :=
  match cs with
  | [] => h = 0
  | a :: rest =>
      h = a /\ a <> 0 /\ a <> KOKKOS_MEMPOOLLIST_LOCK /\
      chain sh (m_next sh a) rest
  end.

(** [n] calls of [allocate(alloc_size)] in a row, nothing in between. *)
Fixpoint allocate_n (P : MemPoolList) (fuel : nat) (n : nat) (sh : shared)
    (alloc_size : Z) : option (list outcome * shared) :=
  match n with
  | O => Some ([], sh)
  | S n' =>
      match allocate P fuel sh alloc_size with
      | Some (o, sh1) =>
          match allocate_n P fuel n' sh1 alloc_size with
          | Some (os, sh2) => Some (o :: os, sh2)
          | None => None
          end
      | None => None
      end
  end.

(** Control states from which [REQUESTED_SIZE_TOO_LARGE] is out of reach:
    all but the entry of [allocate] and the abort itself. *)
Definition past_entry (c : pc) : Prop :=
  match c with
  | AllocEntry _ => False
  | Done (Abort REQUESTED_SIZE_TOO_LARGE) => False
  | _ => True
  end.

(** What a control state must satisfy for the values it carries to have
    passed the tests of the source: a head that [allocate] is about to lock
    or has removed is neither null nor the lock value (line 157); the head
    that [insert_list] links its tail to is not the lock value (line 103);
    a pointer that [allocate] returns is not the lock value. *)
Definition ret_ok (r : result) : Prop :=
  match r with
  | Ptr p => p <> KOKKOS_MEMPOOLLIST_LOCK
  | Void => True
  end.

Definition pc_ok (c : pc) : Prop :=
  match c with
  | AllocLock _ _ _ old_head
  | AllocReadNext _ _ old_head
  | AllocUnlock _ _ old_head _
  | AllocClear _ _ old_head =>
      old_head <> 0 /\ old_head <> KOKKOS_MEMPOOLLIST_LOCK
  | AllocSplit _ p _ _ => p <> KOKKOS_MEMPOOLLIST_LOCK
  | InsertRead _ _ _ ret => ret_ok ret
  | InsertLink _ _ _ old_head ret
  | InsertCAS _ _ _ old_head ret =>
      old_head <> KOKKOS_MEMPOOLLIST_LOCK /\ ret_ok ret
  | Done (Return ret) => ret_ok ret
  | _ => True
  end.

(** Control states of a call that is inside [insert_list] on behalf of
    [deallocate], or has returned from it. *)
Definition inserting (c : pc) : Prop :=
  match c with
  | InsertRead _ _ _ Void
  | InsertLink _ _ _ _ Void
  | InsertCAS _ _ _ _ Void
  | Done (Return Void) => True
  | _ => False
  end.

(** The thread has locked list [l] (its compare-and-swap of line 164
    succeeded) and has not yet released it (line 174). *)
Definition holds (c : pc) (l : nat) : Prop :=
  match c with
  | AllocReadNext _ l' _ => l' = l
  | AllocUnlock _ l' _ _ => l' = l
  | _ => False
  end.

(** What every reachable configuration satisfies: a list that some thread
    holds has the lock value in its head slot and no second holder; no
    thread has hit the unlock error; control states carry tested values. *)
Definition lock_inv (c : config) : Prop :=
  forall t k l, thr c t = Some k -> holds k l ->
    m_freelist (mem c) l = KOKKOS_MEMPOOLLIST_LOCK /\
    (forall t' k', thr c t' = Some k' -> holds k' l -> t' = t).

Definition sys_inv (c : config) : Prop :=
  lock_inv c /\
  (forall t, thr c t <> Some (Done (Abort UNLOCK_ERROR))) /\
  (forall t k, thr c t = Some k -> pc_ok k).

(** The addresses of sub-chunks [1 .. n-1] of the chunk at [p], cut into
    pieces of [sz] bytes. *)
Definition sub_chunks (p sz : Z) (n : nat) : list Z :=
  map (fun i => p + Z.of_nat i * sz) (seq 1 (n - 1)).

(** What is observed after a call: the outcome, some list heads, some
    links. *)
Definition observe (r : option (outcome * shared))
    (lists : list nat) (links : list Z)
  : option (outcome * list Z * list Z) :=
  match r with
  | Some (o, sh) => Some (o, map (m_freelist sh) lists, map (m_next sh) links)
  | None => None
  end.

(** ** Concrete pools used to exercise the statements *)

(** Classes 64, 256 and 1024; an arena of four 1024-byte chunks at 4096:
    those at 4096, 5120 and 6144 are free, the one at 7168 is in use. *)
Definition pool_a : MemPoolList :=
  {| m_chunk_size := [64; 256; 1024];
     m_data := 4096; m_data_size := 4096;
     KOKKOS_MEMPOOLLIST_PRINTERR := true |}.

Definition mem_a : shared :=
  {| m_freelist := fun l => if Nat.eqb l 2 then 4096 else 0;
     m_next := fun a =>
       if a =? 4096 then 5120 else
       if a =? 5120 then 6144 else
       if a =? 6144 then 0 else 12345 |}.

(** One class of 64 bytes, built without [KOKKOS_MEMPOOLLIST_PRINTERR]. *)
Definition pool_quiet : MemPoolList :=
  {| m_chunk_size := [64];
     m_data := 4096; m_data_size := 128;
     KOKKOS_MEMPOOLLIST_PRINTERR := false |}.

Definition mem_quiet : shared :=
  {| m_freelist := fun l => if Nat.eqb l 0 then 4096 else 0;
     m_next := fun a => if a =? 4096 then 4160 else 0 |}.



(** Two threads on [pool_a]: thread 0 allocates 64 bytes and is stopped
    right before its unlocking compare-and-swap; thread 1 releases a chunk
    into the 1024-byte class and reads the head while it is locked. *)
Definition init_a : config :=
  {| mem := mem_a; thr := fun _ => None |}.

Definition schedule_a : list action :=
  [CallAllocate 0 64; Step 0; Step 0; Step 0; Step 0; Step 0; Step 0; Step 0;
   CallDeallocate 1 7168 1024; Step 1; Step 1; Step 1].

(** Thread 1 releases a chunk into the empty 64-byte class and is stopped
    right before its compare-and-swap. *)
Definition schedule_b : list action :=
  [CallDeallocate 1 7168 64; Step 1; Step 1; Step 1].

(** Classes 64 and 96; an arena of two 96-byte chunks at 4096 and 4192,
    both free; memory that was never written holds 7777. *)
Definition pool_b : MemPoolList :=
  {| m_chunk_size := [64; 96];
     m_data := 4096; m_data_size := 192;
     KOKKOS_MEMPOOLLIST_PRINTERR := true |}.

Definition mem_b : shared :=
  {| m_freelist := fun l => if Nat.eqb l 1 then 4096 else 0;
     m_next := fun a =>
       if a =? 4096 then 4192 else
       if a =? 4192 then 0 else 7777 |}.

(** Classes 64 and 96; an arena that is a single free 96-byte chunk at
    4096. *)
Definition pool_c : MemPoolList :=
  {| m_chunk_size := [64; 96];
     m_data := 4096; m_data_size := 96;
     KOKKOS_MEMPOOLLIST_PRINTERR := true |}.

Definition mem_c : shared :=
  {| m_freelist := fun l => if Nat.eqb l 1 then 4096 else 0;
     m_next := fun _ => 0 |}.

(** ** Vocabulary of the further properties *)

(** A table whose sizes grow with the index. *)
Definition increasing (P : MemPoolList) : Prop :=
  forall i j, (i < j < length (m_chunk_size P))%nat ->
    chunk_size P i < chunk_size P j.

(** [length os] calls of [allocate(alloc_size)] in a row end with the
    outcomes [os], in this order, and the memory [sh'], given enough fuel. *)
Definition serves (P : MemPoolList) (sh : shared) (alloc_size : Z)
    (os : list outcome) (sh' : shared) : Prop :=
  exists n, forall fuel, (n <= fuel)%nat ->
    allocate_n P fuel (length os) sh alloc_size = Some (os, sh').

(** The outcomes of calls that return the chunks [cs], in this order. *)
Definition returned (cs : list Z) : list outcome :=
  map (fun a => Return (Ptr a)) cs.

(** The memory once [insert_list(p, p, l)] has put the single chunk [p] on
    the unlocked list [l] (lines 100-122): the chunk's link holds the
    previous head and the head slot holds the chunk. *)
Definition push (sh : shared) (l : nat) (p : Z) : shared :=
  set_freelist (set_next sh p (m_freelist sh l)) l p.

(** The chunks [nodes] are linked one to the next, from [h] to [t]; the
    link of [t] is not looked at. *)
Fixpoint segment (sh : shared) (h : Z) (nodes : list Z) (t : Z) : Prop :=
  match nodes with
  | [] => False
  | a :: rest =>
      h = a /\ a <> 0 /\ a <> KOKKOS_MEMPOOLLIST_LOCK /\
      match rest with
      | [] => a = t
      | _ :: _ => segment sh (m_next sh a) rest t
      end
  end.



(** The scan of line 150 on a memory that no other thread changes:
    [for ( ; m_chunk_size[l] > 0 && m_freelist[l] == 0; ++l );] *)
Fixpoint free_scan (P : MemPoolList) (sh : shared) (fuel : nat) (l : nat)
  : nat :=
  match fuel with
  | O => l
  | S fuel' =>
      if (0 <? chunk_size P l) && (m_freelist sh l =? 0)
      then free_scan P sh fuel' (S l)
      else l
  end.

(** Where that scan stops when it starts at [l_exp]: the first list that is
    not empty, or the sentinel. *)
Definition first_candidate (P : MemPoolList) (sh : shared) (l_exp : nat)
  : nat :=
  free_scan P sh (length (m_chunk_size P) - l_exp) l_exp.

(** While [allocate(s)] runs on the memory that was [sh0] at the call: the
    lists below the fitting class are as in [sh0], and the indices the call
    works with are at or above the fitting class. *)
Definition above_class (P : MemPoolList) (s : Z) (sh0 sh : shared) (c : pc)
  : Prop :=
  (forall i, (i < find_class P s)%nat -> m_freelist sh i = m_freelist sh0 i) /\
  match c with
  | AllocEntry s' => s' = s
  | AllocScan l_exp _ l
  | AllocReadHead l_exp _ l
  | AllocLock l_exp _ l _
  | AllocReadNext l_exp l _
  | AllocUnlock l_exp l _ _
  | AllocClear l_exp l _ => l_exp = find_class P s /\ (l_exp <= l)%nat
  | AllocSplit l_exp _ _ _ => l_exp = find_class P s
  | InsertRead _ _ l _
  | InsertLink _ _ l _ _
  | InsertCAS _ _ l _ _ => l = find_class P s
  | DeallocEntry _ _ => False
  | Done _ => True
  end.



(** Control states in which the chunk being removed or returned is not
    null; for a finished call this is asked in the aborting build only,
    where giving up aborts instead of returning null. *)
Definition nonnull (P : MemPoolList) (c : pc) : Prop :=
  match c with
  | AllocLock _ _ _ old_head
  | AllocReadNext _ _ old_head
  | AllocUnlock _ _ old_head _
  | AllocClear _ _ old_head => old_head <> 0
  | AllocSplit _ p _ _ => p <> 0
  | InsertRead _ _ _ (Ptr p)
  | InsertLink _ _ _ _ (Ptr p)
  | InsertCAS _ _ _ _ (Ptr p) => p <> 0
  | Done (Return (Ptr p)) => KOKKOS_MEMPOOLLIST_PRINTERR P = true -> p <> 0
  | _ => True
  end.




(** ** Chunks in use and chunks on the lists *)

(** A chunk with the class it belongs to: the bytes from [a] up to
    [a + m_chunk_size[l]]. *)
Definition block : Type := (Z * nat)%type.

Definition block_eq_dec (x y : block) : {x = y} + {x <> y}.
Proof. decide equality; [apply Nat.eq_dec | apply Z.eq_dec]. Defined.

Definition disjoint (P : MemPoolList) (x y : block) : Prop :=
  fst x + chunk_size P (snd x) <= fst y \/
  fst y + chunk_size P (snd y) <= fst x.

(** The block is of a configured class and lies in the arena
    [m_data, m_data + m_data_size). *)
Definition in_pool (P : MemPoolList) (x : block) : Prop :=
  (snd x < length (m_chunk_size P))%nat /\
  m_data P <= fst x /\
  fst x + chunk_size P (snd x) <= m_data P + m_data_size P.

(** The arena as construction delivers it: not at address 0 and not up to
    the end of the address space. *)
Definition arena_ok (P : MemPoolList) : Prop :=
  0 < m_data P /\ m_data P + m_data_size P < modulus.

(** Each class is at least twice the size of the classes below it. *)
Definition doubling (P : MemPoolList) : Prop :=
  forall i j, (i < j < length (m_chunk_size P))%nat ->
    2 * chunk_size P i <= chunk_size P j.

(** [F l] lists the chunks on list [l]; [O] lists the blocks that callers
    hold. *)
Definition free_in (F : nat -> list Z) (x : block) : Prop :=
  In (fst x) (F (snd x)).

Definition live (F : nat -> list Z) (O : list block) (x : block) : Prop :=
  free_in F x \/ In x O.

(** The pool is consistent: every list is the chain that [F] says, without
    repetition; no block is held twice, or held and free; all blocks lie in
    the arena and no two of them overlap. *)
Record pool_wf (P : MemPoolList) (sh : shared) (F : nat -> list Z)
    (O : list block) : Prop := {
  wf_chain : forall l, (l < length (m_chunk_size P))%nat ->
               chain sh (m_freelist sh l) (F l);
  wf_nodup : forall l, NoDup (F l);
  wf_held_once : NoDup O;
  wf_free_not_held : forall x, free_in F x -> ~ In x O;
  wf_in_pool : forall x, live F O x -> in_pool P x;
  wf_disjoint : forall x y, live F O x -> live F O y -> x <> y ->
                  disjoint P x y
}.

(** Calls of client code that keeps to the contract: it releases only
    blocks it holds, with a size of the class they were allocated for. *)
Inductive call : Type :=
| Allocate (alloc_size : Z)
| Deallocate (alloc_ptr alloc_size : Z).

Definition call_size (c : call) : Z :=
  match c with
  | Allocate s => s
  | Deallocate _ s => s
  end.

(** The arena of [pool_a] with its three free chunks and the chunk at 7168
    held by a caller. *)
Definition free_a (l : nat) : list Z :=
  if Nat.eqb l 2 then [4096; 5120; 6144] else [].

Definition held_a : list block := [(7168, 2%nat)].

Definition calls_a : list call :=
  [Allocate 64; Allocate 200; Deallocate 7168 1024; Allocate 64;
   Deallocate 4096 64; Allocate 1024].

(** ** The memory byte by byte

    In [shared] a link is one entry of a map from addresses to words, as if
    no two links shared a byte.  Here the memory is an array of bytes and a
    link is the [link_size] bytes from its address on, so that links whose
    addresses are less than [link_size] apart overlap as they do in the
    machine.  The byte order is that of the host, taken as little-endian;
    nothing below depends on it. *)

Record image : Type := {
  i_freelist : nat -> Z;
  i_byte : Z -> Z
}.

Definition set_head (m : image) (l : nat) (v : Z) : image :=
  {| i_freelist := fun i => if Nat.eqb i l then v else i_freelist m i;
     i_byte := i_byte m |}.

(** The [n] low bytes of [v], lowest first, and the word that bytes make. *)
Fixpoint bytes_of (n : nat) (v : Z) : list Z :=
  match n with
  | O => []
  | S n' => v mod 256 :: bytes_of n' (v / 256)
  end.

Fixpoint word_of (bs : list Z) : Z :=
  match bs with
  | [] => 0
  | b :: rest => b mod 256 + 256 * word_of rest
  end.

(** [link->m_next], read as one word. *)
Definition load_link (m : image) (a : Z) : Z :=
  word_of (map (fun i => i_byte m (a + Z.of_nat i)) (seq 0 8)).

(** [link->m_next = v]: the eight bytes from [a] on are written. *)
Definition store_link (m : image) (a v : Z) : image :=
  {| i_freelist := i_freelist m;
     i_byte := fun b =>
       if (a <=? b) && (b <? a + link_size)
       then nth (Z.to_nat (b - a)) (bytes_of 8 v) 0
       else i_byte m b |}.

(** Client code writes one byte. *)
Definition poke (m : image) (a v : Z) : image :=
  {| i_freelist := i_freelist m;
     i_byte := fun b => if b =? a then v else i_byte m b |}.

(** The memory as the word-granular model sees it. *)
Definition view (m : image) : shared :=
  {| m_freelist := i_freelist m; m_next := load_link m |}.

(** One atomic step of a thread on the bytes: [thread_step] with the links
    read and written as [link_size] bytes. *)
Definition byte_step (P : MemPoolList) (m : image) (c : pc) : image * pc :=
  match c with
  | AllocEntry alloc_size =>                                     (* 134-145 *)
      let l_exp := find_class P alloc_size in
      if KOKKOS_MEMPOOLLIST_PRINTERR P && (chunk_size P l_exp =? 0)
      then (m, Done (Abort REQUESTED_SIZE_TOO_LARGE))
      else (m, AllocScan l_exp 0 l_exp)
  | AllocScan l_exp num_tries l =>                               (* 150-152 *)
      if 0 <? chunk_size P l then
        if i_freelist m l =? 0
        then (m, AllocScan l_exp num_tries (S l))
        else (m, AllocReadHead l_exp num_tries l)
      else                                                       (* 200-213 *)
        if num_tries =? 100000 then
          if KOKKOS_MEMPOOLLIST_PRINTERR P
          then (m, Done (Abort NO_CHUNKS_BIG_ENOUGH))
          else (m, Done (Return (Ptr 0)))
        else (m, AllocScan l_exp (num_tries + 1) l_exp)
  | AllocReadHead l_exp num_tries l =>                           (* 155-157 *)
      let old_head := i_freelist m l in
      if negb (old_head =? 0) && negb (old_head =? KOKKOS_MEMPOOLLIST_LOCK)
      then (m, AllocLock l_exp num_tries l old_head)
      else (m, AllocScan l_exp num_tries l_exp)                  (* 193-198 *)
  | AllocLock l_exp num_tries l old_head =>                      (* 163-166 *)
      if i_freelist m l =? old_head
      then (set_head m l KOKKOS_MEMPOOLLIST_LOCK,
            AllocReadNext l_exp l old_head)
      else (m, AllocScan l_exp num_tries l_exp)
  | AllocReadNext l_exp l old_head =>                            (* 169-170 *)
      (m, AllocUnlock l_exp l old_head (load_link m old_head))
  | AllocUnlock l_exp l old_head head_next =>                    (* 173-186 *)
      if i_freelist m l =? KOKKOS_MEMPOOLLIST_LOCK
      then (set_head m l head_next, AllocClear l_exp l old_head)
      else if KOKKOS_MEMPOOLLIST_PRINTERR P
           then (m, Done (Abort UNLOCK_ERROR))
           else (m, AllocClear l_exp l old_head)
  | AllocClear l_exp l old_head =>                          (* 188-190, 215-235 *)
      let m' := store_link m old_head 0 in
      if negb (old_head =? 0) && (l_exp <? l)%nat
      then (m', AllocSplit l_exp old_head
                  (chunk_size P l / chunk_size P l_exp) 2)
      else (m', Done (Return (Ptr old_head)))
  | AllocSplit l_exp p num_chunks i =>                           (* 238-247 *)
      let sz := chunk_size P l_exp in
      if i <? num_chunks
      then (store_link m (wrap (p + (i - 1) * sz)) (wrap (p + i * sz)),
            AllocSplit l_exp p num_chunks (i + 1))
      else (m, InsertRead (wrap (p + sz))
                          (wrap (p + (num_chunks - 1) * sz))
                          l_exp (Ptr p))
  | InsertRead lp_head lp_tail list ret =>                       (* 100-103 *)
      let old_head := i_freelist m list in
      if negb (old_head =? KOKKOS_MEMPOOLLIST_LOCK)
      then (m, InsertLink lp_head lp_tail list old_head ret)
      else (m, InsertRead lp_head lp_tail list ret)
  | InsertLink lp_head lp_tail list old_head ret =>              (* 108-110 *)
      (store_link m lp_tail old_head,
       InsertCAS lp_head lp_tail list old_head ret)
  | InsertCAS lp_head lp_tail list old_head ret =>               (* 116-120 *)
      if i_freelist m list =? old_head
      then (set_head m list lp_head, Done (Return ret))
      else (m, InsertRead lp_head lp_tail list ret)
  | DeallocEntry alloc_ptr alloc_size =>                         (* 269-302 *)
      if KOKKOS_MEMPOOLLIST_PRINTERR P
         && ((alloc_ptr <? m_data P)
             || (wrap (m_data P + m_data_size P) <? wrap (alloc_ptr + alloc_size)))
      then (m, Done (Abort ADDRESS_OUT_OF_RANGE))
      else
        let l := find_class P alloc_size in
        if KOKKOS_MEMPOOLLIST_PRINTERR P && (chunk_size P l =? 0)
        then (m, Done (Abort CHUNK_TOO_LARGE))
        else (m, InsertRead alloc_ptr alloc_ptr l Void)
  | Done o => (m, Done o)
  end.

(** The link that the step at [c] stores, with the value stored. *)
Definition stored (P : MemPoolList) (c : pc) : option (Z * Z) :=
  match c with
  | AllocClear _ _ old_head => Some (old_head, 0)
  | AllocSplit l_exp p num_chunks i =>
      if i <? num_chunks
      then Some (wrap (p + (i - 1) * chunk_size P l_exp),
                 wrap (p + i * chunk_size P l_exp))
      else None
  | InsertLink _ lp_tail _ old_head _ => Some (lp_tail, old_head)
  | _ => None
  end.

(** ** Interleaved use that keeps to the contract, on the bytes *)

Record byte_config : Type := {
  bmem : image;
  bthr : nat -> option pc
}.

Definition view_config (c : byte_config) : config :=
  {| mem := view (bmem c); thr := bthr c |}.

(** [sys_step] on the bytes; a write of client code is the write of one
    byte. *)
Definition byte_sys_step (P : MemPoolList) (a : action) (c : byte_config)
  : option byte_config :=
  match a with
  | CallAllocate t alloc_size =>
      match bthr c t with
      | None =>
          Some {| bmem := bmem c;
                  bthr := fun u => if Nat.eqb u t
                                   then Some (AllocEntry alloc_size)
                                   else bthr c u |}
      | Some _ => None
      end
  | CallDeallocate t alloc_ptr alloc_size =>
      match bthr c t with
      | None =>
          Some {| bmem := bmem c;
                  bthr := fun u => if Nat.eqb u t
                                   then Some (DeallocEntry alloc_ptr alloc_size)
                                   else bthr c u |}
      | Some _ => None
      end
  | Step t =>
      match bthr c t with
      | Some k =>
          let (m', k') := byte_step P (bmem c) k in
          Some {| bmem := m';
                  bthr := fun u => if Nat.eqb u t then Some k' else bthr c u |}
      | None => None
      end
  | Leave t =>
      match bthr c t with
      | Some (Done (Return _)) =>
          Some {| bmem := bmem c;
                  bthr := fun u => if Nat.eqb u t then None else bthr c u |}
      | _ => None
      end
  | ClientWrite a v =>
      Some {| bmem := poke (bmem c) a v; bthr := bthr c |}
  end.

(** The interleaved system with the blocks that client code holds and, for
    each thread, the size it passed to its current call. *)
Record world : Type := {
  cfg : byte_config;
  held : list block;
  asked : nat -> Z
}.

(** Byte [b] lies in the block. *)
Definition within (P : MemPoolList) (b : Z) (x : block) : bool :=
  (fst x <=? b) && (b <? fst x + chunk_size P (snd x)).

(** The link at [b] lies in the block. *)
Definition inside (P : MemPoolList) (b : Z) (x : block) : bool :=
  (fst x <=? b) && (b + link_size <=? fst x + chunk_size P (snd x)).

(** The link at [b] has a byte in the block. *)
Definition touches (P : MemPoolList) (b : Z) (x : block) : bool :=
  (fst x <? b + link_size) && (b <? fst x + chunk_size P (snd x)).

Definition set_asked (w : world) (t : nat) (s : Z) : nat -> Z :=
  fun u => if Nat.eqb u t then s else asked w u.

(** What [allocate] has handed to the thread that leaves the call. *)
Definition handed (P : MemPoolList) (w : world) (t : nat) : list block :=
  match bthr (cfg w) t with
  | Some (Done (Return (Ptr p))) =>
      if p =? 0 then [] else [(p, find_class P (asked w t))]
  | _ => []
  end.

(** The actions of client code that keeps to the contract: sizes are
    [size_t]; a block is released only while held, with a size of its
    class, and is no longer held from the call on; a block is held from the
    return of [allocate] on; client code writes only bytes of blocks it
    holds. *)
Definition contract_step (P : MemPoolList) (a : action) (w : world)
  : option world :=
  match a with
  | CallAllocate t s =>
      if 0 <=? s then
        match byte_sys_step P a (cfg w) with
        | Some c => Some {| cfg := c; held := held w;
                            asked := set_asked w t s |}
        | None => None
        end
      else None
  | CallDeallocate t p s =>
      if (0 <=? s)
         && (if in_dec block_eq_dec (p, find_class P s) (held w)
             then true else false)
      then
        match byte_sys_step P a (cfg w) with
        | Some c =>
            Some {| cfg := c;
                    held := remove block_eq_dec (p, find_class P s) (held w);
                    asked := set_asked w t s |}
        | None => None
        end
      else None
  | Step t =>
      match byte_sys_step P a (cfg w) with
      | Some c => Some {| cfg := c; held := held w; asked := asked w |}
      | None => None
      end
  | Leave t =>
      match byte_sys_step P a (cfg w) with
      | Some c => Some {| cfg := c; held := handed P w t ++ held w;
                          asked := asked w |}
      | None => None
      end
  | ClientWrite b v =>
      if existsb (within P b) (held w) then
        match byte_sys_step P a (cfg w) with
        | Some c => Some {| cfg := c; held := held w; asked := asked w |}
        | None => None
        end
      else None
  end.

Fixpoint contract_run (P : MemPoolList) (acts : list action) (w : world)
  : option world :=
  match acts with
  | [] => Some w
  | a :: rest =>
      match contract_step P a w with
      | Some w' => contract_run P rest w'
      | None => None
      end
  end.

(** Who has a block: a free list, client code, or a thread inside a call. *)
Inductive owner : Type :=
| OnList
| ByClient
| InCall (t : nat).

Definition owns (F : nat -> list Z) (O : list block) (G : nat -> list block)
    (o : owner) (x : block) : Prop :=
  match o with
  | OnList => free_in F x
  | ByClient => In x O
  | InCall t => In x (G t)
  end.

(** The block that a finished [insert_list] leaves with its caller. *)
Definition ret_block (r : result) (l : nat) : list block :=
  match r with
  | Ptr p => [(p, l)]
  | Void => []
  end.

(** What the control state of a thread says about the blocks [g] it has
    and about the memory, for a call with size [s]. *)
Definition thread_ok (P : MemPoolList) (sh : shared) (F : nat -> list Z)
    (s : Z) (g : list block) (k : option pc) : Prop :=
  match k with
  | None => g = []
  | Some (AllocEntry s') => g = [] /\ s' = s /\ 0 <= s
  | Some (AllocScan l_exp _ l) =>
      g = [] /\ l_exp = find_class P s /\ (l_exp <= l)%nat
  | Some (AllocReadHead l_exp _ l)
  | Some (AllocLock l_exp _ l _) =>
      g = [] /\ l_exp = find_class P s /\
      (l_exp <= l < length (m_chunk_size P))%nat
  | Some (AllocReadNext l_exp l old_head) =>
      g = [] /\ l_exp = find_class P s /\
      (l_exp <= l < length (m_chunk_size P))%nat /\
      old_head <> 0 /\ chain sh old_head (F l)
  | Some (AllocUnlock l_exp l old_head head_next) =>
      g = [] /\ l_exp = find_class P s /\
      (l_exp <= l < length (m_chunk_size P))%nat /\
      old_head <> 0 /\ chain sh old_head (F l) /\
      head_next = m_next sh old_head
  | Some (AllocClear l_exp l old_head) =>
      g = [(old_head, l)] /\ l_exp = find_class P s /\
      (l_exp <= l < length (m_chunk_size P))%nat
  | Some (AllocSplit l_exp p num_chunks i) =>
      exists l,
        g = [(p, l)] /\ l_exp = find_class P s /\
        (l_exp < l < length (m_chunk_size P))%nat /\
        num_chunks = chunk_size P l / chunk_size P l_exp /\
        2 <= i <= num_chunks /\
        (forall j, 2 <= j < i ->
           m_next sh (p + (j - 1) * chunk_size P l_exp) =
           p + j * chunk_size P l_exp)
  | Some (InsertRead lp_head lp_tail l ret) =>
      exists nodes,
        segment sh lp_head nodes lp_tail /\
        g = map (fun a => (a, l)) nodes ++ ret_block ret l /\
        l = find_class P s
  | Some (InsertLink lp_head lp_tail l old_head ret) =>
      exists nodes,
        segment sh lp_head nodes lp_tail /\
        g = map (fun a => (a, l)) nodes ++ ret_block ret l /\
        l = find_class P s /\
        0 <= old_head < modulus
  | Some (InsertCAS lp_head lp_tail l old_head ret) =>
      exists nodes,
        segment sh lp_head nodes lp_tail /\
        g = map (fun a => (a, l)) nodes ++ ret_block ret l /\
        l = find_class P s /\
        m_next sh lp_tail = old_head
  | Some (DeallocEntry p s') =>
      g = [(p, find_class P s)] /\ s' = s /\ 0 <= s
  | Some (Done (Return (Ptr p))) =>
      g = if p =? 0 then [] else [(p, find_class P s)]
  | Some (Done (Return Void)) => g = []
  | Some (Done (Abort m)) =>
      g = [] /\ (m = REQUESTED_SIZE_TOO_LARGE \/ m = NO_CHUNKS_BIG_ENOUGH)
  end.

Definition holds_list (k : option pc) (l : nat) : Prop :=
  match k with
  | Some k' => holds k' l
  | None => False
  end.

(** The interleaved system is consistent: lists that are not locked are the
    chains that [F] says; a locked list has a holder; every block has one
    owner; all blocks lie in the arena and no two overlap; every thread is
    in a state that fits what it has. *)
Record safe (P : MemPoolList) (w : world) (F : nat -> list Z)
    (G : nat -> list block) : Prop := {
  s_sys : sys_inv (view_config (cfg w));
  s_chain : forall l, (l < length (m_chunk_size P))%nat ->
              i_freelist (bmem (cfg w)) l <> KOKKOS_MEMPOOLLIST_LOCK ->
              chain (view (bmem (cfg w))) (i_freelist (bmem (cfg w)) l) (F l);
  s_locked : forall l, (l < length (m_chunk_size P))%nat ->
               i_freelist (bmem (cfg w)) l = KOKKOS_MEMPOOLLIST_LOCK ->
               exists t, holds_list (bthr (cfg w) t) l;
  s_nodup_list : forall l, NoDup (F l);
  s_nodup_held : NoDup (held w);
  s_nodup_call : forall t, NoDup (G t);
  s_one_owner : forall o o' x,
      owns F (held w) G o x -> owns F (held w) G o' x -> o = o';
  s_in_pool : forall o x, owns F (held w) G o x -> in_pool P x;
  s_disjoint : forall o o' x y,
      owns F (held w) G o x -> owns F (held w) G o' y -> x <> y ->
      disjoint P x y;
  s_thread : forall t,
      thread_ok P (view (bmem (cfg w))) F (asked w t) (G t) (bthr (cfg w) t)
}.

Definition set_call (G : nat -> list block) (t : nat) (g : list block)
  : nat -> list block :=
  fun u => if Nat.eqb u t then g else G u.

Definition set_list (F : nat -> list Z) (l : nat) (cs : list Z)
  : nat -> list Z :=
  fun i => if Nat.eqb i l then cs else F i.

(** The bytes of [m'] differ from those of [m] only within blocks of owner
    [o]. *)
Definition writes_within (P : MemPoolList) (F : nat -> list Z)
    (O : list block) (G : nat -> list block) (o : owner)
    (m m' : image) : Prop :=
  forall b, (forall x, owns F O G o x -> within P b x = false) ->
    i_byte m' b = i_byte m b.

(** Every thread in client code, which holds the blocks [O]. *)
Definition start (m : image) (O : list block) : world :=
  {| cfg := {| bmem := m; bthr := fun _ => None |};
     held := O;
     asked := fun _ => 0 |}.

(** The action leaves block [x] to its holder: it is not a release of [x]
    and not a write of client code into [x]. *)
Definition spares (P : MemPoolList) (x : block) (a : action) : Prop :=
  match a with
  | ClientWrite b _ => within P b x = false
  | CallDeallocate _ p s => (p, find_class P s) <> x
  | _ => True
  end.

(** The bytes of [mem_a]: the links 4096 -> 5120 -> 6144 -> null, all other
    bytes zero. *)
Definition image_a : image :=
  store_link
    (store_link
       (store_link {| i_freelist := m_freelist mem_a; i_byte := fun _ => 0 |}
                   4096 5120)
       5120 6144)
    6144 0.

(** Three threads on [pool_a], step by step in turn: thread 0 allocates 64
    bytes, thread 1 allocates 1024 bytes and thread 2 releases the chunk at
    7168; all return and client code writes a byte of the block that thread
    1 got. *)
Definition schedule_three : list action :=
  [CallAllocate 0 64; CallAllocate 1 1024; CallDeallocate 2 7168 1024]
  ++ concat (repeat [Step 0; Step 1; Step 2] 40)
  ++ [Leave 0; Leave 1; Leave 2; ClientWrite 4100 7].

(** Thread 2 releases the chunk at 7168 while thread 3 asks for more than
    the largest class. *)
Definition schedule_abort : list action :=
  [CallDeallocate 2 7168 1000; CallAllocate 3 5000; Step 3; Step 2; Step 2;
   Step 2; Step 2].

(** Client code stores 99 in the last byte of the block it holds at
    7168. *)
Definition schedule_store : list action := [ClientWrite 8191 99].

(** Then threads 0 and 1 allocate 64 and 1024 bytes, step by step in turn,
    and client code writes a byte of the block that thread 1 got. *)
Definition schedule_keep : list action :=
  [CallAllocate 0 64; CallAllocate 1 1024]
  ++ concat (repeat [Step 0; Step 1] 40)
  ++ [Leave 0; Leave 1; ClientWrite 4100 7].

(** Byte [b] lies in a block that is on a list, held, or with a thread
    inside a call. *)
Definition covered (P : MemPoolList) (F : nat -> list Z) (O : list block)
    (G : nat -> list block) (b : Z) : Prop :=
  exists o x, owns F O G o x /\ within P b x = true.

(** Every class size is a multiple of the smaller ones, so that a split
    leaves no trailing bytes. *)
Definition evenly (P : MemPoolList) : Prop :=
  forall i j, (i < j < length (m_chunk_size P))%nat ->
    chunk_size P j mod chunk_size P i = 0.

(** From one state to a later one no byte comes under the pool's blocks,
    and none leaves them unless a split has trailing bytes; every block is
    still there, whole or as the first piece of a split. *)
Definition conserves (P : MemPoolList)
    (F : nat -> list Z) (O : list block) (G : nat -> list block)
    (F' : nat -> list Z) (O' : list block) (G' : nat -> list block) : Prop :=
  (forall b, covered P F' O' G' b -> covered P F O G b) /\
  (evenly P -> forall b, covered P F O G b -> covered P F' O' G' b) /\
  (forall o x, owns F O G o x ->
     exists o' y, owns F' O' G' o' y /\
                  fst y = fst x /\ (snd y <= snd x)%nat).

(** Byte [b] lies in a chunk of a list or in a held block. *)
Definition pooled (P : MemPoolList) (F : nat -> list Z) (O : list block)
    (b : Z) : Prop :=
  exists x, live F O x /\ within P b x = true.

(** A pool whose small class cannot hold a link: classes of 4 and 16
    bytes, an arena of two 16-byte chunks, the one at 4096 free and the one
    at 4112 held by client code, which has filled it with the byte 255. *)
Definition pool_s : MemPoolList :=
  {| m_chunk_size := [4; 16];
     m_data := 4096;
     m_data_size := 32;
     KOKKOS_MEMPOOLLIST_PRINTERR := true |}.

Definition image_s : image :=
  {| i_freelist := fun l => if Nat.eqb l 1 then 4096 else 0;
     i_byte := fun b => if (4112 <=? b) && (b <? 4128) then 255 else 0 |}.

Definition free_s (l : nat) : list Z :=
  if Nat.eqb l 1 then [4096] else [].

Definition held_s : list block := [(4112, 1%nat)].

(** One thread allocates 4 bytes and returns. *)
Definition schedule_s : list action :=
  CallAllocate 0 4 :: repeat (Step 0) 14 ++ [Leave 0].

(** ** Sequential execution on the bytes *)

Fixpoint byte_steps (P : MemPoolList) (n : nat) (m : image) (c : pc)
  : image * pc :=
  match n with
  | O => (m, c)
  | S n' => let (m', c') := byte_step P m c in byte_steps P n' m' c'
  end.

Fixpoint byte_run (P : MemPoolList) (fuel : nat) (m : image) (c : pc)
  : option (outcome * image) :=
  match final c with
  | Some o => Some (o, m)
  | None =>
      match fuel with
      | O => None
      | S fuel' =>
          let (m', c') := byte_step P m c in byte_run P fuel' m' c'
      end
  end.

Definition byte_allocate (P : MemPoolList) (fuel : nat) (m : image)
    (alloc_size : Z) : option (outcome * image) :=
  byte_run P fuel m (AllocEntry alloc_size).

Definition byte_deallocate (P : MemPoolList) (fuel : nat) (m : image)
    (alloc_ptr alloc_size : Z) : option (outcome * image) :=
  byte_run P fuel m (DeallocEntry alloc_ptr alloc_size).

(** The sequential run on the bytes ends with outcome [o] in memory [m'],
    given enough fuel. *)
Definition byte_yields (P : MemPoolList) (m : image) (c : pc)
    (o : outcome) (m' : image) : Prop :=
  exists n, forall fuel, (n <= fuel)%nat ->
    byte_run P fuel m c = Some (o, m').

(** The list heads and the bytes of [m'] are those of [m]. *)
Definition same_memory (m m' : image) : Prop :=
  (forall l, i_freelist m' l = i_freelist m l) /\
  (forall b, i_byte m' b = i_byte m b).

(** A sequence of calls by one thread, with the blocks held.  An abort
    ends the run; releasing a block that is not held is not part of the
    contract and gives no result. *)
Fixpoint byte_play (P : MemPoolList) (fuel : nat) (calls : list call)
    (m : image) (O : list block) : option (image * list block) :=
  match calls with
  | [] => Some (m, O)
  | Allocate s :: rest =>
      match byte_allocate P fuel m s with
      | Some (Return (Ptr p), m') =>
          if p =? 0 then byte_play P fuel rest m' O
          else byte_play P fuel rest m' ((p, find_class P s) :: O)
      | Some (_, m') => Some (m', O)
      | None => None
      end
  | Deallocate p s :: rest =>
      if in_dec block_eq_dec (p, find_class P s) O then
        match byte_deallocate P fuel m p s with
        | Some (Return _, m') =>
            byte_play P fuel rest m'
              (remove block_eq_dec (p, find_class P s) O)
        | Some (Abort _, m') => Some (m', O)
        | None => None
        end
      else None
  end.

(** Control states of a call that has not yet stored a link, and the
    outcomes that are failures. *)
Definition early (c : pc) : bool :=
  match c with
  | AllocEntry _
  | AllocScan _ _ _
  | AllocReadHead _ _ _
  | AllocLock _ _ _ _
  | AllocReadNext _ _ _
  | AllocUnlock _ _ _ _
  | DeallocEntry _ _ => true
  | Done (Abort _) => true
  | Done (Return (Ptr p)) => p =? 0
  | _ => false
  end.

(** Control states of a call of [allocate]. *)
Definition allocating (c : pc) : Prop :=
  match c with
  | DeallocEntry _ _
  | InsertRead _ _ _ Void
  | InsertLink _ _ _ _ Void
  | InsertCAS _ _ _ _ Void
  | Done (Return Void) => False
  | _ => True
  end.

(** The bytes and the word-granular memory go together through a call
    that started on the bytes [m0]: the list heads agree, and until the call
    stores its first link the bytes are those of [m0] and the links of the
    word-granular memory are the links that [m0] holds. *)
Definition follows (P : MemPoolList) (m0 m : image) (sh : shared) (c : pc)
  : Prop :=
  (forall l, i_freelist m l = m_freelist sh l) /\
  nonnull P c /\
  (early c = true ->
     (forall b, i_byte m b = i_byte m0 b) /\
     (forall a, m_next sh a = load_link m0 a)).

(** What a finished call of [allocate] leaves with its caller. *)
Definition gained (P : MemPoolList) (s : Z) (o : outcome) : list block :=
  match o with
  | Return (Ptr p) => if p =? 0 then [] else [(p, find_class P s)]
  | _ => []
  end.

(** While [deallocate(ptr, size)] runs on the bytes that were [m0] at the
    call: only the head of the list of its class and the bytes of the link
    of [ptr] may differ from [m0]. *)
Definition only_own_link (P : MemPoolList) (ptr size : Z) (m0 m : image)
    (c : pc) : Prop :=
  (forall i, i <> find_class P size -> i_freelist m i = i_freelist m0 i) /\
  (forall b, b < ptr \/ ptr + link_size <= b -> i_byte m b = i_byte m0 b) /\
  match c with
  | DeallocEntry p s' => p = ptr /\ s' = size
  | InsertRead _ t l _
  | InsertLink _ t l _ _
  | InsertCAS _ t l _ _ => t = ptr /\ l = find_class P size
  | Done _ => True
  | _ => False
  end.

(** ** A call that takes the head of a list, on the bytes *)

(** While [allocate(s)] runs on the bytes that were [m0] at the call, where
    the lists from the fitting class [e] up to [l - 1] are empty and list
    [l] is not: the call takes the head [p] of list [l]; it writes only the
    link of [p] or, when it splits, the first [n * size(e)] bytes of the
    chunk; each control state holds what the call has done so far. *)
Definition taking (P : MemPoolList) (s : Z) (l : nat) (m0 m : image)
    (c : pc) : Prop :=
  let e := find_class P s in
  let p := i_freelist m0 l in
  let sz := chunk_size P e in
  let n := chunk_size P l / sz in
  let span := if (e <? l)%nat then n * sz else link_size in
  let bytes_same := forall b, i_byte m b = i_byte m0 b in
  let low_empty := (e < l)%nat -> i_freelist m e = 0 in
  let linked := fun i =>
    forall j, 2 <= j < i -> load_link m (p + (j - 1) * sz) = p + j * sz in
  let inserting :=
    (e < l)%nat /\ i_freelist m l = load_link m0 p /\ i_freelist m e = 0 /\
    load_link m p = 0 /\ linked n in
  (forall b, b < p \/ p + span <= b -> i_byte m b = i_byte m0 b) /\
  (forall i, i <> e -> i <> l -> i_freelist m i = i_freelist m0 i) /\
  match c with
  | AllocEntry s' => s' = s /\ same_memory m0 m
  | AllocScan e' _ l' =>
      e' = e /\ (e <= l' <= l)%nat /\ same_memory m0 m
  | AllocReadHead e' _ l' => e' = e /\ l' = l /\ same_memory m0 m
  | AllocLock e' _ l' a => e' = e /\ l' = l /\ a = p /\ same_memory m0 m
  | AllocReadNext e' l' a =>
      e' = e /\ l' = l /\ a = p /\
      i_freelist m l = KOKKOS_MEMPOOLLIST_LOCK /\ bytes_same /\ low_empty
  | AllocUnlock e' l' a head_next =>
      e' = e /\ l' = l /\ a = p /\ head_next = load_link m0 p /\
      i_freelist m l = KOKKOS_MEMPOOLLIST_LOCK /\ bytes_same /\ low_empty
  | AllocClear e' l' a =>
      e' = e /\ l' = l /\ a = p /\
      i_freelist m l = load_link m0 p /\ bytes_same /\ low_empty
  | AllocSplit e' p' n' i =>
      (e < l)%nat /\ e' = e /\ p' = p /\ n' = n /\ 2 <= i <= n /\
      i_freelist m l = load_link m0 p /\ i_freelist m e = 0 /\
      load_link m p = 0 /\ linked i
  | InsertRead h t li r =>
      inserting /\ h = p + sz /\ t = p + (n - 1) * sz /\ li = e /\ r = Ptr p
  | InsertLink h t li old_head r =>
      inserting /\ h = p + sz /\ t = p + (n - 1) * sz /\ li = e /\
      r = Ptr p /\ old_head = 0
  | InsertCAS h t li old_head r =>
      inserting /\ h = p + sz /\ t = p + (n - 1) * sz /\ li = e /\
      r = Ptr p /\ old_head = 0 /\ load_link m t = 0
  | DeallocEntry _ _ => False
  | Done o =>
      o = Return (Ptr p) /\ i_freelist m l = load_link m0 p /\
      load_link m p = 0 /\
      ((e < l)%nat ->
       i_freelist m e = p + sz /\ linked n /\
       load_link m (p + (n - 1) * sz) = 0)
  end.

(** [n] calls of [allocate(alloc_size)] in a row on the bytes. *)
Fixpoint byte_allocate_n (P : MemPoolList) (fuel : nat) (n : nat) (m : image)
    (alloc_size : Z) : option (list outcome * image) :=
  match n with
  | O => Some ([], m)
  | S n' =>
      match byte_allocate P fuel m alloc_size with
      | Some (o, m1) =>
          match byte_allocate_n P fuel n' m1 alloc_size with
          | Some (os, m2) => Some (o :: os, m2)
          | None => None
          end
      | None => None
      end
  end.

(** [length os] calls of [allocate(alloc_size)] in a row on the bytes end
    with the outcomes [os], in this order, and the bytes [m'], given enough
    fuel. *)
Definition byte_serves (P : MemPoolList) (m : image) (alloc_size : Z)
    (os : list outcome) (m' : image) : Prop :=
  exists n, forall fuel, (n <= fuel)%nat ->
    byte_allocate_n P fuel (length os) m alloc_size = Some (os, m').

(** ** Basic facts *)

Lemma freelist_set_same sh l v : m_freelist (set_freelist sh l v) l = v.
Proof. simpl. now rewrite Nat.eqb_refl. Qed.

Lemma freelist_set_other sh l v i :
  i <> l -> m_freelist (set_freelist sh l v) i = m_freelist sh i.
Proof. intros H. simpl. apply Nat.eqb_neq in H. now rewrite H. Qed.

Lemma next_set_same sh a v : m_next (set_next sh a v) a = v.
Proof. simpl. now rewrite Z.eqb_refl. Qed.

Lemma next_set_other sh a v b :
  b <> a -> m_next (set_next sh a v) b = m_next sh b.
Proof. intros H. simpl. apply Z.eqb_neq in H. now rewrite H. Qed.

Lemma wrap_small x : 0 <= x < modulus -> wrap x = x.
Proof. intros H. unfold wrap. now apply Z.mod_small. Qed.

Lemma modulus_pos : 0 < modulus.
Proof. reflexivity. Qed.

Lemma chunk_size_sentinel P l :
  (length (m_chunk_size P) <= l)%nat -> chunk_size P l = 0.
Proof. intros H. unfold chunk_size. now apply nth_overflow. Qed.

Lemma chunk_size_in P l :
  (l < length (m_chunk_size P))%nat -> In (chunk_size P l) (m_chunk_size P).
Proof. intros H. unfold chunk_size. now apply nth_In. Qed.

Lemma chunk_size_pos P l :
  table_ok P -> (l < length (m_chunk_size P))%nat ->
  0 < chunk_size P l < modulus.
Proof.
  intros [_ Hall] Hl. rewrite Forall_forall in Hall.
  apply Hall. now apply chunk_size_in.
Qed.

Lemma chunk_size_zero_iff P l :
  table_ok P ->
  (chunk_size P l = 0 <-> (length (m_chunk_size P) <= l)%nat).
Proof.
  intros Hok. split.
  - intros H0. destruct (le_lt_dec (length (m_chunk_size P)) l) as [|Hlt]; auto.
    pose proof (chunk_size_pos P l Hok Hlt). lia.
  - apply chunk_size_sentinel.
Qed.

Lemma largest_class_nonneg P : 0 <= largest_class P.
Proof.
  unfold largest_class. induction (m_chunk_size P); simpl; lia.
Qed.

Lemma largest_class_ge P l : chunk_size P l <= largest_class P.
Proof.
  unfold chunk_size, largest_class. revert l.
  induction (m_chunk_size P) as [|c tl IH]; intros [|l]; simpl; try lia.
  specialize (IH l). lia.
Qed.

Lemma largest_class_attained P :
  table_ok P ->
  exists l, (l < length (m_chunk_size P))%nat /\ chunk_size P l = largest_class P.
Proof.
  unfold table_ok, chunk_size, largest_class. intros [Hne Hall].
  induction (m_chunk_size P) as [|c tl IH]; [congruence|].
  inversion Hall as [|? ? Hc Htl]; subst.
  destruct tl as [|d tl'].
  - exists 0%nat. simpl. split; lia.
  - destruct IH as [l [Hl Hnth]]; [discriminate | assumption |].
    destruct (Z_le_gt_dec c (fold_right Z.max 0 (d :: tl'))) as [Hle|Hgt].
    + exists (S l). split; [simpl in *; lia|].
      change (nth l (d :: tl') 0 = Z.max c (fold_right Z.max 0 (d :: tl'))).
      rewrite Hnth. lia.
    + exists 0%nat. split; [simpl; lia|].
      change (c = Z.max c (fold_right Z.max 0 (d :: tl'))). lia.
Qed.

(** What the ascending scan returns, from any start index. *)
Lemma class_scan_spec P s fuel l :
  (length (m_chunk_size P) <= l + fuel)%nat ->
  let e := class_scan P s fuel l in
  (l <= e)%nat /\
  (forall i, (l <= i < e)%nat -> 0 < chunk_size P i < s) /\
  ~ (0 < chunk_size P e < s).
Proof.
  revert l. induction fuel as [|fuel IH]; intros l Hlen; simpl.
  - repeat split; try lia.
    rewrite chunk_size_sentinel by lia. lia.
  - destruct (0 <? chunk_size P l) eqn:Hpos; simpl.
    + destruct (chunk_size P l <? s) eqn:Hlt.
      * destruct (IH (S l)) as [Hle [Hbelow Hstop]]; [lia|].
        repeat split; try lia; auto.
        -- destruct (Nat.eq_dec i l) as [->|Hne]; [lia|]. apply Hbelow. lia.
        -- destruct (Nat.eq_dec i l) as [->|Hne]; [lia|]. apply Hbelow. lia.
      * repeat split; try lia.
    + repeat split; try lia.
Qed.

Lemma find_class_spec P s :
  let e := find_class P s in
  (forall i, (i < e)%nat -> 0 < chunk_size P i < s) /\
  ~ (0 < chunk_size P e < s).
Proof.
  destruct (class_scan_spec P s (length (m_chunk_size P)) 0) as [_ [H1 H2]];
    [lia|].
  split; [|exact H2]. intros i Hi. apply H1. fold (find_class P s). lia.
Qed.

Lemma find_class_le_length P s :
  (find_class P s <= length (m_chunk_size P))%nat.
Proof.
  destruct (find_class_spec P s) as [H1 _].
  destruct (le_lt_dec (find_class P s) (length (m_chunk_size P))); auto.
  specialize (H1 (length (m_chunk_size P)) ltac:(lia)).
  rewrite chunk_size_sentinel in H1 by lia. lia.
Qed.

(** The scan hits the sentinel exactly when the request exceeds every class. *)
Lemma find_class_sentinel_iff P s :
  table_ok P -> 0 <= s ->
  (chunk_size P (find_class P s) = 0 <-> largest_class P < s).
Proof.
  intros Hok Hs. destruct (find_class_spec P s) as [Hbelow Hstop].
  split.
  - intros H0. apply chunk_size_zero_iff in H0; auto.
    destruct (largest_class_attained P Hok) as [l [Hl Hmax]].
    specialize (Hbelow l ltac:(lia)). lia.
  - intros Hbig.
    destruct (le_lt_dec (length (m_chunk_size P)) (find_class P s)) as [Hge|Hlt].
    + now apply chunk_size_sentinel.
    + pose proof (chunk_size_pos P _ Hok Hlt).
      pose proof (largest_class_ge P (find_class P s)). lia.
Qed.

(** *** Runs, derivations and step sequences *)

Lemma run_done P fuel sh o : run P fuel sh (Done o) = Some (o, sh).
Proof. destruct fuel; reflexivity. Qed.

Lemma run_step P fuel sh c sh1 c1 :
  final c = None -> thread_step P sh c = (sh1, c1) ->
  run P (S fuel) sh c = run P fuel sh1 c1.
Proof. intros Hf Hs. simpl. now rewrite Hf, Hs. Qed.

Lemma run_mono P fuel : forall sh c r,
  run P fuel sh c = Some r -> forall fuel', (fuel <= fuel')%nat ->
  run P fuel' sh c = Some r.
Proof.
  induction fuel as [|fuel IH]; intros sh c r Hrun fuel' Hle.
  - simpl in Hrun. destruct (final c) eqn:Hf; [|discriminate].
    destruct fuel'; simpl; now rewrite Hf.
  - destruct fuel' as [|fuel']; [lia|].
    simpl in *. destruct (final c); auto.
    destruct (thread_step P sh c) as [sh1 c1]. apply IH with (1 := Hrun). lia.
Qed.

Lemma exec_yields P sh c o sh' : exec P sh c o sh' -> yields P sh c o sh'.
Proof.
  induction 1 as [sh o | sh c sh1 c1 o sh' Hf Hs _ [n IH]].
  - exists 0%nat. intros. apply run_done.
  - exists (S n). intros [|fuel] Hle; [lia|].
    rewrite (run_step P fuel sh c sh1 c1 Hf Hs). apply IH. lia.
Qed.

Lemma run_exec P fuel : forall sh c o sh',
  run P fuel sh c = Some (o, sh') -> exec P sh c o sh'.
Proof.
  induction fuel as [|fuel IH]; intros sh c o sh' Hrun.
  - simpl in Hrun. destruct c; try discriminate.
    inversion Hrun; subst. constructor.
  - destruct (final c) eqn:Hf.
    + destruct c; try discriminate. rewrite run_done in Hrun.
      inversion Hrun; subst. constructor.
    + destruct (thread_step P sh c) as [sh1 c1] eqn:Hs.
      rewrite (run_step P fuel sh c sh1 c1 Hf Hs) in Hrun.
      eapply exec_step; eauto.
Qed.

Lemma yields_exec P sh c o sh' : yields P sh c o sh' -> exec P sh c o sh'.
Proof. intros [n H]. apply (run_exec P n). apply H. lia. Qed.

Lemma yields_det P sh c o1 sh1 o2 sh2 :
  yields P sh c o1 sh1 -> yields P sh c o2 sh2 -> o1 = o2 /\ sh1 = sh2.
Proof.
  intros [n1 H1] [n2 H2].
  specialize (H1 (n1 + n2)%nat ltac:(lia)).
  specialize (H2 (n1 + n2)%nat ltac:(lia)).
  rewrite H1 in H2. inversion H2. auto.
Qed.

Lemma run_yields P fuel sh c o sh' :
  run P fuel sh c = Some (o, sh') -> yields P sh c o sh'.
Proof. intros H. apply exec_yields. eapply run_exec; eauto. Qed.

(** One step, then the rest. *)
Lemma yields_step P sh c sh1 c1 o sh' :
  final c = None -> thread_step P sh c = (sh1, c1) ->
  yields P sh1 c1 o sh' -> yields P sh c o sh'.
Proof.
  intros Hf Hs H. apply exec_yields. eapply exec_step; eauto.
  now apply yields_exec.
Qed.

Lemma yields_done P sh o : yields P sh (Done o) o sh.
Proof. apply exec_yields. constructor. Qed.

Lemma steps_add P n m : forall sh c,
  steps P (n + m) sh c =
  let (sh1, c1) := steps P n sh c in steps P m sh1 c1.
Proof.
  induction n as [|n IH]; intros sh c; simpl; [reflexivity|].
  destruct (thread_step P sh c) as [sh1 c1]. apply IH.
Qed.

Lemma steps_done P n sh o : steps P n sh (Done o) = (sh, Done o).
Proof. induction n; simpl; auto. Qed.

Lemma steps_one P sh c : steps P 1 sh c = thread_step P sh c.
Proof. simpl. now destruct (thread_step P sh c). Qed.

(** Some steps, then the rest. *)
Lemma steps_yields P n : forall sh c sh1 c1 o sh',
  steps P n sh c = (sh1, c1) ->
  yields P sh1 c1 o sh' -> yields P sh c o sh'.
Proof.
  induction n as [|n IH]; intros sh c sh1 c1 o sh' Hs Hy; simpl in Hs.
  - inversion Hs; subst. exact Hy.
  - destruct (final c) eqn:Hf.
    + destruct c; try discriminate. simpl in Hs.
      rewrite steps_done in Hs. inversion Hs; subst. exact Hy.
    + destruct (thread_step P sh c) as [sh2 c2] eqn:Hstep.
      eapply yields_step; eauto.
Qed.

(** A set of control states that one memory never lets a thread leave, and
    that holds no finished call: the run goes on for ever. *)
Lemma run_trapped P sh (D : pc -> Prop) :
  (forall c, D c -> final c = None) ->
  (forall c, D c -> exists c', thread_step P sh c = (sh, c') /\ D c') ->
  forall fuel c, D c -> run P fuel sh c = None.
Proof.
  intros Hnf Hclosed. induction fuel as [|fuel IH]; intros c Hc; simpl.
  - now rewrite (Hnf c Hc).
  - rewrite (Hnf c Hc). destruct (Hclosed c Hc) as [c' [Hs Hc']].
    rewrite Hs. now apply IH.
Qed.

(** *** Where [REQUESTED_SIZE_TOO_LARGE] can come from *)

Lemma past_entry_step P sh c :
  past_entry c -> past_entry (snd (thread_step P sh c)).
Proof.
  destruct c; simpl; intros H; try exact I; try contradiction;
    repeat match goal with
           | |- context [if ?b then _ else _] => destruct b
           end; simpl; auto.
Qed.

Lemma past_entry_run P fuel : forall sh c sh',
  past_entry c -> run P fuel sh c <> Some (Abort REQUESTED_SIZE_TOO_LARGE, sh').
Proof.
  induction fuel as [|fuel IH]; intros sh c sh' Hc Hrun.
  - destruct c; simpl in Hrun; try discriminate.
    inversion Hrun; subst. exact Hc.
  - destruct (final c) eqn:Hf.
    + destruct c; try discriminate. rewrite run_done in Hrun.
      inversion Hrun; subst. exact Hc.
    + pose proof (past_entry_step P sh c Hc) as Hnext.
      destruct (thread_step P sh c) as [sh1 c1] eqn:Hs.
      rewrite (run_step P fuel sh c sh1 c1 Hf Hs) in Hrun.
      exact (IH sh1 c1 sh' Hnext Hrun).
Qed.

(** The first step of [allocate], lines 134-145. *)
Lemma alloc_entry_step P sh s :
  table_ok P -> 0 <= s ->
  thread_step P sh (AllocEntry s) =
  (sh, if KOKKOS_MEMPOOLLIST_PRINTERR P && (largest_class P <? s)
       then Done (Abort REQUESTED_SIZE_TOO_LARGE)
       else AllocScan (find_class P s) 0 (find_class P s)).
Proof.
  intros Hok Hs. simpl.
  pose proof (find_class_sentinel_iff P s Hok Hs) as Hiff.
  destruct (KOKKOS_MEMPOOLLIST_PRINTERR P); simpl; [|reflexivity].
  destruct (chunk_size P (find_class P s) =? 0) eqn:H0;
    destruct (largest_class P <? s) eqn:Hl; try reflexivity.
  - apply Z.eqb_eq in H0. apply Z.ltb_ge in Hl. apply Hiff in H0. lia.
  - apply Z.eqb_neq in H0. apply Z.ltb_lt in Hl. apply Hiff in Hl. contradiction.
Qed.

(** ** C1: size-class selection and the too-large boundary *)

(** C1.  With the table well formed and the build as the source configures
    it, [allocate(s)] picks [e = find_class s], the least index whose chunk
    size is at least [s] (every index below [e] holds a size smaller than
    [s]; [e] is the sentinel's index exactly when [s] exceeds the largest
    class); its first step aborts with [REQUESTED_SIZE_TOO_LARGE] when [s]
    exceeds the largest class and otherwise enters the probe loop at [e];
    whatever the memory, the run ends in [REQUESTED_SIZE_TOO_LARGE] exactly
    when [s] exceeds the largest class, and never for [s] equal to it. *)
Theorem allocate_selects_least_fitting_class (P : MemPoolList) (s : Z) :
  KOKKOS_MEMPOOLLIST_PRINTERR P = true ->
  table_ok P ->
  0 <= s ->
  let e := find_class P s in
  (forall i, (i < e)%nat -> 0 < chunk_size P i < s) /\
  ((e < length (m_chunk_size P))%nat -> s <= chunk_size P e) /\
  (e = length (m_chunk_size P) <-> largest_class P < s) /\
  (forall sh, thread_step P sh (AllocEntry s) =
     (sh, if largest_class P <? s
          then Done (Abort REQUESTED_SIZE_TOO_LARGE)
          else AllocScan e 0 e)) /\
  (forall sh, largest_class P < s ->
     yields P sh (AllocEntry s) (Abort REQUESTED_SIZE_TOO_LARGE) sh) /\
  (forall fuel sh o sh', allocate P fuel sh s = Some (o, sh') ->
     (o = Abort REQUESTED_SIZE_TOO_LARGE <-> largest_class P < s)) /\
  (forall fuel sh sh',
     allocate P fuel sh (largest_class P) <>
     Some (Abort REQUESTED_SIZE_TOO_LARGE, sh')).
Proof.
  intros Hpe Hok Hs e. subst e.
  destruct (find_class_spec P s) as [Hbelow Hstop].
  pose proof (find_class_sentinel_iff P s Hok Hs) as Hiff.
  pose proof (find_class_le_length P s) as Hle.
  assert (Hentry : forall sh, thread_step P sh (AllocEntry s) =
     (sh, if largest_class P <? s
          then Done (Abort REQUESTED_SIZE_TOO_LARGE)
          else AllocScan (find_class P s) 0 (find_class P s))).
  { intros sh. rewrite alloc_entry_step by assumption. now rewrite Hpe. }
  assert (Hexact : forall t, 0 <= t -> forall fuel sh o sh',
     allocate P fuel sh t = Some (o, sh') ->
     (o = Abort REQUESTED_SIZE_TOO_LARGE <-> largest_class P < t)).
  { intros t Ht fuel sh o sh' Hrun. unfold allocate in Hrun.
    destruct fuel as [|fuel]; [discriminate|].
    pose proof (alloc_entry_step P sh t Hok Ht) as Hst. rewrite Hpe in Hst.
    simpl andb in Hst.
    rewrite (run_step P fuel sh (AllocEntry t) _ _ eq_refl Hst) in Hrun.
    destruct (largest_class P <? t) eqn:Hl.
    - rewrite run_done in Hrun. inversion Hrun; subst.
      apply Z.ltb_lt in Hl. tauto.
    - apply Z.ltb_ge in Hl. split; [|lia]. intros ->.
      exfalso. revert Hrun. now apply past_entry_run. }
  split; [exact Hbelow|].
  split.
  { intros Hlt. pose proof (chunk_size_pos P _ Hok Hlt). lia. }
  split.
  { split.
    - intros He. apply Hiff. apply chunk_size_sentinel. lia.
    - intros Hbig. apply Hiff in Hbig.
      apply chunk_size_zero_iff in Hbig; auto. lia. }
  split; [exact Hentry|].
  split.
  { intros sh Hbig. eapply yields_step; [reflexivity | apply Hentry |].
    apply Z.ltb_lt in Hbig. rewrite Hbig. apply yields_done. }
  split; [exact (Hexact s Hs)|].
  intros fuel sh sh' Hrun.
  pose proof (largest_class_nonneg P) as H0.
  apply (Hexact _ H0) in Hrun. destruct Hrun as [Hrun _].
  specialize (Hrun eq_refl). lia.
Qed.

Lemma allocate_selects_least_fitting_class_witness :
  KOKKOS_MEMPOOLLIST_PRINTERR pool_a = true /\
  table_ok pool_a /\
  0 <= 200 /\
  find_class pool_a 200 = 1%nat /\
  (forall fuel sh o sh', allocate pool_a fuel sh 200 = Some (o, sh') ->
     (o = Abort REQUESTED_SIZE_TOO_LARGE <-> largest_class pool_a < 200)).
Proof.
  assert (Hok : table_ok pool_a).
  { split; [discriminate|]. repeat constructor. }
  split; [reflexivity|]. split; [exact Hok|]. split; [lia|].
  split; [reflexivity|].
  apply (allocate_selects_least_fitting_class pool_a 200 eq_refl Hok
           ltac:(lia)).
Defined.

(** *** Composing step sequences *)

Lemma reaches_refl P sh c : reaches P sh c sh c.
Proof. now exists 0%nat. Qed.

Lemma reaches_trans P sh c sh1 c1 sh2 c2 :
  reaches P sh c sh1 c1 -> reaches P sh1 c1 sh2 c2 -> reaches P sh c sh2 c2.
Proof.
  intros [n Hn] [m Hm]. exists (n + m)%nat.
  rewrite steps_add, Hn. exact Hm.
Qed.

Lemma reaches_one P sh c sh1 c1 :
  thread_step P sh c = (sh1, c1) -> reaches P sh c sh1 c1.
Proof. intros H. exists 1%nat. simpl. now rewrite H. Qed.

Lemma reaches_yields P sh c sh1 c1 o sh' :
  reaches P sh c sh1 c1 -> yields P sh1 c1 o sh' -> yields P sh c o sh'.
Proof. intros [n Hn]. now apply steps_yields with (n := n). Qed.

(** *** The probe loop over empty lists, lines 147-152 and 200-213 *)

Section EmptyProbe.

Variable P : MemPoolList.
Variable sh : shared.
Variable l_exp : nat.
Hypothesis table : table_ok P.
Hypothesis nothing_free :
  forall l, (l_exp <= l < length (m_chunk_size P))%nat -> m_freelist sh l = 0.

(** The scan walks over the empty lists up to the sentinel. *)
Lemma scan_to_sentinel num_tries : forall d l,
  (l + d = length (m_chunk_size P))%nat -> (l_exp <= l)%nat ->
  reaches P sh (AllocScan l_exp num_tries l)
            sh (AllocScan l_exp num_tries (length (m_chunk_size P))).
Proof.
  induction d as [|d IH]; intros l Hd Hl.
  - replace l with (length (m_chunk_size P)) by lia. apply reaches_refl.
  - eapply reaches_trans; [apply reaches_one | apply (IH (S l)); lia].
    simpl. pose proof (chunk_size_pos P l table ltac:(lia)) as Hpos.
    destruct (0 <? chunk_size P l) eqn:H0; [|apply Z.ltb_ge in H0; lia].
    rewrite nothing_free by lia. reflexivity.
Qed.

(** At the sentinel the try is counted, or the call gives up. *)
Lemma sentinel_step num_tries :
  thread_step P sh (AllocScan l_exp num_tries (length (m_chunk_size P))) =
  (sh, if num_tries =? 100000 then Done (exhausted P)
       else AllocScan l_exp (num_tries + 1) l_exp).
Proof.
  simpl. rewrite chunk_size_sentinel by lia. simpl. unfold exhausted.
  destruct (num_tries =? 100000); [|reflexivity].
  destruct (KOKKOS_MEMPOOLLIST_PRINTERR P); reflexivity.
Qed.

Hypothesis class_in_table : (l_exp <= length (m_chunk_size P))%nat.

Lemma failed_probe num_tries :
  num_tries <> 100000 ->
  reaches P sh (AllocScan l_exp num_tries l_exp)
            sh (AllocScan l_exp (num_tries + 1) l_exp).
Proof.
  intros Hne.
  eapply reaches_trans;
    [apply (scan_to_sentinel num_tries (length (m_chunk_size P) - l_exp) l_exp);
     lia|].
  apply reaches_one. rewrite sentinel_step.
  apply Z.eqb_neq in Hne. now rewrite Hne.
Qed.

(** Every value of the counter up to the threshold is passed through. *)
Lemma counter_runs_up (n : nat) :
  Z.of_nat n <= 100000 ->
  reaches P sh (AllocScan l_exp 0 l_exp) sh (AllocScan l_exp (Z.of_nat n) l_exp).
Proof.
  induction n as [|n IH]; intros Hn.
  - apply reaches_refl.
  - eapply reaches_trans; [apply IH; lia|].
    replace (Z.of_nat (S n)) with (Z.of_nat n + 1) by lia.
    apply failed_probe. lia.
Qed.

Lemma last_probe :
  yields P sh (AllocScan l_exp 100000 l_exp) (exhausted P) sh.
Proof.
  eapply reaches_yields;
    [apply (scan_to_sentinel 100000 (length (m_chunk_size P) - l_exp) l_exp);
     lia|].
  eapply yields_step; [reflexivity | apply sentinel_step |].
  simpl. apply yields_done.
Qed.

Lemma probe_gives_up :
  yields P sh (AllocScan l_exp 0 l_exp) (exhausted P) sh.
Proof.
  eapply reaches_yields; [apply (counter_runs_up (Z.to_nat 100000)); lia|].
  rewrite Z2Nat.id by lia. apply last_probe.
Qed.

(** The scan, step by step: one step per empty list. *)
Lemma scan_steps num_tries : forall r,
  (l_exp + r <= length (m_chunk_size P))%nat ->
  steps P r sh (AllocScan l_exp num_tries l_exp) =
  (sh, AllocScan l_exp num_tries (l_exp + r)).
Proof.
  induction r as [|r IH]; intros Hr.
  - simpl. now rewrite Nat.add_0_r.
  - replace (S r) with (r + 1)%nat by lia. rewrite steps_add, IH by lia.
    rewrite steps_one. simpl.
    pose proof (chunk_size_pos P (l_exp + r) table ltac:(lia)) as Hpos.
    destruct (0 <? chunk_size P (l_exp + r)) eqn:H0;
      [|apply Z.ltb_ge in H0; lia].
    rewrite nothing_free by lia. simpl. f_equal. f_equal. lia.
Qed.

(** A whole-table probe takes one step per list from [l_exp] on and one
    at the sentinel.  After [q] failed probes and [r] steps of the next one
    the counter is [q]. *)
Lemma probe_position (q r : nat) :
  Z.of_nat q <= 100000 ->
  (r <= length (m_chunk_size P) - l_exp)%nat ->
  steps P (q * S (length (m_chunk_size P) - l_exp) + r) sh
        (AllocScan l_exp 0 l_exp) =
  (sh, AllocScan l_exp (Z.of_nat q) (l_exp + r)).
Proof.
  revert r. induction q as [|q IH]; intros r Hq Hr.
  - simpl. apply scan_steps. lia.
  - set (d := (length (m_chunk_size P) - l_exp)%nat) in *.
    replace (S q * S d + r)%nat with ((q * S d + d) + (1 + r))%nat by lia.
    rewrite steps_add, (IH d) by lia.
    rewrite steps_add, steps_one.
    replace (l_exp + d)%nat with (length (m_chunk_size P)) by lia.
    rewrite sentinel_step.
    assert (Hne : (Z.of_nat q =? 100000) = false) by (apply Z.eqb_neq; lia).
    rewrite Hne.
    replace (Z.of_nat q + 1) with (Z.of_nat (S q)) by lia.
    apply scan_steps. lia.
Qed.

(** The call gives up at the sentinel with the counter at 100000, that is
    with the last step of probe number 100001, and not before. *)
Lemma probe_ends :
  ends_after P sh (AllocScan l_exp 0 l_exp)
             (Z.to_nat 100001 * S (length (m_chunk_size P) - l_exp))
             (exhausted P) sh.
Proof.
  set (d := (length (m_chunk_size P) - l_exp)%nat). split.
  - replace (Z.to_nat 100001 * S d)%nat
      with ((Z.to_nat 100000 * S d + d) + 1)%nat by lia.
    rewrite steps_add. unfold d. rewrite probe_position by lia.
    rewrite steps_one.
    replace (l_exp + (length (m_chunk_size P) - l_exp))%nat
      with (length (m_chunk_size P)) by lia.
    rewrite sentinel_step. rewrite Z2Nat.id by lia. reflexivity.
  - intros m Hm.
    pose proof (Nat.div_mod_eq m (S d)) as Hdm.
    pose proof (Nat.mod_upper_bound m (S d) ltac:(lia)) as Hr.
    assert (Hq : (m / S d < Z.to_nat 100001)%nat).
    { apply Nat.Div0.div_lt_upper_bound. lia. }
    rewrite Hdm. rewrite (Nat.mul_comm (S d)). unfold d.
    rewrite probe_position by (fold d; lia). reflexivity.
Qed.

End EmptyProbe.

Lemma ends_after_step P sh c sh1 c1 n o sh' :
  final c = None -> thread_step P sh c = (sh1, c1) ->
  ends_after P sh1 c1 n o sh' -> ends_after P sh c (S n) o sh'.
Proof.
  intros Hf Hs [Hend Hbefore]. split.
  - simpl. now rewrite Hs.
  - intros [|m] Hm; [exact Hf|]. simpl. rewrite Hs. apply Hbefore. lia.
Qed.

(** ** C5: a request larger than every class *)

(** C5 as stated fails without [KOKKOS_MEMPOOLLIST_PRINTERR]: for the one
    class of 64 bytes, [allocate(65)] is still running after two steps, in
    the probe loop with the attempt counter at 1. *)
Lemma too_large_not_immediate_when_returning_failure :
  largest_class pool_quiet < 65 /\
  steps pool_quiet 1 mem_quiet (AllocEntry 65) = (mem_quiet, AllocScan 1 0 1) /\
  steps pool_quiet 2 mem_quiet (AllocEntry 65) = (mem_quiet, AllocScan 1 1 1) /\
  allocate pool_quiet 2 mem_quiet 65 = None.
Proof. repeat split. Qed.

(** C5, amended.  For a request larger than every class: in the aborting
    build the very first step of [allocate] aborts with
    [REQUESTED_SIZE_TOO_LARGE], memory untouched.  In the build that returns
    failure the test is compiled out: the call enters the probe loop at the
    sentinel, where each probe is a single step that reads no list; a
    counter below 100000 is incremented, a counter equal to 100000 makes the
    call return the null pointer; the call therefore returns with its step
    number 100002 (the entry and 100001 probes) and not before, and leaves
    memory as it was, whatever the lists hold. *)
Theorem too_large_request_by_policy (P : MemPoolList) (sh : shared) (s : Z) :
  table_ok P ->
  0 <= s ->
  largest_class P < s ->
  let e := find_class P s in
  (KOKKOS_MEMPOOLLIST_PRINTERR P = true ->
     thread_step P sh (AllocEntry s) =
     (sh, Done (Abort REQUESTED_SIZE_TOO_LARGE))) /\
  (KOKKOS_MEMPOOLLIST_PRINTERR P = false ->
     e = length (m_chunk_size P) /\
     thread_step P sh (AllocEntry s) = (sh, AllocScan e 0 e) /\
     (forall k, 0 <= k <= 100000 ->
        reaches P sh (AllocEntry s) sh (AllocScan e k e)) /\
     (forall k, k <> 100000 ->
        thread_step P sh (AllocScan e k e) = (sh, AllocScan e (k + 1) e)) /\
     thread_step P sh (AllocScan e 100000 e) = (sh, Done (Return (Ptr 0))) /\
     ends_after P sh (AllocEntry s) (Z.to_nat 100002) (Return (Ptr 0)) sh /\
     yields P sh (AllocEntry s) (Return (Ptr 0)) sh).
Proof.
  intros Hok Hs Hbig e. subst e.
  pose proof (alloc_entry_step P sh s Hok Hs) as Hentry.
  assert (Hlt : (largest_class P <? s) = true) by now apply Z.ltb_lt.
  rewrite Hlt in Hentry.
  split; intros Hpe; rewrite Hpe in Hentry; simpl in Hentry; [exact Hentry|].
  assert (He : find_class P s = length (m_chunk_size P)).
  { pose proof (find_class_le_length P s).
    apply (find_class_sentinel_iff P s Hok Hs) in Hbig.
    apply chunk_size_zero_iff in Hbig; auto. lia. }
  assert (Hnone : forall l,
    (find_class P s <= l < length (m_chunk_size P))%nat -> m_freelist sh l = 0).
  { intros l Hl. lia. }
  assert (Hquiet : exhausted P = Return (Ptr 0)).
  { unfold exhausted. now rewrite Hpe. }
  split; [exact He|]. split; [exact Hentry|].
  split; [|split; [|split; [|split]]].
  - intros k Hk. eapply reaches_trans; [apply reaches_one, Hentry|].
    rewrite <- (Z2Nat.id k) by lia.
    apply counter_runs_up; auto; lia.
  - intros k Hk. pose proof (sentinel_step P sh (find_class P s) k) as Hst.
    rewrite <- He in Hst. rewrite Hst.
    apply Z.eqb_neq in Hk. now rewrite Hk.
  - pose proof (sentinel_step P sh (find_class P s) 100000) as Hst.
    rewrite <- He in Hst. rewrite Hst. simpl. now rewrite Hquiet.
  - replace (Z.to_nat 100002)
      with (S (Z.to_nat 100001
               * S (length (m_chunk_size P) - find_class P s))) by lia.
    rewrite <- Hquiet.
    eapply ends_after_step; [reflexivity | exact Hentry |].
    apply probe_ends; auto. lia.
  - eapply yields_step; [reflexivity | exact Hentry |].
    pose proof (probe_gives_up P sh (find_class P s) Hok Hnone ltac:(lia)) as H.
    now rewrite Hquiet in H.
Qed.

Lemma too_large_request_by_policy_witness :
  table_ok pool_quiet /\ 0 <= 65 /\ largest_class pool_quiet < 65 /\
  ends_after pool_quiet mem_quiet (AllocEntry 65) (Z.to_nat 100002)
    (Return (Ptr 0)) mem_quiet /\
  yields pool_quiet mem_quiet (AllocEntry 65) (Return (Ptr 0)) mem_quiet.
Proof.
  assert (Hok : table_ok pool_quiet).
  { split; [discriminate|]. repeat constructor. }
  split; [exact Hok|]. split; [lia|]. split; [reflexivity|].
  pose proof (too_large_request_by_policy pool_quiet mem_quiet 65 Hok
                ltac:(lia) eq_refl) as H.
  cbv zeta in H. destruct H as [_ H].
  destruct (H eq_refl) as [_ [_ [_ [_ [_ [He Hy]]]]]].
  split; [exact He | exact Hy].
Defined.

(** *** Removing the head of a list, lines 150-190 *)

Lemma remove_head_steps P sh l_exp num_tries l :
  0 < chunk_size P l ->
  m_freelist sh l <> 0 ->
  m_freelist sh l <> KOKKOS_MEMPOOLLIST_LOCK ->
  steps P 5 sh (AllocScan l_exp num_tries l) =
  (set_freelist (set_freelist sh l KOKKOS_MEMPOOLLIST_LOCK) l
                (m_next sh (m_freelist sh l)),
   AllocClear l_exp l (m_freelist sh l)).
Proof.
  intros Hpos Hnz Hnl.
  apply Z.ltb_lt in Hpos. apply Z.eqb_neq in Hnz. apply Z.eqb_neq in Hnl.
  cbn [steps thread_step]. rewrite Hpos, Hnz.
  cbn [steps thread_step]. rewrite Hnz, Hnl. cbn [negb andb].
  cbn [steps thread_step]. rewrite Z.eqb_refl.
  cbn [steps thread_step]. rewrite freelist_set_same, Z.eqb_refl.
  reflexivity.
Qed.

(** The scan walks over empty lists up to the first list that is not. *)
Lemma scan_to_nonempty P sh l_exp num_tries l :
  table_ok P -> (l < length (m_chunk_size P))%nat ->
  (forall j, (l_exp <= j < l)%nat -> m_freelist sh j = 0) ->
  forall d i, (i + d = l)%nat -> (l_exp <= i)%nat ->
  reaches P sh (AllocScan l_exp num_tries i) sh (AllocScan l_exp num_tries l).
Proof.
  intros Hok Hl Hempty. induction d as [|d IH]; intros i Hd Hi.
  - replace i with l by lia. apply reaches_refl.
  - eapply reaches_trans; [apply reaches_one | apply (IH (S i)); lia].
    simpl. pose proof (chunk_size_pos P i Hok ltac:(lia)) as Hpos.
    destruct (0 <? chunk_size P i) eqn:H0; [|apply Z.ltb_ge in H0; lia].
    rewrite Hempty by lia. reflexivity.
Qed.

(** An exact fit: the head of the fitting class is removed and returned. *)
Lemma allocate_exact_fit P sh s :
  table_ok P -> 0 <= s -> s <= largest_class P ->
  m_freelist sh (find_class P s) <> 0 ->
  m_freelist sh (find_class P s) <> KOKKOS_MEMPOOLLIST_LOCK ->
  yields P sh (AllocEntry s)
         (Return (Ptr (m_freelist sh (find_class P s))))
         (pop sh (find_class P s)).
Proof.
  intros Hok Hs Hfit Hnz Hnl.
  pose proof (alloc_entry_step P sh s Hok Hs) as Hentry.
  assert (Hge : (largest_class P <? s) = false) by now apply Z.ltb_ge.
  rewrite Hge, andb_false_r in Hentry.
  assert (Hpos : 0 < chunk_size P (find_class P s)).
  { pose proof (find_class_sentinel_iff P s Hok Hs) as Hiff.
    pose proof (find_class_le_length P s) as Hle.
    apply chunk_size_pos; auto.
    destruct (Nat.eq_dec (find_class P s) (length (m_chunk_size P))) as [E|]; [|lia].
    assert (chunk_size P (find_class P s) = 0)
      by (apply chunk_size_sentinel; lia).
    apply Hiff in H. lia. }
  eapply yields_step; [reflexivity | exact Hentry |].
  eapply steps_yields; [apply remove_head_steps; assumption|].
  eapply yields_step; [reflexivity | | apply yields_done].
  simpl. rewrite Nat.ltb_irrefl, andb_false_r. reflexivity.
Qed.

(** *** Chains *)

Lemma chain_ext sh sh' cs : forall h,
  (forall a, In a cs -> m_next sh' a = m_next sh a) ->
  chain sh h cs -> chain sh' h cs.
Proof.
  induction cs as [|a rest IH]; intros h Hsame Hc; simpl in *; auto.
  destruct Hc as [Hh [Hnz [Hnl Hrest]]]. repeat split; auto.
  rewrite Hsame by auto. apply IH; auto.
Qed.

Lemma chain_pop sh l a rest :
  NoDup (a :: rest) ->
  chain sh (m_freelist sh l) (a :: rest) ->
  chain (pop sh l) (m_freelist (pop sh l) l) rest.
Proof.
  intros Hnd [Hh [Hnz [Hnl Hrest]]]. apply NoDup_cons_iff in Hnd as [Hnotin _].
  unfold pop. cbv zeta. rewrite Hh. simpl m_freelist. rewrite Nat.eqb_refl.
  apply chain_ext with (sh := sh); auto.
  intros b Hb. simpl. destruct (b =? a) eqn:E; auto.
  apply Z.eqb_eq in E. subst. contradiction.
Qed.

(** *** A pool of one class, emptied call by call *)



(** *** A locked list keeps [allocate] spinning *)

Lemma locked_list_spins P sh l_exp num_tries l :
  table_ok P -> (l_exp <= l < length (m_chunk_size P))%nat ->
  (forall j, (l_exp <= j < l)%nat -> m_freelist sh j = 0) ->
  m_freelist sh l = KOKKOS_MEMPOOLLIST_LOCK ->
  forall fuel, run P fuel sh (AllocScan l_exp num_tries l_exp) = None.
Proof.
  intros Hok Hl Hempty Hlock fuel.
  apply run_trapped with
    (D := fun c => (exists j, (l_exp <= j <= l)%nat /\
                             c = AllocScan l_exp num_tries j)
                   \/ c = AllocReadHead l_exp num_tries l).
  - intros c [[j [_ ->]] | ->]; reflexivity.
  - intros c [[j [Hj ->]] | ->].
    + pose proof (chunk_size_pos P j Hok ltac:(lia)) as Hpos.
      simpl. destruct (0 <? chunk_size P j) eqn:H0;
        [|apply Z.ltb_ge in H0; lia].
      destruct (Nat.eq_dec j l) as [->|Hne].
      * rewrite Hlock. simpl. eexists; split; [reflexivity|]. now right.
      * rewrite Hempty by lia. simpl. eexists; split; [reflexivity|].
        left. exists (S j). split; [lia|reflexivity].
    + simpl. rewrite Hlock. simpl.
      eexists; split; [reflexivity|]. left. exists l_exp. split; [lia|reflexivity].
  - left. exists l_exp. split; [lia|reflexivity].
Qed.

(** ** C4: exhaustion is bounded, lock contention is not counted *)



(** *** Properties of control states that every step keeps *)

Lemma run_keeps P (Q : pc -> Prop) :
  (forall sh c, Q c -> Q (snd (thread_step P sh c))) ->
  forall fuel sh c o sh', Q c -> run P fuel sh c = Some (o, sh') -> Q (Done o).
Proof.
  intros Hkeep. induction fuel as [|fuel IH]; intros sh c o sh' Hc Hrun.
  - destruct c; simpl in Hrun; try discriminate. inversion Hrun; subst. exact Hc.
  - destruct (final c) eqn:Hf.
    + destruct c; try discriminate. rewrite run_done in Hrun.
      inversion Hrun; subst. exact Hc.
    + pose proof (Hkeep sh c Hc) as Hnext.
      destruct (thread_step P sh c) as [sh1 c1] eqn:Hs.
      rewrite (run_step P fuel sh c sh1 c1 Hf Hs) in Hrun.
      exact (IH sh1 c1 o sh' Hnext Hrun).
Qed.

Lemma pc_ok_step P sh c : pc_ok c -> pc_ok (snd (thread_step P sh c)).
Proof.
  destruct c; simpl; intros H;
    repeat match goal with
           | |- context [if ?b then _ else _] => destruct b eqn:?
           end; simpl; auto;
    repeat match goal with
           | H : _ && _ = true |- _ => apply andb_prop in H; destruct H
           | H : negb _ = true |- _ => apply negb_true_iff in H
           | H : (_ =? _) = false |- _ => apply Z.eqb_neq in H
           end; try tauto; try discriminate.
Qed.

Lemma inserting_step P sh c : inserting c -> inserting (snd (thread_step P sh c)).
Proof.
  destruct c; simpl; try contradiction;
    try (destruct ret; try contradiction; intros _;
         repeat match goal with
                | |- context [if ?b then _ else _] => destruct b
                end; exact I).
  destruct o as [[|]|]; try contradiction. auto.
Qed.

(** *** [insert_list] on a list that is not locked, lines 100-122 *)

Lemma insert_list_steps P sh h t l r :
  m_freelist sh l <> KOKKOS_MEMPOOLLIST_LOCK ->
  steps P 3 sh (InsertRead h t l r) =
  (set_freelist (set_next sh t (m_freelist sh l)) l h, Done (Return r)).
Proof.
  intros Hnl. apply Z.eqb_neq in Hnl.
  cbn [steps thread_step]. rewrite Hnl. cbn [negb].
  cbn [steps thread_step]. simpl m_freelist. rewrite Z.eqb_refl.
  reflexivity.
Qed.

Lemma insert_list_yields P sh h t l r :
  m_freelist sh l <> KOKKOS_MEMPOOLLIST_LOCK ->
  yields P sh (InsertRead h t l r) (Return r)
         (set_freelist (set_next sh t (m_freelist sh l)) l h).
Proof.
  intros Hnl. eapply steps_yields; [now apply insert_list_steps|].
  apply yields_done.
Qed.

(** The first step of [deallocate], lines 269-299. *)
Lemma dealloc_entry_step P sh ptr size :
  table_ok P -> 0 <= size ->
  thread_step P sh (DeallocEntry ptr size) =
  (sh, if KOKKOS_MEMPOOLLIST_PRINTERR P && negb (in_arena P ptr size)
       then Done (Abort ADDRESS_OUT_OF_RANGE)
       else if KOKKOS_MEMPOOLLIST_PRINTERR P && (largest_class P <? size)
            then Done (Abort CHUNK_TOO_LARGE)
            else InsertRead ptr ptr (find_class P size) Void).
Proof.
  intros Hok Hs. simpl. unfold in_arena. rewrite negb_involutive.
  destruct (KOKKOS_MEMPOOLLIST_PRINTERR P); simpl; [|reflexivity].
  destruct ((ptr <? m_data P)
            || (wrap (m_data P + m_data_size P) <? wrap (ptr + size)));
    [reflexivity|].
  pose proof (find_class_sentinel_iff P size Hok Hs) as Hiff.
  destruct (chunk_size P (find_class P size) =? 0) eqn:H0;
    destruct (largest_class P <? size) eqn:Hl; try reflexivity.
  - apply Z.eqb_eq in H0. apply Z.ltb_ge in Hl. apply Hiff in H0. lia.
  - apply Z.eqb_neq in H0. apply Z.ltb_lt in Hl. apply Hiff in Hl. contradiction.
Qed.

(** ** C9: the tail's link is overwritten, whatever it held *)

(** C9.  [insert_list] writes the head it observed into the tail's link
    before its compare-and-swap, unconditionally.  On a list that is not
    locked it therefore ends with the list head equal to the chain head and
    the tail linked to the previous head, the other lists and links as they
    were, for every prior content of memory; in particular the outcome is
    the same after any value [v] has been stored in the tail's link.
    [deallocate] of a chunk whose first word the caller overwrote with any
    [v] puts the chunk at the head of its class, linked to the previous
    head. *)
Theorem insert_list_overwrites_tail_link
    (P : MemPoolList) (sh : shared) (lp_head lp_tail : Z) (list : nat) :
  m_freelist sh list <> KOKKOS_MEMPOOLLIST_LOCK ->
  (forall sh0 old_head ret,
     thread_step P sh0 (InsertLink lp_head lp_tail list old_head ret) =
     (set_next sh0 lp_tail old_head,
      InsertCAS lp_head lp_tail list old_head ret)) /\
  (forall v, exists sh',
     (forall fuel, (3 <= fuel)%nat ->
        insert_list P fuel (set_next sh lp_tail v) lp_head lp_tail list =
        Some (Return Void, sh')) /\
     m_freelist sh' list = lp_head /\
     m_next sh' lp_tail = m_freelist sh list /\
     (forall i, i <> list -> m_freelist sh' i = m_freelist sh i) /\
     (forall b, b <> lp_tail -> m_next sh' b = m_next sh b)) /\
  (forall ptr size v,
     table_ok P -> 0 <= size <= largest_class P ->
     in_arena P ptr size = true ->
     list = find_class P size ->
     exists sh',
       yields P (set_next sh ptr v) (DeallocEntry ptr size) (Return Void) sh' /\
       m_freelist sh' list = ptr /\
       m_next sh' ptr = m_freelist sh list /\
       (forall i, i <> list -> m_freelist sh' i = m_freelist sh i) /\
       (forall b, b <> ptr -> m_next sh' b = m_next sh b)).
Proof.
  intros Hnl. split; [reflexivity|]. split.
  - intros v.
    exists (set_freelist (set_next (set_next sh lp_tail v) lp_tail
                                   (m_freelist sh list)) list lp_head).
    split; [|split; [|split; [|split]]].
    + intros fuel Hfuel. unfold insert_list.
      apply (run_mono P 3); [|exact Hfuel].
      apply Z.eqb_neq in Hnl.
      simpl. rewrite Hnl. simpl. rewrite Z.eqb_refl. reflexivity.
    + apply freelist_set_same.
    + simpl. now rewrite Z.eqb_refl.
    + intros i Hi. now rewrite freelist_set_other.
    + intros b Hb. simpl. apply Z.eqb_neq in Hb. now rewrite Hb.
  - intros ptr size v Hok [Hs Hfit] Harena ->.
    exists (set_freelist (set_next (set_next sh ptr v) ptr
                            (m_freelist sh (find_class P size)))
                         (find_class P size) ptr).
    split; [|split; [|split; [|split]]].
    + eapply yields_step; [reflexivity | apply dealloc_entry_step; assumption |].
      rewrite Harena.
      assert (Hge : (largest_class P <? size) = false) by now apply Z.ltb_ge.
      rewrite Hge, !andb_false_r.
      now apply (insert_list_yields P (set_next sh ptr v)).
    + apply freelist_set_same.
    + simpl. now rewrite Z.eqb_refl.
    + intros i Hi. now rewrite freelist_set_other.
    + intros b Hb. simpl. apply Z.eqb_neq in Hb. now rewrite Hb.
Qed.

Lemma insert_list_overwrites_tail_link_witness :
  m_freelist mem_a 2 <> KOKKOS_MEMPOOLLIST_LOCK /\
  exists sh',
    yields pool_a (set_next mem_a 7168 999) (DeallocEntry 7168 1000)
           (Return Void) sh' /\
    m_freelist sh' 2%nat = 7168 /\
    m_next sh' 7168 = 4096.
Proof.
  assert (Hnl : m_freelist mem_a 2 <> KOKKOS_MEMPOOLLIST_LOCK) by discriminate.
  split; [exact Hnl|].
  destruct (proj2 (proj2
    (insert_list_overwrites_tail_link pool_a mem_a 7168 7168 2 Hnl))
    7168 1000 999) as [sh' [Hy [Hh [Hn _]]]].
  - split; [discriminate|]. repeat constructor.
  - split; discriminate.
  - reflexivity.
  - reflexivity.
  - exists sh'. repeat split; assumption.
Defined.

(** ** C6: what [deallocate] signals and what it pushes *)




(** ** C7: release, then allocate again *)

(** C7, on classes 64 and 96 with an arena that is a single 96-byte chunk,
    4096 .. 4191.  The first [allocate(64)] takes that chunk, returns 4096
    and, one piece fitting, still puts 4096 + 64 on the 64-byte list (the
    split of C2 and C10).  The next [allocate(64)] succeeds and returns
    4160, a chunk whose 64 bytes end at 4224, past the end of the arena.
    [deallocate(4160, 64)] fails the range test of line 274 and aborts with
    [ADDRESS_OUT_OF_RANGE]: the chunk that [allocate] returned is not taken
    back and no further [allocate(64)] returns it. *)
Theorem round_trip_fails_for_the_trailing_piece :
  find_class pool_c 64 = 0%nat /\
  chunk_size pool_c 1 / chunk_size pool_c 0 = 1 /\
  m_data pool_c + m_data_size pool_c = 4192 /\
  exists sh1 sh2,
    allocate pool_c 20 mem_c 64 = Some (Return (Ptr 4096), sh1) /\
    allocate pool_c 20 sh1 64 = Some (Return (Ptr 4160), sh2) /\
    in_arena pool_c 4160 64 = false /\
    thread_step pool_c sh2 (DeallocEntry 4160 64) =
    (sh2, Done (Abort ADDRESS_OUT_OF_RANGE)) /\
    deallocate pool_c 20 sh2 4160 64 =
    Some (Abort ADDRESS_OUT_OF_RANGE, sh2).
Proof.
  split; [reflexivity|]. split; [reflexivity|]. split; [reflexivity|].
  eexists. eexists.
  split; [vm_compute; reflexivity|].
  split; [vm_compute; reflexivity|].
  split; [reflexivity|]. split; reflexivity.
Qed.

(** Where the chunk that [allocate] returned passes the range test and the
    list of the fitting class is not locked, [deallocate(p, s)] returns and
    the next [allocate(s)] returns [p] again. *)
Lemma round_trip_inside_the_arena
    (P : MemPoolList) (sh sh1 : shared) (s p : Z) :
  table_ok P ->
  0 <= s <= largest_class P ->
  yields P sh (AllocEntry s) (Return (Ptr p)) sh1 ->
  p <> 0 ->
  in_arena P p s = true ->
  m_freelist sh1 (find_class P s) <> KOKKOS_MEMPOOLLIST_LOCK ->
  exists sh2 sh3,
    yields P sh1 (DeallocEntry p s) (Return Void) sh2 /\
    yields P sh2 (AllocEntry s) (Return (Ptr p)) sh3.
Proof.
  intros Hok [Hs Hfit] Halloc Hnz Harena Hnl.
  assert (Hpl : p <> KOKKOS_MEMPOOLLIST_LOCK).
  { destruct Halloc as [n Hn]. specialize (Hn n (le_n n)).
    apply (run_keeps P pc_ok (pc_ok_step P)) in Hn; [exact Hn | exact I]. }
  assert (Hge : (largest_class P <? s) = false) by now apply Z.ltb_ge.
  set (e := find_class P s) in *.
  set (sh2 := set_freelist (set_next sh1 p (m_freelist sh1 e)) e p).
  assert (Hhead : m_freelist sh2 e = p) by apply freelist_set_same.
  exists sh2, (pop sh2 e). split.
  - eapply yields_step; [reflexivity | apply dealloc_entry_step; assumption |].
    rewrite Harena, Hge, !andb_false_r. fold e.
    now apply insert_list_yields.
  - rewrite <- Hhead at 1. apply allocate_exact_fit; auto; fold e;
      rewrite Hhead; assumption.
Qed.


(** ** Interleavings: the lock protocol *)

(** *** What one step can do to the list heads *)

Lemma classic_holds k l : holds k l \/ ~ holds k l.
Proof.
  destruct k; simpl; try (right; tauto);
    destruct (Nat.eq_dec l0 l); auto.
Qed.

Ltac step_cases :=
  repeat match goal with
         | H : context [if ?b then _ else _] |- _ => destruct b eqn:?
         | H : (_, _) = (_, _) |- _ => inversion H; subst; clear H
         end.

(** A thread that comes to hold [l] found the head unlocked and locked it. *)
Lemma step_locks P sh k sh' k' l :
  thread_step P sh k = (sh', k') -> pc_ok k -> holds k' l -> ~ holds k l ->
  m_freelist sh l <> KOKKOS_MEMPOOLLIST_LOCK /\
  m_freelist sh' l = KOKKOS_MEMPOOLLIST_LOCK.
Proof.
  destruct k; simpl; intros Hs Hok Hh Hn; step_cases; simpl in Hh;
    try contradiction; subst; try (exfalso; apply Hn; reflexivity).
  match goal with H : (_ =? _) = true |- _ => apply Z.eqb_eq in H end.
  split; [|apply freelist_set_same]. destruct Hok. congruence.
Qed.

(** A thread that goes on holding [l] leaves the head as it is. *)
Lemma step_keeps_held P sh k sh' k' l :
  thread_step P sh k = (sh', k') -> holds k' l -> holds k l ->
  m_freelist sh' l = m_freelist sh l.
Proof.
  destruct k; simpl; intros Hs Hh Hk; step_cases; simpl in Hh;
    try contradiction; reflexivity.
Qed.

(** A locked head is left alone by every thread that does not hold it. *)
Lemma step_respects_lock P sh k sh' k' l :
  thread_step P sh k = (sh', k') -> pc_ok k -> ~ holds k l ->
  m_freelist sh l = KOKKOS_MEMPOOLLIST_LOCK ->
  m_freelist sh' l = KOKKOS_MEMPOOLLIST_LOCK.
Proof.
  destruct k; simpl; intros Hs Hok Hn Hl; step_cases; auto;
    try (destruct (Nat.eq_dec l0 l) as [->|Hne];
         [|rewrite freelist_set_other by congruence; assumption]);
    try (destruct (Nat.eq_dec list l) as [->|Hne];
         [|rewrite freelist_set_other by congruence; assumption]);
    try (exfalso; apply Hn; reflexivity);
    try (rewrite freelist_set_same; reflexivity);
    repeat match goal with
           | H : (_ =? _) = true |- _ => apply Z.eqb_eq in H
           end;
    simpl in Hok; exfalso; intuition congruence.
Qed.

(** The unlock error needs a head that lost the lock value. *)
Lemma step_unlock_error P sh k sh' :
  thread_step P sh k = (sh', Done (Abort UNLOCK_ERROR)) ->
  k = Done (Abort UNLOCK_ERROR) \/
  exists l, holds k l /\ m_freelist sh l <> KOKKOS_MEMPOOLLIST_LOCK.
Proof.
  destruct k; simpl; intros Hs; step_cases; try discriminate; auto.
  right. exists l. split; [reflexivity|].
  match goal with H : (_ =? _) = false |- _ => now apply Z.eqb_neq in H end.
Qed.

(** *** The invariant of the interleaved system *)

Lemma sys_inv_initial c : initial c -> sys_inv c.
Proof.
  intros Hi. split; [|split].
  - intros t k l Ht. rewrite Hi in Ht. discriminate.
  - intros t. rewrite Hi. discriminate.
  - intros t k Ht. rewrite Hi in Ht. discriminate.
Qed.

(** A thread whose new control state holds no list and carries tested
    values, the memory's list heads untouched: the invariant stays. *)
Lemma sys_inv_set_thr c t k :
  sys_inv c ->
  (forall l, match k with Some k' => ~ holds k' l | None => True end) ->
  match k with Some k' => pc_ok k' | None => True end ->
  k <> Some (Done (Abort UNLOCK_ERROR)) ->
  sys_inv (set_thr c t k).
Proof.
  intros [Hlock [Hue Hok]] Hnh Hpk Hne. split; [|split].
  - intros t1 k1 l Ht1 Hh. simpl in Ht1.
    destruct (Nat.eqb t1 t) eqn:E.
    + subst k. exfalso. exact (Hnh l Hh).
    + destruct (Hlock t1 k1 l Ht1 Hh) as [Hl Huniq]. split; [exact Hl|].
      intros t' k' Ht' Hh'. simpl in Ht'.
      destruct (Nat.eqb t' t) eqn:E'.
      * subst k. exfalso. exact (Hnh l Hh').
      * eapply Huniq; eauto.
  - intros t1. simpl. destruct (Nat.eqb t1 t); [exact Hne | apply Hue].
  - intros t1 k1. simpl. destruct (Nat.eqb t1 t).
    + intros ->. exact Hpk.
    + apply Hok.
Qed.

Lemma sys_inv_thread_step P c t k sh' k' :
  sys_inv c -> thr c t = Some k -> thread_step P (mem c) k = (sh', k') ->
  sys_inv {| mem := sh';
             thr := fun u => if Nat.eqb u t then Some k' else thr c u |}.
Proof.
  intros [Hlock [Hue Hok]] Ht Hs.
  pose proof (Hok t k Ht) as Hk.
  assert (Hother : forall u, u <> t ->
            (if Nat.eqb u t then Some k' else thr c u) = thr c u).
  { intros u Hu. apply Nat.eqb_neq in Hu. now rewrite Hu. }
  split; [|split].
  - intros t1 k1 l Ht1 Hh. simpl in Ht1 |- *.
    destruct (Nat.eq_dec t1 t) as [->|Hne1].
    + rewrite Nat.eqb_refl in Ht1. inversion Ht1; subst k1.
      destruct (classic_holds k l) as [Hkl|Hnkl].
      * destruct (Hlock t k l Ht Hkl) as [Hl Huniq]. split.
        -- rewrite (step_keeps_held P _ _ _ _ _ Hs Hh Hkl). exact Hl.
        -- intros t' k2 Ht' Hh'. destruct (Nat.eq_dec t' t) as [|Hne']; auto.
           rewrite Hother in Ht' by assumption. eapply Huniq; eauto.
      * destruct (step_locks P _ _ _ _ _ Hs Hk Hh Hnkl) as [Hfree Hnow].
        split; [exact Hnow|].
        intros t' k2 Ht' Hh'. destruct (Nat.eq_dec t' t) as [|Hne']; auto.
        rewrite Hother in Ht' by assumption.
        destruct (Hlock t' k2 l Ht' Hh') as [Hl _]. contradiction.
    + rewrite Hother in Ht1 by assumption.
      destruct (Hlock t1 k1 l Ht1 Hh) as [Hl Huniq].
      assert (Hnkl : ~ holds k l).
      { intros Hkl. apply Hne1. symmetry. eapply Huniq; eauto. }
      split.
      * exact (step_respects_lock P _ _ _ _ _ Hs Hk Hnkl Hl).
      * intros t' k2 Ht' Hh'. destruct (Nat.eq_dec t' t) as [->|Hne'].
        -- rewrite Nat.eqb_refl in Ht'. inversion Ht'; subst k2.
           destruct (step_locks P _ _ _ _ _ Hs Hk Hh' Hnkl) as [Hfree _].
           contradiction.
        -- rewrite Hother in Ht' by assumption. eapply Huniq; eauto.
  - intros t1. simpl. destruct (Nat.eq_dec t1 t) as [->|Hne1].
    + rewrite Nat.eqb_refl. intros Habs. inversion Habs; subst k'.
      destruct (step_unlock_error P _ _ _ Hs) as [-> | [l [Hkl Hnl]]].
      * exact (Hue t Ht).
      * destruct (Hlock t k l Ht Hkl) as [Hl _]. contradiction.
    + rewrite Hother by assumption. apply Hue.
  - intros t1 k1. simpl. destruct (Nat.eq_dec t1 t) as [->|Hne1].
    + rewrite Nat.eqb_refl. intros Heq. inversion Heq; subst k1.
      pose proof (pc_ok_step P (mem c) k Hk) as H. now rewrite Hs in H.
    + rewrite Hother by assumption. apply Hok.
Qed.

Lemma sys_inv_step P a c c' :
  sys_inv c -> sys_step P a c = Some c' -> sys_inv c'.
Proof.
  intros Hinv Hstep. destruct a as [t s | t ptr s | t | t | a v];
    simpl in Hstep.
  - destruct (thr c t); [discriminate|]. inversion Hstep; subst.
    apply sys_inv_set_thr; simpl; auto; discriminate.
  - destruct (thr c t); [discriminate|]. inversion Hstep; subst.
    apply sys_inv_set_thr; simpl; auto; discriminate.
  - destruct (thr c t) as [k|] eqn:Ht; [|discriminate].
    destruct (thread_step P (mem c) k) as [sh' k'] eqn:Hs.
    inversion Hstep; subst. eapply sys_inv_thread_step; eauto.
  - destruct (thr c t) as [[| | | | | | | | | | | |[r|m]]|]; try discriminate.
    inversion Hstep; subst.
    apply sys_inv_set_thr; simpl; auto; discriminate.
  - inversion Hstep; subst. destruct Hinv as [Hlock [Hue Hok]].
    split; [|split]; auto.
Qed.

Lemma sys_inv_run P acts : forall c c',
  sys_inv c -> sys_run P acts c = Some c' -> sys_inv c'.
Proof.
  induction acts as [|a rest IH]; intros c c' Hinv Hrun; simpl in Hrun.
  - inversion Hrun; subst. exact Hinv.
  - destruct (sys_step P a c) as [c1|] eqn:Hstep; [|discriminate].
    eapply IH; [eapply sys_inv_step; eauto | exact Hrun].
Qed.

Lemma reachable_inv P c : reachable P c -> sys_inv c.
Proof.
  intros [c0 [acts [Hi Hrun]]].
  eapply sys_inv_run; [apply sys_inv_initial, Hi | exact Hrun].
Qed.

(** ** C3: the unlocking compare-and-swap cannot fail *)



(** ** C8: a locked head is never the expected value of a compare-and-swap *)

(** C8.  An iteration of [insert_list] that reads the lock value from the
    head changes nothing, neither memory nor its own state: it reads the
    head again.  In every reachable configuration, the head that a thread of
    [insert_list] is about to write into the tail's link, or to expect in
    its compare-and-swap, is not the lock value, so that this
    compare-and-swap fails and publishes nothing while the head is locked;
    and the head that a thread of [allocate] expects in its locking
    compare-and-swap is neither null nor the lock value. *)
Theorem locked_head_is_never_expected (P : MemPoolList) :
  (forall sh lp_head lp_tail list ret,
     m_freelist sh list = KOKKOS_MEMPOOLLIST_LOCK ->
     thread_step P sh (InsertRead lp_head lp_tail list ret) =
     (sh, InsertRead lp_head lp_tail list ret)) /\
  (forall c, reachable P c -> forall t,
     (forall lp_head lp_tail list old_head ret,
        thr c t = Some (InsertLink lp_head lp_tail list old_head ret) ->
        old_head <> KOKKOS_MEMPOOLLIST_LOCK) /\
     (forall lp_head lp_tail list old_head ret,
        thr c t = Some (InsertCAS lp_head lp_tail list old_head ret) ->
        old_head <> KOKKOS_MEMPOOLLIST_LOCK /\
        (m_freelist (mem c) list = KOKKOS_MEMPOOLLIST_LOCK ->
         thread_step P (mem c) (InsertCAS lp_head lp_tail list old_head ret) =
         (mem c, InsertRead lp_head lp_tail list ret))) /\
     (forall l_exp num_tries l old_head,
        thr c t = Some (AllocLock l_exp num_tries l old_head) ->
        old_head <> 0 /\ old_head <> KOKKOS_MEMPOOLLIST_LOCK)).
Proof.
  split.
  - intros sh lp_head lp_tail list ret Hl. simpl. rewrite Hl. reflexivity.
  - intros c Hreach t. destruct (reachable_inv P c Hreach) as [_ [_ Hok]].
    split; [|split].
    + intros lp_head lp_tail list old_head ret Ht. exact (proj1 (Hok t _ Ht)).
    + intros lp_head lp_tail list old_head ret Ht.
      pose proof (proj1 (Hok t _ Ht)) as Hnl. split; [exact Hnl|].
      intros Hl. simpl. rewrite Hl.
      destruct (KOKKOS_MEMPOOLLIST_LOCK =? old_head) eqn:E; [|reflexivity].
      apply Z.eqb_eq in E. congruence.
    + intros l_exp num_tries l old_head Ht. exact (Hok t _ Ht).
Qed.

Lemma locked_head_is_never_expected_witness :
  (exists c,
     sys_run pool_a schedule_a init_a = Some c /\
     m_freelist (mem c) 2%nat = KOKKOS_MEMPOOLLIST_LOCK /\
     thr c 1%nat = Some (InsertRead 7168 7168 2 Void) /\
     thread_step pool_a (mem c) (InsertRead 7168 7168 2 Void) =
     (mem c, InsertRead 7168 7168 2 Void)) /\
  (exists c,
     sys_run pool_a schedule_b init_a = Some c /\
     thr c 1%nat = Some (InsertCAS 7168 7168 0 0 Void) /\
     0 <> KOKKOS_MEMPOOLLIST_LOCK).
Proof.
  pose proof (locked_head_is_never_expected pool_a) as [Hspin Hexp].
  split.
  - destruct (sys_run pool_a schedule_a init_a) as [c|] eqn:Hrun;
      [|vm_compute in Hrun; discriminate].
    assert (Hl : m_freelist (mem c) 2%nat = KOKKOS_MEMPOOLLIST_LOCK).
    { vm_compute in Hrun. inversion Hrun. reflexivity. }
    assert (Ht : thr c 1%nat = Some (InsertRead 7168 7168 2 Void)).
    { vm_compute in Hrun. inversion Hrun. reflexivity. }
    exists c. split; [reflexivity|]. split; [exact Hl|]. split; [exact Ht|].
    exact (Hspin (mem c) 7168 7168 2%nat Void Hl).
  - destruct (sys_run pool_a schedule_b init_a) as [c|] eqn:Hrun;
      [|vm_compute in Hrun; discriminate].
    assert (Hreach : reachable pool_a c).
    { exists init_a, schedule_b. split; [intros t; reflexivity | exact Hrun]. }
    assert (Ht : thr c 1%nat = Some (InsertCAS 7168 7168 0 0 Void)).
    { vm_compute in Hrun. inversion Hrun. reflexivity. }
    exists c. split; [reflexivity|]. split; [exact Ht|].
    destruct (Hexp c Hreach 1%nat) as [_ [Hcas _]].
    exact (proj1 (Hcas _ _ _ _ _ Ht)).
Defined.

(** ** Splitting a larger chunk, lines 230-248 *)

Section Split.

Variable P : MemPoolList.
Variable l_exp : nat.
Variables p n sz : Z.

Hypothesis sz_is : sz = chunk_size P l_exp.
Hypothesis sz_pos : 0 < sz.
Hypothesis p_pos : 0 < p.
Hypothesis fits : p + n * sz < modulus.

Lemma sub_chunk_in_range j : 0 <= j <= n -> 0 <= p + j * sz < modulus.
Proof. intros Hj. split; nia. Qed.

(** The linking loop: one write per sub-chunk from [i-1] to [n-2]. *)
Lemma split_loop : forall d i sh0,
  Z.to_nat (n - i) = d -> 2 <= i ->
  exists sh1,
    reaches P sh0 (AllocSplit l_exp p n i)
              sh1 (InsertRead (wrap (p + sz)) (wrap (p + (n - 1) * sz))
                              l_exp (Ptr p)) /\
    (forall l, m_freelist sh1 l = m_freelist sh0 l) /\
    (forall j, i <= j < n -> m_next sh1 (p + (j - 1) * sz) = p + j * sz) /\
    (forall b, (forall j, i <= j < n -> b <> p + (j - 1) * sz) ->
               m_next sh1 b = m_next sh0 b).
Proof.
  induction d as [|d IH]; intros i sh0 Hd Hi.
  - exists sh0. split; [|split; [|split]]; auto; try (intros; lia).
    apply reaches_one. simpl. rewrite <- sz_is.
    assert (Hge : (i <? n) = false) by (apply Z.ltb_ge; lia).
    now rewrite Hge.
  - assert (Hlt : i < n) by lia.
    destruct (IH (i + 1)
                (set_next sh0 (p + (i - 1) * sz) (p + i * sz))
                ltac:(lia) ltac:(lia))
      as [sh1 [Hreach [Hlists [Hlinks Hrest]]]].
    exists sh1. split; [|split; [|split]].
    + eapply reaches_trans; [apply reaches_one | exact Hreach].
      simpl. rewrite <- sz_is. apply Z.ltb_lt in Hlt. rewrite Hlt.
      rewrite (wrap_small (p + (i - 1) * sz))
        by (apply sub_chunk_in_range; lia).
      rewrite (wrap_small (p + i * sz)) by (apply sub_chunk_in_range; lia).
      reflexivity.
    + intros l. now rewrite Hlists.
    + intros j Hj. destruct (Z.eq_dec j i) as [->|Hne].
      * rewrite Hrest; [apply next_set_same|].
        intros j Hj'. nia.
      * apply Hlinks. lia.
    + intros b Hb. rewrite Hrest.
      * apply next_set_other. apply Hb. lia.
      * intros j Hj. apply Hb. lia.
Qed.

End Split.

(** A chain over consecutive sub-chunks. *)
Lemma chain_sub_chunks sh p sz : forall k j,
  (forall i, (j <= i < j + k)%nat ->
     p + Z.of_nat i * sz <> 0 /\
     p + Z.of_nat i * sz <> KOKKOS_MEMPOOLLIST_LOCK) ->
  (forall i, (j <= i < j + k)%nat -> (S i < j + k)%nat ->
     m_next sh (p + Z.of_nat i * sz) = p + Z.of_nat (S i) * sz) ->
  (0 < k)%nat ->
  m_next sh (p + Z.of_nat (j + k - 1) * sz) = 0 ->
  chain sh (p + Z.of_nat j * sz)
        (map (fun i => p + Z.of_nat i * sz) (seq j k)).
Proof.
  induction k as [|k IH]; intros j Hok Hlink Hk Hlast; [lia|].
  simpl. destruct (Hok j ltac:(lia)) as [Hnz Hnl].
  repeat split; auto.
  destruct k as [|k].
  - simpl. replace (j + 1 - 1)%nat with j in Hlast by lia. exact Hlast.
  - rewrite Hlink by lia. apply IH.
    + intros i Hi. apply Hok. lia.
    + intros i Hi Hi'. apply Hlink; lia.
    + lia.
    + replace (S j + S k - 1)%nat with (j + S (S k) - 1)%nat by lia.
      exact Hlast.
Qed.

(** The splitting allocation when at least two pieces fit: lists
    [l_exp .. l-1] are empty, list [l] starts with [p]. *)
Lemma allocate_splits P sh s l :
  table_ok P -> 0 <= s <= largest_class P ->
  let e := find_class P s in
  let p := m_freelist sh l in
  let sz := chunk_size P e in
  let n := chunk_size P l / sz in
  (e < l < length (m_chunk_size P))%nat ->
  (forall j, (e <= j < l)%nat -> m_freelist sh j = 0) ->
  0 < p -> p + chunk_size P l < modulus ->
  2 <= n ->
  exists sh',
    yields P sh (AllocEntry s) (Return (Ptr p)) sh' /\
    m_freelist sh' l = m_next sh p /\
    chain sh' (m_freelist sh' e) (sub_chunks p sz (Z.to_nat n)) /\
    length (sub_chunks p sz (Z.to_nat n)) = Z.to_nat (n - 1) /\
    (forall a, In a (sub_chunks p sz (Z.to_nat n)) ->
       p + sz <= a /\ a + sz <= p + n * sz) /\
    p + n * sz + chunk_size P l mod sz = p + chunk_size P l /\
    m_next sh' p = 0 /\
    (forall i, i <> e -> i <> l -> m_freelist sh' i = m_freelist sh i) /\
    (forall b, b <> p -> ~ In b (sub_chunks p sz (Z.to_nat n)) ->
       m_next sh' b = m_next sh b).
Proof.
  intros Hok [Hs Hfit] e p sz n Hl Hempty Hp Hend Hn.
  assert (Hsz : 0 < sz < modulus) by (apply chunk_size_pos; auto; lia).
  assert (Hcl : 0 < chunk_size P l < modulus) by (apply chunk_size_pos; auto; lia).
  assert (Hdiv : chunk_size P l = sz * n + chunk_size P l mod sz)
    by (apply Z.div_mod; lia).
  assert (Hmod : 0 <= chunk_size P l mod sz < sz) by (apply Z.mod_pos_bound; lia).
  assert (Hfits : p + n * sz < modulus) by nia.
  assert (Hpl : p <> KOKKOS_MEMPOOLLIST_LOCK).
  { unfold KOKKOS_MEMPOOLLIST_LOCK. lia. }
  (* entry, scan, removal *)
  pose proof (alloc_entry_step P sh s Hok Hs) as Hentry.
  assert (Hge : (largest_class P <? s) = false) by now apply Z.ltb_ge.
  rewrite Hge, andb_false_r in Hentry. fold e in Hentry.
  pose proof (scan_to_nonempty P sh e 0 l Hok ltac:(lia) Hempty (l - e) e
                ltac:(lia) ltac:(lia)) as Hscan.
  pose proof (remove_head_steps P sh e 0 l ltac:(lia) ltac:(fold p; lia) Hpl)
    as Hremove. fold p in Hremove.
  set (sh_a := set_freelist (set_freelist sh l KOKKOS_MEMPOOLLIST_LOCK) l
                            (m_next sh p)) in *.
  assert (Hclear : thread_step P sh_a (AllocClear e l p) =
                   (set_next sh_a p 0, AllocSplit e p n 2)).
  { simpl. assert (Hnz : (p =? 0) = false) by (apply Z.eqb_neq; lia).
    assert (Hlt : (e <? l)%nat = true) by (apply Nat.ltb_lt; lia).
    now rewrite Hnz, Hlt. }
  destruct (split_loop P e p n sz eq_refl ltac:(lia) Hp Hfits
              (Z.to_nat (n - 2)) 2 (set_next sh_a p 0) eq_refl ltac:(lia))
    as [sh_b [Hloop [Hlists [Hlinks Hrest]]]].
  rewrite (wrap_small (p + sz)) in Hloop by nia.
  rewrite (wrap_small (p + (n - 1) * sz)) in Hloop by nia.
  assert (Hhead_e : m_freelist sh_b e = 0).
  { rewrite Hlists. unfold sh_a. simpl.
    assert (E : Nat.eqb e l = false) by (apply Nat.eqb_neq; lia).
    rewrite E. apply Hempty. lia. }
  pose proof (insert_list_yields P sh_b (p + sz) (p + (n - 1) * sz) e (Ptr p)
                ltac:(rewrite Hhead_e; discriminate)) as Hins.
  rewrite Hhead_e in Hins.
  set (sh' := set_freelist (set_next sh_b (p + (n - 1) * sz) 0) e (p + sz))
    in *.
  assert (Hnext' : forall b, b <> p + (n - 1) * sz ->
            m_next sh' b = m_next sh_b b).
  { intros b Hb. unfold sh'. simpl. apply Z.eqb_neq in Hb. now rewrite Hb. }
  assert (Hin : forall a, In a (sub_chunks p sz (Z.to_nat n)) ->
            exists i, 1 <= i <= n - 1 /\ a = p + i * sz).
  { intros a Ha. unfold sub_chunks in Ha. apply in_map_iff in Ha.
    destruct Ha as [i [<- Hi]]. apply in_seq in Hi.
    exists (Z.of_nat i). split; [lia | reflexivity]. }
  exists sh'. split; [|split; [|split; [|split; [|split; [|split; [|split; [|split]]]]]]].
  - eapply yields_step; [reflexivity | exact Hentry |].
    eapply reaches_yields; [exact Hscan|].
    eapply steps_yields; [exact Hremove|].
    eapply yields_step; [reflexivity | exact Hclear |].
    eapply reaches_yields; [exact Hloop | exact Hins].
  - unfold sh'. rewrite freelist_set_other by lia. simpl m_freelist.
    rewrite Hlists. unfold sh_a. simpl. now rewrite Nat.eqb_refl.
  - unfold sh' at 2. rewrite freelist_set_same. unfold sub_chunks.
    replace (p + sz) with (p + Z.of_nat 1 * sz) by lia.
    apply chain_sub_chunks.
    + intros i Hi. unfold KOKKOS_MEMPOOLLIST_LOCK. split; nia.
    + intros i Hi Hi'. rewrite Hnext' by nia.
      replace (p + Z.of_nat i * sz) with (p + (Z.of_nat (S i) - 1) * sz) by lia.
      apply Hlinks. lia.
    + lia.
    + replace (Z.of_nat (1 + (Z.to_nat n - 1) - 1)) with (n - 1) by lia.
      unfold sh'. simpl. now rewrite Z.eqb_refl.
  - unfold sub_chunks. rewrite length_map, length_seq. lia.
  - intros a Ha. destruct (Hin a Ha) as [i [Hi ->]]. split; nia.
  - lia.
  - rewrite Hnext' by nia. rewrite Hrest by (intros j Hj; nia).
    apply next_set_same.
  - intros i Hie Hil. unfold sh'. rewrite freelist_set_other by assumption.
    simpl m_freelist. rewrite Hlists. unfold sh_a. simpl.
    apply Nat.eqb_neq in Hil. now rewrite Hil.
  - intros b Hbp Hnin.
    assert (Hb : forall i, 1 <= i <= n - 1 -> b <> p + i * sz).
    { intros i Hi ->. apply Hnin. unfold sub_chunks. apply in_map_iff.
      exists (Z.to_nat i). split; [f_equal; lia|]. apply in_seq. lia. }
    rewrite Hnext' by (apply Hb; lia).
    rewrite Hrest.
    + rewrite next_set_other by assumption. reflexivity.
    + intros j Hj. apply Hb. lia.
Qed.

(** ** C2 and C10: a split with a single piece *)

(** C2, on classes 64 and 96 (one piece of 64 bytes fits a 96-byte chunk,
    so no sub-chunk should be inserted).  [allocate(64)] removes the chunk
    at 4096 from the 96-byte list and returns it, yet the 64-byte list,
    empty before, now starts with 4096 + 64: [insert_list] was given the
    head [p + size(e)] and the tail [p], the returned chunk itself.  The
    link of the inserted address was never written and still holds what
    memory held (7777).  For two pieces or more the split is as specified,
    see [allocate_splits]. *)
Theorem split_into_one_piece_still_inserts :
  chunk_size pool_b 1 / chunk_size pool_b 0 = 1 /\
  find_class pool_b 64 = 0%nat /\
  m_freelist mem_b 0 = 0 /\
  snd (steps pool_b 9 mem_b (AllocEntry 64)) =
  InsertRead (4096 + 64) 4096 0 (Ptr 4096) /\
  observe (allocate pool_b 20 mem_b 64) [0; 1]%nat [4096; 4096 + 64] =
  Some (Return (Ptr 4096), [4096 + 64; 4192], [0; 7777]).
Proof. repeat split. Qed.

(** C10, on the same pool.  The removed chunk occupies 4096 .. 4191 and its
    trailing [96 mod 64 = 32] bytes are 4160 .. 4191.  After [allocate(64)]
    the 64-byte list starts with 4160, a chunk that covers 4160 .. 4223:
    the trailing bytes are on a free list, together with the first 32 bytes
    of the neighbouring free chunk at 4192.  The next [allocate(64)] returns
    4160 and hands them to a caller. *)
Theorem trailing_bytes_come_back_when_one_piece_fits :
  chunk_size pool_b 1 mod chunk_size pool_b 0 = 32 /\
  observe (allocate pool_b 20 mem_b 64) [0]%nat [] =
  Some (Return (Ptr 4096), [4096 + 64], []) /\
  4096 + 64 + chunk_size pool_b 0 > 4096 + chunk_size pool_b 1 /\
  option_map fst (allocate_n pool_b 20 2 mem_b 64) =
  Some [Return (Ptr 4096); Return (Ptr (4096 + 64))] /\
  m_freelist mem_b 1 = 4096 /\ m_next mem_b 4096 = 4192.
Proof. repeat split. Qed.

(** * Further properties of the three functions *)

(** ** The size-class lookup, lines 134-135 and 286-287 *)

(** X1.  The lookup is monotone: a larger request never maps to a class of
    smaller index, whatever the table holds. *)
Theorem find_class_monotone (P : MemPoolList) (s s' : Z) :
  s <= s' -> (find_class P s <= find_class P s')%nat.
Proof.
  intros Hle.
  destruct (find_class_spec P s) as [Hbelow _].
  destruct (find_class_spec P s') as [_ Hstop'].
  destruct (le_lt_dec (find_class P s) (find_class P s')) as [|Hlt]; auto.
  specialize (Hbelow _ Hlt). exfalso. apply Hstop'. lia.
Qed.

Lemma find_class_monotone_witness :
  64 <= 65 /\ find_class pool_a 64 = 0%nat /\ find_class pool_a 65 = 1%nat /\
  (find_class pool_a 64 <= find_class pool_a 65)%nat.
Proof.
  split; [lia|]. split; [reflexivity|]. split; [reflexivity|].
  apply (find_class_monotone pool_a 64 65). lia.
Defined.

(** X2.  In a table of increasing sizes, every request above the size of
    class [l - 1] and up to the size of class [l] maps to class [l]; in
    particular the size of a class maps to that class, so that [deallocate]
    called with any size of that range finds the list [allocate] used. *)
Theorem find_class_of_range (P : MemPoolList) (l : nat) (s : Z) :
  table_ok P ->
  increasing P ->
  (l < length (m_chunk_size P))%nat ->
  (l = 0%nat \/ chunk_size P (l - 1) < s) ->
  0 <= s <= chunk_size P l ->
  find_class P s = l /\ find_class P (chunk_size P l) = l.
Proof.
  intros Hok Hinc Hl Hprev Hs.
  assert (Hgen : forall t, (l = 0%nat \/ chunk_size P (l - 1) < t) ->
            t <= chunk_size P l -> find_class P t = l).
  { intros t Hp Ht.
    destruct (find_class_spec P t) as [Hbelow Hstop].
    destruct (lt_eq_lt_dec (find_class P t) l) as [[Hlt|Heq]|Hgt]; auto.
    - exfalso. apply Hstop.
      pose proof (chunk_size_pos P (find_class P t) Hok ltac:(lia)) as Hpos.
      split; [lia|]. destruct Hp as [->|Hp]; [lia|].
      destruct (Nat.eq_dec (find_class P t) (l - 1)) as [->|Hne]; [lia|].
      pose proof (Hinc (find_class P t) (l - 1)%nat ltac:(lia)). lia.
    - specialize (Hbelow l Hgt). lia. }
  split.
  - apply Hgen; [exact Hprev | lia].
  - apply Hgen; [|lia].
    destruct l as [|l]; [now left|right].
    replace (S l - 1)%nat with l by lia. apply Hinc. lia.
Qed.

Lemma find_class_of_range_witness :
  table_ok pool_a /\ increasing pool_a /\
  find_class pool_a 65 = 1%nat /\ find_class pool_a 256 = 1%nat.
Proof.
  assert (Hok : table_ok pool_a).
  { split; [discriminate|]. repeat constructor. }
  assert (Hinc : increasing pool_a).
  { intros i j Hij. simpl in Hij.
    destruct i as [|[|[|i]]]; destruct j as [|[|[|j]]]; try lia; reflexivity. }
  split; [exact Hok|]. split; [exact Hinc|].
  apply (find_class_of_range pool_a 1 65 Hok Hinc).
  - simpl. lia.
  - right. reflexivity.
  - split; discriminate.
Defined.

(** ** Allocation from one list and from a split chunk *)

Lemma pop_freelist_other sh l i :
  i <> l -> m_freelist (pop sh l) i = m_freelist sh i.
Proof.
  intros Hi. unfold pop. simpl. apply Nat.eqb_neq in Hi. now rewrite Hi.
Qed.

Lemma pop_next_other sh l b :
  b <> m_freelist sh l -> m_next (pop sh l) b = m_next sh b.
Proof.
  intros Hb. unfold pop. simpl. apply Z.eqb_neq in Hb. now rewrite Hb.
Qed.


Lemma serves_nil P sh s : serves P sh s [] sh.
Proof. exists 0%nat. reflexivity. Qed.

Lemma serves_cons P sh s o sh1 os sh2 :
  yields P sh (AllocEntry s) o sh1 -> serves P sh1 s os sh2 ->
  serves P sh s (o :: os) sh2.
Proof.
  intros [n1 H1] [n2 H2]. exists (n1 + n2)%nat. intros fuel Hfuel. simpl.
  unfold allocate. rewrite H1 by lia. rewrite H2 by lia. reflexivity.
Qed.


Lemma NoDup_map_injective (A B : Type) (f : A -> B) (xs : list A) :
  (forall x y, f x = f y -> x = y) -> NoDup xs -> NoDup (map f xs).
Proof.
  intros Hinj. induction 1 as [|x xs Hnotin _ IH]; simpl; constructor; auto.
  intros Hin. apply in_map_iff in Hin. destruct Hin as [y [Hxy Hy]].
  apply Hinj in Hxy. subst. contradiction.
Qed.

Lemma NoDup_sub_chunks p sz n : sz <> 0 -> NoDup (sub_chunks p sz n).
Proof.
  intros Hsz. unfold sub_chunks. apply NoDup_map_injective.
  - intros i j Hij. nia.
  - apply seq_NoDup.
Qed.

Lemma class_holds_link P l :
  holds_link P -> (l < length (m_chunk_size P))%nat ->
  link_size <= chunk_size P l.
Proof.
  intros Hall Hl. unfold holds_link in Hall. rewrite Forall_forall in Hall.
  apply Hall. now apply chunk_size_in.
Qed.

(** The pieces of a chunk, the first one and the sub-chunks, start at
    multiples of the piece size. *)
Lemma piece_offset p sz n a :
  In a (p :: sub_chunks p sz n) ->
  exists j, 0 <= j <= Z.of_nat (n - 1) /\ a = p + j * sz.
Proof.
  intros [<-|Ha].
  - exists 0. split; lia.
  - unfold sub_chunks in Ha. apply in_map_iff in Ha.
    destruct Ha as [j [<- Hj]]. apply in_seq in Hj.
    exists (Z.of_nat j). split; [lia | reflexivity].
Qed.

(** When a piece is large enough for a link, the links of the pieces lie
    in the chunk and share no byte. *)
Lemma pieces_apart p sz n :
  link_size <= sz -> 1 <= n ->
  (forall a, In a (p :: sub_chunks p sz (Z.to_nat n)) ->
     p <= a /\ a + link_size <= p + n * sz) /\
  (forall a b, In a (p :: sub_chunks p sz (Z.to_nat n)) ->
     In b (p :: sub_chunks p sz (Z.to_nat n)) -> a <> b -> apart a b).
Proof.
  intros Hsz Hn. unfold link_size in Hsz. split.
  - intros a Ha. destruct (piece_offset _ _ _ _ Ha) as [j [Hj ->]].
    unfold link_size. nia.
  - intros a b Ha Hb Hne.
    destruct (piece_offset _ _ _ _ Ha) as [i [Hi ->]].
    destruct (piece_offset _ _ _ _ Hb) as [j [Hj ->]].
    unfold apart, link_size.
    assert (i <> j) by (intros ->; now apply Hne). nia.
Qed.



(** ** Putting chunks on a list *)

Lemma chain_head_not_locked sh h cs :
  chain sh h cs -> h <> KOKKOS_MEMPOOLLIST_LOCK.
Proof.
  destruct cs as [|a rest]; simpl.
  - intros ->. discriminate.
  - intros [-> [_ [H _]]]. exact H.
Qed.

Lemma segment_last sh : forall nodes h t, segment sh h nodes t -> In t nodes.
Proof.
  induction nodes as [|a rest IH]; intros h t Hs; simpl in Hs; [contradiction|].
  destruct Hs as [_ [_ [_ Hrest]]]. destruct rest as [|b rest].
  - left. exact Hrest.
  - right. eapply IH. exact Hrest.
Qed.




(** ** [deallocate] followed by [allocate] *)

Lemma dealloc_push P sh p s :
  table_ok P -> 0 <= s <= largest_class P ->
  in_arena P p s = true ->
  m_freelist sh (find_class P s) <> KOKKOS_MEMPOOLLIST_LOCK ->
  yields P sh (DeallocEntry p s) (Return Void) (push sh (find_class P s) p).
Proof.
  intros Hok [Hs Hfit] Harena Hnl.
  eapply yields_step; [reflexivity | apply dealloc_entry_step; assumption |].
  assert (Hge : (largest_class P <? s) = false) by now apply Z.ltb_ge.
  rewrite Harena, Hge, !andb_false_r.
  now apply insert_list_yields.
Qed.

Lemma chain_push sh l p cs :
  chain sh (m_freelist sh l) cs -> ~ In p cs ->
  p <> 0 -> p <> KOKKOS_MEMPOOLLIST_LOCK ->
  chain (push sh l p) (m_freelist (push sh l p) l) (p :: cs).
Proof.
  intros Hch Hnotin Hnz Hnl. unfold push. rewrite freelist_set_same.
  simpl. rewrite Z.eqb_refl. repeat split; auto.
  apply chain_ext with (sh := sh); auto.
  intros c Hc. simpl. destruct (c =? p) eqn:E; auto.
  apply Z.eqb_eq in E. subst. contradiction.
Qed.








(** X9.  A double release is not detected: when [p] is already the head of
    the list of its class, [deallocate(p, s)] links [p] to itself; the next
    two calls of [allocate(s)] both return [p], and after them the list is
    empty, whatever followed [p] on it before. *)
Theorem double_release_hands_out_a_chunk_twice
    (P : MemPoolList) (sh : shared) (p s : Z) :
  table_ok P -> 0 <= s <= largest_class P ->
  m_freelist sh (find_class P s) = p ->
  p <> 0 -> p <> KOKKOS_MEMPOOLLIST_LOCK ->
  in_arena P p s = true ->
  exists sh1 sh3,
    yields P sh (DeallocEntry p s) (Return Void) sh1 /\
    m_freelist sh1 (find_class P s) = p /\ m_next sh1 p = p /\
    serves P sh1 s [Return (Ptr p); Return (Ptr p)] sh3 /\
    m_freelist sh3 (find_class P s) = 0.
Proof.
  intros Hok Hs Hhead Hnz Hnl Harena.
  set (e := find_class P s) in *.
  set (sh1 := push sh e p).
  assert (H1 : m_freelist sh1 e = p) by (unfold sh1, push; apply freelist_set_same).
  assert (N1 : m_next sh1 p = p).
  { unfold sh1, push. simpl. now rewrite Z.eqb_refl. }
  set (sh2 := pop sh1 e).
  assert (H2 : m_freelist sh2 e = p).
  { unfold sh2, pop. rewrite H1. simpl. now rewrite Nat.eqb_refl. }
  assert (N2 : m_next sh2 p = 0).
  { unfold sh2, pop. rewrite H1. simpl. now rewrite Z.eqb_refl. }
  exists sh1, (pop sh2 e).
  split; [apply dealloc_push; auto; fold e; rewrite Hhead; exact Hnl|].
  split; [exact H1|]. split; [exact N1|]. split.
  - apply serves_cons with (sh1 := sh2).
    + pose proof (allocate_exact_fit P sh1 s Hok (proj1 Hs) (proj2 Hs)) as H.
      fold e in H. rewrite H1 in H. apply H; assumption.
    + apply serves_cons with (sh1 := pop sh2 e); [|apply serves_nil].
      pose proof (allocate_exact_fit P sh2 s Hok (proj1 Hs) (proj2 Hs)) as H.
      fold e in H. rewrite H2 in H. apply H; assumption.
  - unfold pop at 1. rewrite H2. simpl. rewrite Nat.eqb_refl.
    now rewrite Z.eqb_refl.
Qed.

Lemma double_release_hands_out_a_chunk_twice_witness :
  exists sh1 sh3,
    yields pool_a mem_a (DeallocEntry 4096 1024) (Return Void) sh1 /\
    serves pool_a sh1 1024 [Return (Ptr 4096); Return (Ptr 4096)] sh3 /\
    m_freelist sh3 2%nat = 0 /\ m_next mem_a 4096 = 5120.
Proof.
  destruct (double_release_hands_out_a_chunk_twice pool_a mem_a 4096 1024)
    as [sh1 [sh3 [Hd [_ [_ [Hs He]]]]]].
  - split; [discriminate|]. repeat constructor.
  - split; discriminate.
  - reflexivity.
  - discriminate.
  - discriminate.
  - reflexivity.
  - exists sh1, sh3. split; [exact Hd|]. split; [exact Hs|].
    split; [exact He | reflexivity].
Defined.

(** ** What a call leaves alone *)

Lemma run_keeps_mem P (Q : shared -> pc -> Prop) :
  (forall sh c, Q sh c ->
     Q (fst (thread_step P sh c)) (snd (thread_step P sh c))) ->
  forall fuel sh c o sh',
  Q sh c -> run P fuel sh c = Some (o, sh') -> Q sh' (Done o).
Proof.
  intros Hkeep. induction fuel as [|fuel IH]; intros sh c o sh' Hc Hrun.
  - destruct c; simpl in Hrun; try discriminate. inversion Hrun; subst. exact Hc.
  - destruct (final c) eqn:Hf.
    + destruct c; try discriminate. rewrite run_done in Hrun.
      inversion Hrun; subst. exact Hc.
    + pose proof (Hkeep sh c Hc) as Hnext.
      destruct (thread_step P sh c) as [sh1 c1] eqn:Hs.
      rewrite (run_step P fuel sh c sh1 c1 Hf Hs) in Hrun.
      exact (IH sh1 c1 o sh' Hnext Hrun).
Qed.

Lemma above_class_step P s sh0 sh c :
  above_class P s sh0 sh c ->
  above_class P s sh0 (fst (thread_step P sh c)) (snd (thread_step P sh c)).
Proof.
  intros [Hlow Hc].
  destruct c; simpl in Hc |- *; try contradiction;
    repeat match goal with
           | |- context [if ?b then _ else _] => destruct b eqn:?
           end;
    simpl; (split; [|try exact I; try tauto; try (subst; split; lia)]);
    try exact Hlow;
    try (intros i Hi; simpl;
         match goal with
         | |- context [Nat.eqb i ?l] =>
             assert (E : Nat.eqb i l = false) by (apply Nat.eqb_neq; lia);
             rewrite E
         end; auto).
  all: try (subst; split; [reflexivity | lia]).
  all: try (subst; reflexivity).
  all: try (destruct Hc; subst; auto).
Qed.

(** ** The outcome of a sequential [allocate] *)

Lemma free_scan_spec P sh fuel : forall l,
  (length (m_chunk_size P) <= l + fuel)%nat ->
  let r := free_scan P sh fuel l in
  (l <= r)%nat /\
  (forall j, (l <= j < r)%nat -> 0 < chunk_size P j /\ m_freelist sh j = 0) /\
  ~ (0 < chunk_size P r /\ m_freelist sh r = 0).
Proof.
  induction fuel as [|fuel IH]; intros l Hlen; simpl.
  - repeat split; try lia. rewrite chunk_size_sentinel by lia. lia.
  - destruct (0 <? chunk_size P l) eqn:Hpos; simpl.
    + destruct (m_freelist sh l =? 0) eqn:H0.
      * destruct (IH (S l)) as [Hle [Hbelow Hstop]]; [lia|].
        apply Z.ltb_lt in Hpos. apply Z.eqb_eq in H0.
        split; [lia|]. split; [|exact Hstop].
        intros j Hj. destruct (Nat.eq_dec j l) as [->|Hne]; [tauto|].
        apply Hbelow. lia.
      * apply Z.eqb_neq in H0. split; [lia|]. split; [intros; lia | tauto].
    + apply Z.ltb_ge in Hpos. split; [lia|]. split; [intros; lia | lia].
Qed.

Lemma first_candidate_spec P sh e :
  table_ok P -> (e <= length (m_chunk_size P))%nat ->
  let l := first_candidate P sh e in
  (e <= l <= length (m_chunk_size P))%nat /\
  (forall j, (e <= j < l)%nat -> m_freelist sh j = 0) /\
  (chunk_size P l = 0 -> l = length (m_chunk_size P)) /\
  (0 < chunk_size P l ->
     (l < length (m_chunk_size P))%nat /\ m_freelist sh l <> 0).
Proof.
  intros Hok He l.
  destruct (free_scan_spec P sh (length (m_chunk_size P) - e) e)
    as [Hle [Hbelow Hstop]]; [lia|].
  fold (first_candidate P sh e) in Hle, Hbelow, Hstop. fold l in Hle, Hbelow, Hstop.
  assert (Hlen : (l <= length (m_chunk_size P))%nat).
  { destruct (le_lt_dec l (length (m_chunk_size P))); auto.
    destruct (Hbelow (length (m_chunk_size P)) ltac:(lia)) as [Hpos _].
    rewrite chunk_size_sentinel in Hpos by lia. lia. }
  split; [lia|]. split; [intros j Hj; now apply Hbelow|]. split.
  - intros H0. apply chunk_size_zero_iff in H0; auto. lia.
  - intros Hpos. split.
    + destruct (le_lt_dec (length (m_chunk_size P)) l); auto.
      rewrite chunk_size_sentinel in Hpos by lia. lia.
    + intros H0. apply Hstop. tauto.
Qed.

(** The linking loop ends, whatever the number of pieces, and writes no
    list head. *)
Lemma split_terminates P l_exp p n : forall d i sh0,
  Z.to_nat (n - i) = d ->
  exists sh1,
    reaches P sh0 (AllocSplit l_exp p n i)
              sh1 (InsertRead (wrap (p + chunk_size P l_exp))
                              (wrap (p + (n - 1) * chunk_size P l_exp))
                              l_exp (Ptr p)) /\
    (forall l, m_freelist sh1 l = m_freelist sh0 l).
Proof.
  induction d as [|d IH]; intros i sh0 Hd.
  - exists sh0. split; [|reflexivity]. apply reaches_one. simpl.
    assert (Hge : (i <? n) = false) by (apply Z.ltb_ge; lia).
    now rewrite Hge.
  - assert (Hlt : (i <? n) = true) by (apply Z.ltb_lt; lia).
    destruct (IH (i + 1)
                (set_next sh0 (wrap (p + (i - 1) * chunk_size P l_exp))
                              (wrap (p + i * chunk_size P l_exp)))
                ltac:(lia)) as [sh1 [Hreach Hlists]].
    exists sh1. split; [|intros l; now rewrite Hlists].
    eapply reaches_trans; [apply reaches_one | exact Hreach].
    simpl. now rewrite Hlt.
Qed.

(** From the scan on, when the first list that is not empty is unlocked. *)
Lemma first_fit_returns_head P sh e l :
  table_ok P -> (e <= l < length (m_chunk_size P))%nat ->
  (forall j, (e <= j < l)%nat -> m_freelist sh j = 0) ->
  m_freelist sh l <> 0 -> m_freelist sh l <> KOKKOS_MEMPOOLLIST_LOCK ->
  exists sh',
    yields P sh (AllocScan e 0 e) (Return (Ptr (m_freelist sh l))) sh'.
Proof.
  intros Hok Hl Hempty Hnz Hnl.
  pose proof (chunk_size_pos P l Hok ltac:(lia)) as Hpos.
  pose proof (scan_to_nonempty P sh e 0 l Hok ltac:(lia) Hempty (l - e) e
                ltac:(lia) ltac:(lia)) as Hscan.
  pose proof (remove_head_steps P sh e 0 l ltac:(lia) Hnz Hnl) as Hremove.
  set (p := m_freelist sh l) in *.
  set (sh_a := set_freelist (set_freelist sh l KOKKOS_MEMPOOLLIST_LOCK) l
                            (m_next sh p)) in *.
  destruct (Nat.eq_dec e l) as [Heq|Hne].
  - exists (set_next sh_a p 0).
    eapply reaches_yields; [exact Hscan|].
    eapply steps_yields; [exact Hremove|].
    eapply yields_step; [reflexivity | | apply yields_done].
    simpl. subst e. now rewrite Nat.ltb_irrefl, andb_false_r.
  - destruct (split_terminates P e p (chunk_size P l / chunk_size P e)
                (Z.to_nat (chunk_size P l / chunk_size P e - 2)) 2
                (set_next sh_a p 0) eq_refl) as [sh_b [Hloop Hlists]].
    assert (Hhead : m_freelist sh_b e = 0).
    { rewrite Hlists. unfold sh_a. simpl.
      assert (E : Nat.eqb e l = false) by (apply Nat.eqb_neq; lia).
      rewrite E. apply Hempty. lia. }
    eexists.
    eapply reaches_yields; [exact Hscan|].
    eapply steps_yields; [exact Hremove|].
    eapply yields_step; [reflexivity | |].
    { simpl. apply Z.eqb_neq in Hnz. fold p in Hnz. rewrite Hnz.
      assert (E : (e <? l)%nat = true) by (apply Nat.ltb_lt; lia).
      rewrite E. reflexivity. }
    eapply reaches_yields; [exact Hloop|].
    apply insert_list_yields. rewrite Hhead. discriminate.
Qed.

(** The three cases of a sequential [allocate], by the list the scan
    stops at. *)
Lemma first_fit_outcome (P : MemPoolList) (sh : shared) (s : Z) :
  table_ok P -> 0 <= s ->
  let e := find_class P s in
  let l := first_candidate P sh e in
  (e <= l <= length (m_chunk_size P))%nat /\
  (forall j, (e <= j < l)%nat -> m_freelist sh j = 0) /\
  (chunk_size P l = 0 ->
     yields P sh (AllocEntry s)
       (if KOKKOS_MEMPOOLLIST_PRINTERR P && (largest_class P <? s)
        then Abort REQUESTED_SIZE_TOO_LARGE else exhausted P) sh) /\
  (0 < chunk_size P l ->
     m_freelist sh l <> 0 /\
     (increasing P -> s <= chunk_size P l) /\
     (m_freelist sh l = KOKKOS_MEMPOOLLIST_LOCK ->
        forall fuel, allocate P fuel sh s = None) /\
     (m_freelist sh l <> KOKKOS_MEMPOOLLIST_LOCK ->
        exists sh',
          yields P sh (AllocEntry s) (Return (Ptr (m_freelist sh l))) sh')).
Proof.
  intros Hok Hs e l.
  pose proof (find_class_le_length P s) as He. fold e in He.
  destruct (first_candidate_spec P sh e Hok He) as [Hrange [Hempty [Hzero Hpos]]].
  fold l in Hrange, Hempty, Hzero, Hpos.
  pose proof (alloc_entry_step P sh s Hok Hs) as Hentry. fold e in Hentry.
  split; [exact Hrange|]. split; [exact Hempty|]. split.
  - intros H0. specialize (Hzero H0).
    eapply yields_step; [reflexivity | exact Hentry |].
    destruct (KOKKOS_MEMPOOLLIST_PRINTERR P && (largest_class P <? s));
      [apply yields_done|].
    apply probe_gives_up; auto. intros j Hj. apply Hempty. lia.
  - intros Hl. destruct (Hpos Hl) as [Hlt Hnz].
    assert (Hfit : s <= largest_class P).
    { destruct (Z_le_gt_dec s (largest_class P)) as [|Hbig]; auto.
      apply Z.gt_lt, (find_class_sentinel_iff P s Hok Hs) in Hbig.
      fold e in Hbig. apply chunk_size_zero_iff in Hbig; auto. lia. }
    assert (Hge : (largest_class P <? s) = false) by now apply Z.ltb_ge.
    rewrite Hge, andb_false_r in Hentry.
    split; [exact Hnz|]. split; [|split].
    + intros Hinc. destruct (find_class_spec P s) as [_ Hstop]. fold e in Hstop.
      pose proof (chunk_size_pos P e Hok ltac:(lia)) as Hpe.
      destruct (Nat.eq_dec e l) as [Heq|Hne]; [rewrite <- Heq; lia|].
      pose proof (Hinc e l ltac:(lia)). lia.
    + intros Hlock [|fuel]; [reflexivity|]. unfold allocate.
      rewrite (run_step P fuel sh (AllocEntry s) _ _ eq_refl Hentry).
      apply locked_list_spins with (l := l); auto. lia.
    + intros Hnl.
      destruct (first_fit_returns_head P sh e l Hok ltac:(lia) Hempty Hnz Hnl)
        as [sh' Hy].
      exists sh'. eapply yields_step; [reflexivity | exact Hentry | exact Hy].
Qed.

(** X11.  The outcome of a sequential [allocate(s)] is decided by the first
    list [l], from the fitting class up, that is not empty.  If there is
    none (the scan stops at the sentinel), the call fails, memory untouched:
    with [REQUESTED_SIZE_TOO_LARGE] in the aborting build when [s] exceeds
    every class, else by giving up after its attempts.  If the head of [l]
    holds the lock value, the call never returns.  Otherwise the call
    returns the head of [l], and in a table of increasing sizes the class of
    [l] is large enough for [s]. *)
Theorem allocate_first_fit (P : MemPoolList) (sh : shared) (s : Z) :
  table_ok P -> 0 <= s ->
  let e := find_class P s in
  let l := first_candidate P sh e in
  (e <= l <= length (m_chunk_size P))%nat /\
  (forall j, (e <= j < l)%nat -> m_freelist sh j = 0) /\
  (chunk_size P l = 0 ->
     yields P sh (AllocEntry s)
       (if KOKKOS_MEMPOOLLIST_PRINTERR P && (largest_class P <? s)
        then Abort REQUESTED_SIZE_TOO_LARGE else exhausted P) sh) /\
  (0 < chunk_size P l ->
     m_freelist sh l <> 0 /\
     (increasing P -> s <= chunk_size P l) /\
     (m_freelist sh l = KOKKOS_MEMPOOLLIST_LOCK ->
        forall fuel, allocate P fuel sh s = None) /\
     (m_freelist sh l <> KOKKOS_MEMPOOLLIST_LOCK ->
        exists sh',
          yields P sh (AllocEntry s) (Return (Ptr (m_freelist sh l))) sh')).
Proof. exact (first_fit_outcome P sh s). Qed.

Lemma allocate_first_fit_witness :
  table_ok pool_a /\ 0 <= 200 /\
  first_candidate pool_a mem_a (find_class pool_a 200) = 2%nat /\
  exists sh', yields pool_a mem_a (AllocEntry 200) (Return (Ptr 4096)) sh'.
Proof.
  assert (Hok : table_ok pool_a).
  { split; [discriminate|]. repeat constructor. }
  split; [exact Hok|]. split; [lia|]. split; [reflexivity|].
  destruct (allocate_first_fit pool_a mem_a 200 Hok ltac:(lia))
    as [_ [_ [_ Hpos]]].
  destruct (Hpos eq_refl) as [_ [_ [_ Hret]]].
  apply Hret. discriminate.
Defined.

(** ** Interleavings: the critical section and what calls return *)









(** A property of control states that holds at the entry of both calls and
    that every step keeps holds in every reachable configuration. *)
Lemma reachable_keeps P (Q : pc -> Prop) :
  (forall s, Q (AllocEntry s)) ->
  (forall ptr s, Q (DeallocEntry ptr s)) ->
  (forall sh k, Q k -> Q (snd (thread_step P sh k))) ->
  forall c, reachable P c -> forall t k, thr c t = Some k -> Q k.
Proof.
  intros Ha Hd Hstep c [c0 [acts [Hi Hrun]]].
  assert (H0 : forall t k, thr c0 t = Some k -> Q k).
  { intros t k Ht. rewrite Hi in Ht. discriminate. }
  clear Hi. revert c0 H0 Hrun.
  induction acts as [|a acts IH]; intros c0 H0 Hrun; simpl in Hrun.
  - inversion Hrun; subst. exact H0.
  - destruct (sys_step P a c0) as [c1|] eqn:Hs; [|discriminate].
    apply (IH c1); [|exact Hrun].
    intros t k Ht.
    destruct a as [u s | u ptr s | u | u | b v]; simpl in Hs.
    + destruct (thr c0 u); [discriminate|]. inversion Hs; subst. simpl in Ht.
      destruct (Nat.eqb t u); [inversion Ht; apply Ha | eauto].
    + destruct (thr c0 u); [discriminate|]. inversion Hs; subst. simpl in Ht.
      destruct (Nat.eqb t u); [inversion Ht; apply Hd | eauto].
    + destruct (thr c0 u) as [k0|] eqn:Hu; [|discriminate].
      pose proof (Hstep (mem c0) k0 (H0 u k0 Hu)) as Hq.
      destruct (thread_step P (mem c0) k0) as [sh' k']. inversion Hs; subst.
      simpl in Ht. destruct (Nat.eqb t u); [inversion Ht; subst; exact Hq | eauto].
    + destruct (thr c0 u) as [[| | | | | | | | | | | |[r|m]]|]; try discriminate.
      inversion Hs; subst. simpl in Ht.
      destruct (Nat.eqb t u); [discriminate | eauto].
    + inversion Hs; subst. simpl in Ht. eauto.
Qed.

Lemma nonnull_step P sh k : nonnull P k -> nonnull P (snd (thread_step P sh k)).
Proof.
  destruct k; simpl; intros H;
    repeat match goal with
           | |- context [if ?b then _ else _] => destruct b eqn:?
           end; simpl; auto;
    repeat match goal with
           | H : _ && _ = true |- _ => apply andb_prop in H; destruct H
           | H : negb _ = true |- _ => apply negb_true_iff in H
           | H : (_ =? _) = false |- _ => apply Z.eqb_neq in H
           end; try tauto; try discriminate; try congruence.
  all: try (destruct ret; auto).
Qed.

(** X14.  What [allocate] hands out, in every interleaving: a pointer that
    a call returns is never the lock value, and in the aborting build it is
    never null, every failure being an abort. *)
Theorem returned_pointer_is_a_chunk
    (P : MemPoolList) (c : config) (t : nat) (p : Z) :
  reachable P c ->
  thr c t = Some (Done (Return (Ptr p))) ->
  p <> KOKKOS_MEMPOOLLIST_LOCK /\
  (KOKKOS_MEMPOOLLIST_PRINTERR P = true -> p <> 0).
Proof.
  intros Hreach Ht. split.
  - destruct (reachable_inv P c Hreach) as [_ [_ Hok]]. exact (Hok t _ Ht).
  - apply (reachable_keeps P (nonnull P)) with (c := c) (t := t)
      (k := Done (Return (Ptr p))); auto.
    + intros s. exact I.
    + intros ptr s. exact I.
    + intros sh k. apply nonnull_step.
Qed.

Lemma returned_pointer_is_a_chunk_witness :
  exists c,
    sys_run pool_a
      [CallAllocate 0 1024; Step 0; Step 0; Step 0; Step 0; Step 0; Step 0;
       Step 0] init_a = Some c /\
    thr c 0%nat = Some (Done (Return (Ptr 4096))) /\
    4096 <> KOKKOS_MEMPOOLLIST_LOCK /\ 4096 <> 0.
Proof.
  destruct (sys_run pool_a
      [CallAllocate 0 1024; Step 0; Step 0; Step 0; Step 0; Step 0; Step 0;
       Step 0] init_a) as [c|] eqn:Hrun; [|vm_compute in Hrun; discriminate].
  assert (Hreach : reachable pool_a c).
  { eexists init_a, _. split; [intros t; reflexivity | exact Hrun]. }
  assert (Ht : thr c 0%nat = Some (Done (Return (Ptr 4096)))).
  { vm_compute in Hrun. inversion Hrun. reflexivity. }
  exists c. split; [reflexivity|]. split; [exact Ht|].
  destruct (returned_pointer_is_a_chunk pool_a c 0 4096 Hreach Ht) as [H1 H2].
  split; [exact H1 | exact (H2 eq_refl)].
Defined.

(** ** Sequential use that keeps to the contract *)

Lemma remove_NoDup (xs : list block) (x : block) :
  NoDup xs -> NoDup (remove block_eq_dec x xs).
Proof.
  induction 1 as [|y xs Hnotin _ IH]; simpl; [constructor|].
  destruct (block_eq_dec x y); [exact IH|].
  constructor; [|exact IH]. intros Hin. apply in_remove in Hin. tauto.
Qed.

Lemma block_eta (x : block) : x = (fst x, snd x).
Proof. now destruct x. Qed.

Section Contract.

Variable P : MemPoolList.
Hypothesis table : table_ok P.
Hypothesis twice : doubling P.
Hypothesis arena : arena_ok P.

Lemma in_pool_size x : in_pool P x -> 0 < chunk_size P (snd x) < modulus.
Proof. intros [Hl _]. now apply chunk_size_pos. Qed.

Lemma in_pool_address x :
  in_pool P x ->
  0 < fst x /\ fst x + chunk_size P (snd x) < modulus /\
  fst x <> 0 /\ fst x <> KOKKOS_MEMPOOLLIST_LOCK.
Proof.
  intros Hx. pose proof (in_pool_size x Hx) as Hsz.
  destruct Hx as [_ [Hlo Hhi]]. destruct arena as [Hbase Hend].
  unfold KOKKOS_MEMPOOLLIST_LOCK. lia.
Qed.

(** Two blocks that start at one address overlap. *)
Lemma same_start_overlap x y :
  in_pool P x -> in_pool P y -> fst x = fst y -> ~ disjoint P x y.
Proof.
  intros Hx Hy Heq [H|H];
    pose proof (in_pool_size x Hx); pose proof (in_pool_size y Hy); lia.
Qed.

Lemma disjoint_sym x y : disjoint P x y -> disjoint P y x.
Proof. unfold disjoint. tauto. Qed.

(** A block inside another is disjoint from all the other is disjoint
    from. *)
Lemma disjoint_inside x y z :
  fst y <= fst x ->
  fst x + chunk_size P (snd x) <= fst y + chunk_size P (snd y) ->
  0 <= chunk_size P (snd x) ->
  disjoint P y z -> disjoint P x z.
Proof. unfold disjoint. intros H1 H2 H3 [H|H]; [left|right]; lia. Qed.

Section State.

Variable sh : shared.
Variable F : nat -> list Z.
Variable O : list block.
Hypothesis wf : pool_wf P sh F O.

Lemma wf_head_empty l :
  (l < length (m_chunk_size P))%nat -> m_freelist sh l = 0 -> F l = [].
Proof.
  intros Hl H0. pose proof (wf_chain P sh F O wf l Hl) as Hch.
  destruct (F l) as [|a rest]; [reflexivity|].
  simpl in Hch. destruct Hch as [Hh [Hnz _]]. congruence.
Qed.

Lemma wf_head_nonempty l :
  (l < length (m_chunk_size P))%nat -> m_freelist sh l <> 0 ->
  exists rest, F l = m_freelist sh l :: rest.
Proof.
  intros Hl Hnz. pose proof (wf_chain P sh F O wf l Hl) as Hch.
  destruct (F l) as [|a rest]; simpl in Hch; [contradiction|].
  destruct Hch as [-> _]. now exists rest.
Qed.

Lemma wf_head_not_locked l :
  (l < length (m_chunk_size P))%nat ->
  m_freelist sh l <> KOKKOS_MEMPOOLLIST_LOCK.
Proof.
  intros Hl. eapply chain_head_not_locked. apply (wf_chain P sh F O wf l Hl).
Qed.

(** A chunk on a list is on no other list. *)
Lemma wf_free_once a l m :
  In a (F l) -> In a (F m) -> l = m.
Proof.
  intros Hl Hm. destruct (Nat.eq_dec l m) as [|Hne]; auto. exfalso.
  assert (Hx : live F O (a, l)) by (left; exact Hl).
  assert (Hy : live F O (a, m)) by (left; exact Hm).
  apply (same_start_overlap (a, l) (a, m)).
  - now apply (wf_in_pool P sh F O wf).
  - now apply (wf_in_pool P sh F O wf).
  - reflexivity.
  - apply (wf_disjoint P sh F O wf); auto. congruence.
Qed.

(** A new state whose blocks are among the present ones is consistent once
    its chains and its bookkeeping are. *)
Lemma wf_same_blocks sh' F' O' :
  (forall l, (l < length (m_chunk_size P))%nat ->
     chain sh' (m_freelist sh' l) (F' l)) ->
  (forall l, NoDup (F' l)) ->
  NoDup O' ->
  (forall x, free_in F' x -> ~ In x O') ->
  (forall x, live F' O' x -> live F O x) ->
  pool_wf P sh' F' O'.
Proof.
  intros Hch Hnd Hno Hex Hsub. constructor; auto.
  - intros x Hx. apply (wf_in_pool P sh F O wf). auto.
  - intros x y Hx Hy Hne. apply (wf_disjoint P sh F O wf); auto.
Qed.

(** *** An exact fit *)

Lemma wf_exact_fit e p rest :
  (e < length (m_chunk_size P))%nat ->
  m_freelist sh e = p -> F e = p :: rest ->
  pool_wf P (pop sh e)
    (fun i => if Nat.eqb i e then rest else F i) ((p, e) :: O).
Proof.
  intros He Hhead HF.
  pose proof (wf_nodup P sh F O wf e) as Hnd. rewrite HF in Hnd.
  pose proof (proj1 (NoDup_cons_iff _ _) Hnd) as [Hnotin Hnd'].
  assert (Hfree : free_in F (p, e)) by (unfold free_in; simpl; rewrite HF; now left).
  apply wf_same_blocks.
  - intros l Hl. destruct (Nat.eqb l e) eqn:E.
    + apply Nat.eqb_eq in E. subst l.
      apply chain_pop with (a := p); [exact Hnd|]. rewrite <- HF.
      now apply (wf_chain P sh F O wf).
    + apply Nat.eqb_neq in E. rewrite pop_freelist_other by assumption.
      apply chain_ext with (sh := sh); [|now apply (wf_chain P sh F O wf)].
      intros b Hb. apply pop_next_other. rewrite Hhead. intros ->.
      apply E. apply (wf_free_once p l e Hb). rewrite HF. now left.
  - intros l. destruct (Nat.eqb l e); [exact Hnd' | apply (wf_nodup P sh F O wf)].
  - constructor; [|apply (wf_held_once P sh F O wf)].
    now apply (wf_free_not_held P sh F O wf).
  - intros x Hx [Heq|Hin].
    + subst x. unfold free_in in Hx. simpl in Hx.
      rewrite Nat.eqb_refl in Hx. contradiction.
    + apply (wf_free_not_held P sh F O wf x); auto.
      unfold free_in in *. destruct (Nat.eqb (snd x) e) eqn:E; auto.
      apply Nat.eqb_eq in E. rewrite E, HF. now right.
  - intros x [Hx|[Heq|Hin]].
    + left. unfold free_in in *. destruct (Nat.eqb (snd x) e) eqn:E; auto.
      apply Nat.eqb_eq in E. rewrite E, HF. now right.
    + subst x. now left.
    + now right.
Qed.

(** *** A release *)

Lemma wf_release e p :
  In (p, e) O ->
  pool_wf P (push sh e p)
    (fun i => if Nat.eqb i e then p :: F e else F i)
    (remove block_eq_dec (p, e) O).
Proof.
  intros Hheld.
  assert (Hlive : live F O (p, e)) by now right.
  pose proof (wf_in_pool P sh F O wf _ Hlive) as Hpool.
  destruct (in_pool_address _ Hpool) as [_ [_ [Hnz Hnl]]]. simpl in Hnz, Hnl.
  assert (Hnotfree : forall m, ~ In p (F m)).
  { intros m Hm.
    assert (Hy : live F O (p, m)) by (left; exact Hm).
    destruct (Nat.eq_dec m e) as [->|Hne].
    - now apply (wf_free_not_held P sh F O wf (p, e)).
    - apply (same_start_overlap (p, m) (p, e)); auto.
      + now apply (wf_in_pool P sh F O wf).
      + apply (wf_disjoint P sh F O wf); auto. congruence. }
  apply wf_same_blocks.
  - intros l Hl. destruct (Nat.eqb l e) eqn:E.
    + apply Nat.eqb_eq in E. subst l.
      apply chain_push; auto. now apply (wf_chain P sh F O wf).
    + apply Nat.eqb_neq in E. unfold push.
      rewrite freelist_set_other by assumption. simpl m_freelist.
      apply chain_ext with (sh := sh); [|now apply (wf_chain P sh F O wf)].
      intros b Hb. simpl. destruct (b =? p) eqn:Eb; auto.
      apply Z.eqb_eq in Eb. subst b. exfalso. eapply Hnotfree; eauto.
  - intros l. destruct (Nat.eqb l e); [|apply (wf_nodup P sh F O wf)].
    constructor; [apply Hnotfree | apply (wf_nodup P sh F O wf)].
  - apply remove_NoDup. apply (wf_held_once P sh F O wf).
  - intros x Hx Hin. apply in_remove in Hin as [Hin Hne].
    unfold free_in in Hx. destruct (Nat.eqb (snd x) e) eqn:E.
    + apply Nat.eqb_eq in E. destruct Hx as [Hx|Hx].
      * apply Hne. rewrite (block_eta x). congruence.
      * apply (wf_free_not_held P sh F O wf x); auto.
        unfold free_in. now rewrite E.
    + now apply (wf_free_not_held P sh F O wf x).
  - intros x [Hx|Hin].
    + unfold free_in in Hx. destruct (Nat.eqb (snd x) e) eqn:E.
      * apply Nat.eqb_eq in E. destruct Hx as [Hx|Hx].
        -- right. rewrite (block_eta x). rewrite <- Hx, E. exact Hheld.
        -- left. unfold free_in. now rewrite E.
      * now left.
    + right. now apply in_remove in Hin as [Hin _].
Qed.

(** *** A split *)

Lemma wf_split s l :
  0 <= s <= largest_class P ->
  (find_class P s < l < length (m_chunk_size P))%nat ->
  (forall j, (find_class P s <= j < l)%nat -> m_freelist sh j = 0) ->
  m_freelist sh l <> 0 ->
  exists sh' F',
    yields P sh (AllocEntry s) (Return (Ptr (m_freelist sh l))) sh' /\
    pool_wf P sh' F' ((m_freelist sh l, find_class P s) :: O).
Proof.
  intros Hs Hl Hempty Hnz.
  set (e := find_class P s) in *. set (p := m_freelist sh l) in *.
  set (sz := chunk_size P e). set (n := chunk_size P l / sz).
  destruct (wf_head_nonempty l ltac:(lia) Hnz) as [rest HF]. fold p in HF.
  assert (HFe : F e = []) by (apply wf_head_empty; [lia | apply Hempty; lia]).
  assert (Hfree : live F O (p, l)).
  { left. unfold free_in. simpl. rewrite HF. now left. }
  pose proof (wf_in_pool P sh F O wf _ Hfree) as Hpool.
  destruct (in_pool_address _ Hpool) as [Hp [Hend _]]. simpl in Hp, Hend.
  destruct Hpool as [_ [Hlo Hhi]]. simpl in Hlo, Hhi.
  assert (Hsz : 0 < sz < modulus) by (apply chunk_size_pos; auto; lia).
  assert (Hcl : 0 < chunk_size P l) by (apply chunk_size_pos; auto; lia).
  assert (Hn : 2 <= n).
  { apply Z.div_le_lower_bound; [lia|].
    pose proof (twice e l ltac:(lia)) as Htw. fold sz in Htw. lia. }
  assert (Hmul : n * sz <= chunk_size P l).
  { pose proof (Z.mul_div_le (chunk_size P l) sz ltac:(lia)) as Hmd.
    fold n in Hmd. lia. }
  destruct (allocate_splits P sh s l table Hs Hl Hempty Hp Hend Hn)
    as [sh' [Hy [Hhead [Hch [_ [Hbounds [_ [_ [Hlists Hlinks]]]]]]]]].
  fold e p sz n in Hy, Hhead, Hch, Hbounds, Hlists, Hlinks.
  set (subs := sub_chunks p sz (Z.to_nat n)) in *.
  assert (Hsubs : forall a, In a subs ->
            exists i, 1 <= i < n /\ a = p + i * sz).
  { intros a Ha. unfold subs, sub_chunks in Ha. apply in_map_iff in Ha.
    destruct Ha as [i [<- Hi]]. apply in_seq in Hi.
    exists (Z.of_nat i). split; [lia | reflexivity]. }
  set (F' := fun i => if Nat.eqb i e then subs
                      else if Nat.eqb i l then rest else F i).
  set (O' := (p, e) :: O).
  assert (Hel : Nat.eqb l e = false) by (apply Nat.eqb_neq; lia).
  (* blocks other than the one split stay clear of it *)
  assert (Houtside : forall y, live F O y -> y <> (p, l) ->
            fst y < p \/ p + chunk_size P l <= fst y).
  { intros y Hy' Hne.
    pose proof (in_pool_size y (wf_in_pool P sh F O wf y Hy')) as Hys.
    destruct (wf_disjoint P sh F O wf (p, l) y Hfree Hy' (not_eq_sym Hne))
      as [H|H]; simpl in H; lia. }
  assert (Hnotheld : ~ In (p, e) O).
  { intros Hin.
    assert (Hne : (p, e) <> (p, l)) by (intros Heq; inversion Heq; lia).
    destruct (Houtside (p, e) (or_intror Hin) Hne) as [H|H]; simpl in H; lia. }
  assert (Hrest : ~ In p rest).
  { pose proof (wf_nodup P sh F O wf l) as Hnd. rewrite HF in Hnd.
    now apply NoDup_cons_iff in Hnd. }
  (* the blocks of the new state *)
  assert (Hnew : forall x, live F' O' x ->
            (exists i, 0 <= i < n /\ x = (p + i * sz, e)) \/
            (live F O x /\ x <> (p, l))).
  { intros x [Hx|[Heq|Hin]].
    - unfold free_in, F' in Hx. destruct (Nat.eqb (snd x) e) eqn:E.
      + apply Nat.eqb_eq in E. destruct (Hsubs _ Hx) as [i [Hi Ha]].
        left. exists i. split; [lia|]. rewrite (block_eta x). congruence.
      + destruct (Nat.eqb (snd x) l) eqn:E'.
        * apply Nat.eqb_eq in E'. right. split.
          -- left. unfold free_in. rewrite E', HF. now right.
          -- intros Heq. subst x. simpl in Hx. contradiction.
        * right. split; [now left|]. intros Heq. subst x. simpl in E'.
          now rewrite Nat.eqb_refl in E'.
    - left. exists 0. split; [lia|]. rewrite <- Heq. f_equal. lia.
    - right. split; [now right|]. intros Heq. subst x.
      apply (wf_free_not_held P sh F O wf (p, l)); auto.
      unfold free_in. simpl. rewrite HF. now left. }
  exists sh', F'. split; [exact Hy|]. constructor.
  - (* chains *)
    intros i Hi. unfold F'. destruct (Nat.eqb i e) eqn:E.
    + apply Nat.eqb_eq in E. subst i. exact Hch.
    + apply Nat.eqb_neq in E. destruct (Nat.eqb i l) eqn:E'.
      * apply Nat.eqb_eq in E'. subst i. rewrite Hhead.
        pose proof (wf_chain P sh F O wf l ltac:(lia)) as Hc.
        rewrite HF in Hc. simpl in Hc. destruct Hc as [_ [_ [_ Hc]]].
        apply chain_ext with (sh := sh); [|exact Hc].
        intros b Hb. assert (Hbl : live F O (b, l)).
        { left. unfold free_in. simpl. rewrite HF. now right. }
        assert (Hbne : (b, l) <> (p, l)) by (intros Heq; inversion Heq; congruence).
        pose proof (Houtside _ Hbl Hbne) as Hout. simpl in Hout.
        apply Hlinks; [lia|]. intros Hin.
        apply Hbounds in Hin. lia.
      * apply Nat.eqb_neq in E'. rewrite Hlists by assumption.
        apply chain_ext with (sh := sh);
          [|now apply (wf_chain P sh F O wf)].
        intros b Hb. assert (Hbl : live F O (b, i)) by (left; exact Hb).
        assert (Hbne : (b, i) <> (p, l)) by (intros Heq; inversion Heq; congruence).
        pose proof (Houtside _ Hbl Hbne) as Hout. simpl in Hout.
        apply Hlinks; [lia|]. intros Hin.
        apply Hbounds in Hin. lia.
  - (* no repetition on a list *)
    intros i. unfold F'. destruct (Nat.eqb i e).
    + apply NoDup_sub_chunks. lia.
    + destruct (Nat.eqb i l); [|apply (wf_nodup P sh F O wf)].
      pose proof (wf_nodup P sh F O wf l) as Hnd. rewrite HF in Hnd.
      now apply NoDup_cons_iff in Hnd.
  - (* held once *)
    constructor; [exact Hnotheld | apply (wf_held_once P sh F O wf)].
  - (* free is not held *)
    intros x Hx Hin. unfold free_in, F' in Hx.
    destruct (Nat.eqb (snd x) e) eqn:E.
    + apply Hbounds in Hx. destruct Hin as [Heq|Hin].
      * subst x. simpl in Hx. lia.
      * assert (Hne' : x <> (p, l)).
        { intros Heq. subst x. simpl in E. now rewrite Hel in E. }
        destruct (Houtside x (or_intror Hin) Hne') as [H|H]; lia.
    + destruct Hin as [Heq|Hin].
      * subst x. simpl in E. now rewrite Nat.eqb_refl in E.
      * apply (wf_free_not_held P sh F O wf x); auto. unfold free_in.
        destruct (Nat.eqb (snd x) l) eqn:E'; auto.
        apply Nat.eqb_eq in E'. rewrite E', HF. now right.
  - (* in the arena *)
    intros x Hx. destruct (Hnew x Hx) as [[i [Hi ->]]|[Hold _]].
    + unfold in_pool. simpl. fold sz. split; [lia|]. split; nia.
    + now apply (wf_in_pool P sh F O wf).
  - (* no overlap *)
    intros x y Hx Hy' Hne.
    destruct (Hnew x Hx) as [[i [Hi Hxi]]|[Hxo Hxn]];
      destruct (Hnew y Hy') as [[j [Hj Hyj]]|[Hyo Hyn]].
    + subst x y. unfold disjoint. simpl. fold sz.
      assert (i <> j) by (intros ->; now apply Hne). nia.
    + subst x. apply disjoint_inside with (y := (p, l)); simpl; fold sz;
        try nia. now apply (wf_disjoint P sh F O wf).
    + subst y. apply disjoint_sym.
      apply disjoint_inside with (y := (p, l)); simpl; fold sz; try nia.
      now apply (wf_disjoint P sh F O wf).
    + now apply (wf_disjoint P sh F O wf).
Qed.

(** *** One call in a consistent pool *)

Lemma wf_allocate s :
  0 <= s ->
  exists o sh',
    yields P sh (AllocEntry s) o sh' /\
    match o with
    | Return (Ptr p) =>
        if p =? 0 then sh' = sh
        else exists F', pool_wf P sh' F' ((p, find_class P s) :: O)
    | _ => sh' = sh
    end.
Proof.
  intros Hs.
  destruct (first_fit_outcome P sh s table Hs)
    as [Hrange [Hempty [Hzero Hpos]]].
  set (e := find_class P s) in *. set (l := first_candidate P sh e) in *.
  destruct (Z.eq_dec (chunk_size P l) 0) as [H0|Hn0].
  - specialize (Hzero H0). eexists _, sh. split; [exact Hzero|].
    unfold exhausted.
    destruct (KOKKOS_MEMPOOLLIST_PRINTERR P); simpl;
      [destruct (largest_class P <? s)|]; reflexivity.
  - assert (Hl : (l < length (m_chunk_size P))%nat).
    { destruct (le_lt_dec (length (m_chunk_size P)) l); auto.
      rewrite chunk_size_sentinel in Hn0 by lia. congruence. }
    pose proof (chunk_size_pos P l table Hl) as Hcl.
    destruct (Hpos ltac:(lia)) as [Hnz _].
    assert (Hfit : s <= largest_class P).
    { destruct (Z_le_gt_dec s (largest_class P)) as [|Hbig]; auto.
      apply Z.gt_lt, (find_class_sentinel_iff P s table Hs) in Hbig.
      fold e in Hbig. apply chunk_size_zero_iff in Hbig; auto. lia. }
    assert (Hp0 : (m_freelist sh l =? 0) = false) by now apply Z.eqb_neq.
    destruct (Nat.eq_dec e l) as [Heq|Hne].
    + destruct (wf_head_nonempty l Hl Hnz) as [rest HF].
      exists (Return (Ptr (m_freelist sh l))), (pop sh l). split.
      * rewrite <- Heq. apply allocate_exact_fit; auto; fold e; rewrite Heq;
          auto. now apply wf_head_not_locked.
      * rewrite Hp0. eexists. fold e. rewrite Heq.
        apply wf_exact_fit with (rest := rest); auto.
    + destruct (wf_split s l (conj Hs Hfit) ltac:(fold e; lia) Hempty Hnz)
        as [sh' [F' [Hy Hwf]]].
      exists (Return (Ptr (m_freelist sh l))), sh'. split; [exact Hy|].
      rewrite Hp0. now exists F'.
Qed.

Lemma held_in_arena p s :
  0 <= s -> In (p, find_class P s) O ->
  s <= largest_class P /\ in_arena P p s = true.
Proof.
  intros Hs Hheld. set (e := find_class P s) in *.
  assert (Hlive : live F O (p, e)) by now right.
  pose proof (wf_in_pool P sh F O wf _ Hlive) as Hpool.
  destruct (in_pool_address _ Hpool) as [Hp [Hend _]]. simpl in Hp, Hend.
  destruct Hpool as [He [Hlo Hhi]]. simpl in He, Hlo, Hhi.
  pose proof (chunk_size_pos P e table He) as Hce.
  assert (Hse : s <= chunk_size P e).
  { destruct (find_class_spec P s) as [_ Hstop]. fold e in Hstop. lia. }
  split.
  - pose proof (largest_class_ge P e). lia.
  - unfold in_arena. destruct arena as [Hbase Hlim].
    rewrite (wrap_small (m_data P + m_data_size P)) by lia.
    rewrite (wrap_small (p + s)) by lia.
    assert (H1 : (p <? m_data P) = false) by (apply Z.ltb_ge; lia).
    assert (H2 : (m_data P + m_data_size P <? p + s) = false)
      by (apply Z.ltb_ge; lia).
    now rewrite H1, H2.
Qed.

Lemma wf_deallocate p s :
  0 <= s -> In (p, find_class P s) O ->
  exists sh' F',
    yields P sh (DeallocEntry p s) (Return Void) sh' /\
    pool_wf P sh' F' (remove block_eq_dec (p, find_class P s) O).
Proof.
  intros Hs Hheld. destruct (held_in_arena p s Hs Hheld) as [Hfit Harena].
  assert (Hlive : live F O (p, find_class P s)) by now right.
  destruct (wf_in_pool P sh F O wf _ Hlive) as [He _]. simpl in He.
  exists (push sh (find_class P s) p),
         (fun i => if Nat.eqb i (find_class P s)
                   then p :: F (find_class P s) else F i).
  split.
  - apply dealloc_push; auto. now apply wf_head_not_locked.
  - now apply wf_release.
Qed.

End State.

End Contract.

Lemma pool_a_holds_link : holds_link pool_a.
Proof. repeat constructor; discriminate. Qed.

Lemma pool_a_doubling : doubling pool_a.
Proof.
  intros i j Hij. simpl in Hij.
  destruct i as [|[|[|i]]]; destruct j as [|[|[|j]]]; try lia;
    vm_compute; discriminate.
Qed.

Lemma pool_a_wf : pool_wf pool_a mem_a free_a held_a.
Proof.
  assert (Hlive : forall x, live free_a held_a x ->
            In x [(4096, 2%nat); (5120, 2%nat); (6144, 2%nat); (7168, 2%nat)]).
  { intros [a l] [Hx|Hx].
    - unfold free_in, free_a in Hx. simpl in Hx.
      destruct l as [|[|[|l]]]; simpl in Hx; try contradiction.
      destruct Hx as [<-|[<-|[<-|[]]]]; simpl; tauto.
    - destruct Hx as [<-|[]]. simpl. tauto. }
  constructor.
  - intros l Hl. simpl in Hl. destruct l as [|[|[|l]]]; try lia.
    + reflexivity.
    + reflexivity.
    + simpl. repeat split; discriminate.
  - intros l. unfold free_a. destruct (Nat.eqb l 2); [|constructor].
    repeat constructor; simpl; intuition discriminate.
  - repeat constructor. simpl. tauto.
  - intros [a l] Hx [Heq|[]]. inversion Heq; subst.
    unfold free_in in Hx. simpl in Hx. intuition discriminate.
  - intros x Hx. apply Hlive in Hx. simpl in Hx.
    destruct Hx as [<-|[<-|[<-|[<-|[]]]]]; unfold in_pool; simpl;
      repeat split; try lia; vm_compute; discriminate.
  - intros x y Hx Hy Hne. apply Hlive in Hx. apply Hlive in Hy.
    simpl in Hx, Hy. unfold disjoint.
    destruct Hx as [<-|[<-|[<-|[<-|[]]]]];
      destruct Hy as [<-|[<-|[<-|[<-|[]]]]]; simpl;
      try (exfalso; apply Hne; reflexivity);
      try (left; vm_compute; discriminate);
      try (right; vm_compute; discriminate).
Qed.

(** ** Links as bytes *)

Lemma word_of_bytes_of : forall n v,
  word_of (bytes_of n v) = v mod 256 ^ Z.of_nat n.
Proof.
  induction n as [|n IH]; intros v.
  - simpl. now rewrite Z.mod_1_r.
  - change (word_of (bytes_of (S n) v))
      with ((v mod 256) mod 256 + 256 * word_of (bytes_of n (v / 256))).
    rewrite IH, Z.mod_mod by lia.
    rewrite Nat2Z.inj_succ, Z.pow_succ_r by lia.
    rewrite Z.rem_mul_r; [reflexivity | lia |].
    apply Z.pow_pos_nonneg; lia.
Qed.

(** A link is made of its eight bytes and of nothing else. *)
Lemma load_ext m m' b :
  (forall i, b <= i < b + link_size -> i_byte m' i = i_byte m i) ->
  load_link m' b = load_link m b.
Proof.
  intros Hsame. unfold load_link. f_equal. apply map_ext_in.
  intros i Hi. apply in_seq in Hi. apply Hsame. unfold link_size. lia.
Qed.

Lemma load_store_same m a v :
  0 <= v < modulus -> load_link (store_link m a v) a = v.
Proof.
  intros Hv. unfold load_link.
  assert (Hbytes : map (fun i => i_byte (store_link m a v) (a + Z.of_nat i))
                       (seq 0 8) = bytes_of 8 v).
  { transitivity (map (fun i => nth i (bytes_of 8 v) 0) (seq 0 8));
      [|reflexivity].
    apply map_ext_in. intros i Hi. apply in_seq in Hi. simpl i_byte.
    assert (Hin : (a <=? a + Z.of_nat i) && (a + Z.of_nat i <? a + link_size)
                  = true).
    { apply andb_true_iff. unfold link_size.
      split; [apply Z.leb_le | apply Z.ltb_lt]; lia. }
    rewrite Hin. replace (a + Z.of_nat i - a) with (Z.of_nat i) by lia.
    now rewrite Nat2Z.id. }
  rewrite Hbytes, word_of_bytes_of. apply Z.mod_small. exact Hv.
Qed.

Lemma load_store_apart m a v b :
  apart a b -> load_link (store_link m a v) b = load_link m b.
Proof.
  intros Hab. apply load_ext. intros i Hi. simpl.
  assert (Hout : (a <=? i) && (i <? a + link_size) = false).
  { apply andb_false_iff. unfold apart in Hab.
    destruct (Z_le_gt_dec a i); [right; apply Z.ltb_ge | left; apply Z.leb_gt];
      lia. }
  now rewrite Hout.
Qed.

(** The word-granular store is the store of the bytes, seen at the link
    that is written and at every link that shares no byte with it. *)
Lemma view_store_link m a v b :
  0 <= v < modulus -> b = a \/ apart a b ->
  m_next (view (store_link m a v)) b = m_next (set_next (view m) a v) b.
Proof.
  intros Hv [->|Hab]; simpl.
  - rewrite Z.eqb_refl. now apply load_store_same.
  - assert (Hne : (b =? a) = false).
    { apply Z.eqb_neq. unfold apart, link_size in Hab. lia. }
    rewrite Hne. now apply load_store_apart.
Qed.

(** Links that are closer than [link_size] share bytes: a store to the
    link at 4108 changes the link at 4112, which the word-granular store
    leaves as it was. *)
Lemma close_links_overlap :
  let m := {| i_freelist := fun _ => 0; i_byte := fun _ => 0 |} in
  load_link (store_link m 4108 (2 ^ 40)) 4112 = 256 /\
  m_next (set_next (view m) 4108 (2 ^ 40)) 4112 = 0.
Proof. split; vm_compute; reflexivity. Qed.

Lemma byte_store_other m a v b :
  b < a \/ a + link_size <= b -> i_byte (store_link m a v) b = i_byte m b.
Proof.
  intros Hb. simpl.
  assert (Hout : (a <=? b) && (b <? a + link_size) = false).
  { apply andb_false_iff.
    destruct Hb; [left; apply Z.leb_gt | right; apply Z.ltb_ge]; lia. }
  now rewrite Hout.
Qed.

Lemma load_word m a : 0 <= load_link m a < modulus.
Proof.
  unfold load_link.
  assert (H : forall bs, 0 <= word_of bs < 256 ^ Z.of_nat (length bs)).
  { induction bs as [|b bs IH]; [simpl; lia|].
    change (word_of (b :: bs)) with (b mod 256 + 256 * word_of bs).
    change (length (b :: bs)) with (S (length bs)).
    rewrite Nat2Z.inj_succ, Z.pow_succ_r by lia.
    pose proof (Z.mod_pos_bound b 256 ltac:(lia)). lia. }
  specialize (H (map (fun i => i_byte m (a + Z.of_nat i)) (seq 0 8))).
  rewrite length_map, length_seq in H. exact H.
Qed.

(** ** The steps on the bytes and the steps of the model *)

(** A step on the bytes is the step of the model on the words that the
    bytes make: it leads to the same control state and the same list
    heads. *)
Lemma byte_step_view P m c m' c' :
  byte_step P m c = (m', c') ->
  exists sh',
    thread_step P (view m) c = (sh', c') /\
    forall l, m_freelist sh' l = i_freelist m' l.
Proof.
  destruct c; simpl;
    repeat match goal with
           | |- context [if ?b then _ else _] => destruct b eqn:?
           end;
    intros H; inversion H; subst; eexists; split; reflexivity.
Qed.

(** Where no link is stored, the bytes stay; where one is, they become
    those of [store_link]. *)
Lemma byte_step_bytes P m c m' c' :
  byte_step P m c = (m', c') ->
  forall b, i_byte m' b =
            match stored P c with
            | Some (a, v) => i_byte (store_link m a v) b
            | None => i_byte m b
            end.
Proof.
  destruct c; simpl;
    repeat match goal with
           | |- context [if ?b then _ else _] => destruct b eqn:?
           end;
    intros H; inversion H; subst; reflexivity.
Qed.

Lemma sys_inv_ext c c2 :
  sys_inv c ->
  (forall l, m_freelist (mem c2) l = m_freelist (mem c) l) ->
  (forall t, thr c2 t = thr c t) ->
  sys_inv c2.
Proof.
  intros [Hlock [Hue Hok]] Hheads Hthr. split; [|split].
  - intros t k l Ht Hh. rewrite Hthr in Ht.
    destruct (Hlock t k l Ht Hh) as [Hl Huniq]. split.
    + now rewrite Hheads.
    + intros t' k' Ht' Hh'. rewrite Hthr in Ht'. eapply Huniq; eauto.
  - intros t. rewrite Hthr. apply Hue.
  - intros t k Ht. rewrite Hthr in Ht. eapply Hok; eauto.
Qed.

Lemma byte_sys_inv_step P a c c' :
  sys_inv (view_config c) -> byte_sys_step P a c = Some c' ->
  sys_inv (view_config c').
Proof.
  intros Hinv Hstep.
  destruct a as [t s | t ptr s | t | t | b v]; simpl in Hstep.
  - apply (sys_inv_step P (CallAllocate t s) (view_config c)); auto.
    simpl. destruct (bthr c t); [discriminate|]. inversion Hstep. reflexivity.
  - apply (sys_inv_step P (CallDeallocate t ptr s) (view_config c)); auto.
    simpl. destruct (bthr c t); [discriminate|]. inversion Hstep. reflexivity.
  - destruct (bthr c t) as [k|] eqn:Ht; [|discriminate].
    destruct (byte_step P (bmem c) k) as [m' k'] eqn:Hk.
    inversion Hstep; subst c'. clear Hstep.
    destruct (byte_step_view P _ _ _ _ Hk) as [sh' [Hs Hheads]].
    apply sys_inv_ext with
      (c := {| mem := sh';
               thr := fun u => if Nat.eqb u t then Some k'
                               else thr (view_config c) u |}).
    + eapply sys_inv_thread_step; eauto.
    + intros l. simpl. symmetry. apply Hheads.
    + reflexivity.
  - apply (sys_inv_step P (Leave t) (view_config c)); auto.
    simpl.
    destruct (bthr c t) as [[| | | | | | | | | | | |[r|m]]|]; try discriminate.
    inversion Hstep. reflexivity.
  - inversion Hstep; subst c'. apply sys_inv_ext with (c := view_config c);
      auto.
Qed.
(** ** Interleavings: who has which block *)

Lemma segment_frame sh sh' t : forall nodes h,
  NoDup nodes ->
  (forall a, In a nodes -> a <> t -> m_next sh' a = m_next sh a) ->
  segment sh h nodes t -> segment sh' h nodes t.
Proof.
  induction nodes as [|a rest IH]; intros h Hnd Hsame Hseg; simpl in *; auto.
  destruct Hseg as [Hh [Hnz [Hnl Hrest]]]. repeat split; auto.
  destruct rest as [|b rest']; [exact Hrest|].
  apply NoDup_cons_iff in Hnd. destruct Hnd as [Hnotin Hnd].
  rewrite Hsame.
  - apply IH; auto.
  - now left.
  - intros ->. apply Hnotin. eapply segment_last; eauto.
Qed.

Lemma segment_chain sh t old cs : forall nodes h,
  segment sh h nodes t -> m_next sh t = old -> chain sh old cs ->
  chain sh h (nodes ++ cs).
Proof.
  induction nodes as [|a rest IH]; intros h Hseg Ht Hc; simpl in *;
    [contradiction|].
  destruct Hseg as [Hh [Hnz [Hnl Hrest]]]. repeat split; auto.
  destruct rest as [|b rest'].
  - simpl. now rewrite Hrest, Ht.
  - apply IH; auto.
Qed.

Lemma segment_nonempty sh h nodes t :
  segment sh h nodes t -> exists a rest, nodes = a :: rest.
Proof. destruct nodes as [|a rest]; simpl; [tauto|]. eauto. Qed.

(** A segment over consecutive sub-chunks. *)
Lemma segment_sub_chunks sh p sz : forall k j,
  (forall i, (j <= i < j + k)%nat ->
     p + Z.of_nat i * sz <> 0 /\
     p + Z.of_nat i * sz <> KOKKOS_MEMPOOLLIST_LOCK) ->
  (forall i, (j <= i < j + k)%nat -> (S i < j + k)%nat ->
     m_next sh (p + Z.of_nat i * sz) = p + Z.of_nat (S i) * sz) ->
  (0 < k)%nat ->
  segment sh (p + Z.of_nat j * sz)
          (map (fun i => p + Z.of_nat i * sz) (seq j k))
          (p + Z.of_nat (j + k - 1) * sz).
Proof.
  induction k as [|k IH]; intros j Hok Hlink Hk; [lia|].
  simpl. destruct (Hok j ltac:(lia)) as [Hnz Hnl].
  repeat split; auto.
  destruct k as [|k].
  - simpl. f_equal. f_equal. lia.
  - change (map (fun i => p + Z.of_nat i * sz) (seq (S j) (S k)))
      with (p + Z.of_nat (S j) * sz
            :: map (fun i => p + Z.of_nat i * sz) (seq (S (S j)) k)).
    cbv beta iota.
    rewrite Hlink by lia.
    replace (j + S (S k) - 1)%nat with (S j + S k - 1)%nat by lia.
    apply (IH (S j)).
    + intros i Hi. apply Hok. lia.
    + intros i Hi Hi'. apply Hlink; lia.
    + lia.
Qed.

Lemma owns_set_call F O G t g o x :
  owns F O (set_call G t g) o x <->
  (o = InCall t /\ In x g) \/ (o <> InCall t /\ owns F O G o x).
Proof.
  destruct o as [| |u]; simpl.
  - split; [intros H; right; split; [discriminate | exact H]|].
    intros [[H _]|[_ H]]; [discriminate | exact H].
  - split; [intros H; right; split; [discriminate | exact H]|].
    intros [[H _]|[_ H]]; [discriminate | exact H].
  - unfold set_call. destruct (Nat.eqb u t) eqn:E.
    + apply Nat.eqb_eq in E. subst u. split; [intros H; left; auto|].
      intros [[_ H]|[H _]]; [exact H | congruence].
    + apply Nat.eqb_neq in E. split.
      * intros H. right. split; [congruence | exact H].
      * intros [[H _]|[_ H]]; [congruence | exact H].
Qed.

Section Interleaved.

Variable P : MemPoolList.
Hypothesis table : table_ok P.
Hypothesis twice : doubling P.
Hypothesis arena : arena_ok P.
Hypothesis links : holds_link P.

Lemma contract_step_sys a w w' :
  contract_step P a w = Some w' -> byte_sys_step P a (cfg w) = Some (cfg w').
Proof.
  destruct a as [t s | t p s | t | t | b v]; unfold contract_step;
    intros H;
    repeat match type of H with
           | context [if ?b then _ else _] => destruct b; try discriminate
           end;
    destruct (byte_sys_step P _ (cfg w)) as [c|]; try discriminate;
    inversion H; reflexivity.
Qed.

Lemma chunk_size_link l :
  (l < length (m_chunk_size P))%nat -> link_size <= chunk_size P l.
Proof.
  intros Hl. unfold holds_link in links. rewrite Forall_forall in links.
  apply links. now apply chunk_size_in.
Qed.

Lemma within_iff b x :
  within P b x = true <-> fst x <= b < fst x + chunk_size P (snd x).
Proof. unfold within. rewrite andb_true_iff, Z.leb_le, Z.ltb_lt. tauto. Qed.

Lemma inside_iff b x :
  inside P b x = true <->
  fst x <= b /\ b + link_size <= fst x + chunk_size P (snd x).
Proof. unfold inside. rewrite andb_true_iff, !Z.leb_le. tauto. Qed.

Lemma touches_iff b x :
  touches P b x = true <->
  fst x < b + link_size /\ b < fst x + chunk_size P (snd x).
Proof. unfold touches. rewrite andb_true_iff, !Z.ltb_lt. tauto. Qed.

(** A block starts with a link. *)
Lemma inside_start x : in_pool P x -> inside P (fst x) x = true.
Proof.
  intros Hx. apply inside_iff.
  pose proof (chunk_size_link (snd x) (proj1 Hx)). lia.
Qed.

(** The pure part of the frame: a thread's state stays fitting when the
    links inside its blocks, the list it holds and the links of the chunks
    on that list stay as they are. *)
Lemma thread_ok_frame sh sh' F F' s g k :
  thread_ok P sh F s g k ->
  NoDup g ->
  (forall x, In x g -> in_pool P x) ->
  (forall x b, In x g -> inside P b x = true -> m_next sh' b = m_next sh b) ->
  (forall l, holds_list k l ->
     F' l = F l /\ forall b, In b (F l) -> m_next sh' b = m_next sh b) ->
  thread_ok P sh' F' s g k.
Proof.
  intros Hok Hnd Hpool Hown Hheld.
  destruct k as [k|]; [|exact Hok].
  destruct k as [s' | e n l | e n l | e n l oh | e l oh | e l oh hn
                | e l oh | e p n i | h t l r | h t l oh r | h t l oh r
                | p s' | o]; simpl in Hok |- *; auto.
  - destruct Hok as [Hg [He [Hl [Hnz Hch]]]].
    destruct (Hheld l eq_refl) as [HF Hsame].
    repeat split; auto; try lia. rewrite HF.
    now apply chain_ext with (sh := sh).
  - destruct Hok as [Hg [He [Hl [Hnz [Hch Hhn]]]]].
    destruct (Hheld l eq_refl) as [HF Hsame].
    repeat split; auto; try lia.
    + rewrite HF. now apply chain_ext with (sh := sh).
    + rewrite Hhn. symmetry. apply Hsame.
      destruct (F l) as [|a rest]; simpl in Hch.
      * contradiction.
      * destruct Hch as [-> _]. now left.
  - destruct Hok as [l [Hg [He [Hl [Hn [Hi Hlinks]]]]]].
    exists l. repeat split; auto; try lia.
    intros j Hj. rewrite <- (Hlinks j Hj). apply (Hown (p, l)).
    + rewrite Hg. now left.
    + apply inside_iff. simpl.
      assert (Hsz : 0 < chunk_size P e) by (apply chunk_size_pos; auto; lia).
      assert (Hcl : 0 < chunk_size P l) by (apply chunk_size_pos; auto; lia).
      pose proof (chunk_size_link e ltac:(lia)) as Hlk.
      pose proof (Z.mul_div_le (chunk_size P l) (chunk_size P e) Hsz).
      nia.
  - destruct Hok as [nodes [Hseg [Hg Hl]]]. exists nodes.
    repeat split; auto.
    apply segment_frame with (sh := sh); auto.
    + rewrite Hg in Hnd. apply NoDup_app_remove_r in Hnd.
      now apply NoDup_map_inv in Hnd.
    + intros a Ha _. apply (Hown (a, l)).
      * rewrite Hg. apply in_or_app. left. apply in_map_iff. eauto.
      * apply (inside_start (a, l)). apply Hpool. rewrite Hg.
        apply in_or_app. left. apply in_map_iff. eauto.
  - destruct Hok as [nodes [Hseg [Hg [Hl Hoh]]]]. exists nodes.
    repeat split; auto; try lia.
    apply segment_frame with (sh := sh); auto.
    + rewrite Hg in Hnd. apply NoDup_app_remove_r in Hnd.
      now apply NoDup_map_inv in Hnd.
    + intros a Ha _. apply (Hown (a, l)).
      * rewrite Hg. apply in_or_app. left. apply in_map_iff. eauto.
      * apply (inside_start (a, l)). apply Hpool. rewrite Hg.
        apply in_or_app. left. apply in_map_iff. eauto.
  - destruct Hok as [nodes [Hseg [Hg [Hl Hoh]]]]. exists nodes.
    assert (Hnodes : forall a, In a nodes -> m_next sh' a = m_next sh a).
    { intros a Ha. apply (Hown (a, l)).
      * rewrite Hg. apply in_or_app. left. apply in_map_iff. eauto.
      * apply (inside_start (a, l)). apply Hpool. rewrite Hg.
        apply in_or_app. left. apply in_map_iff. eauto. }
    repeat split; auto.
    + apply segment_frame with (sh := sh); auto.
      rewrite Hg in Hnd. apply NoDup_app_remove_r in Hnd.
      now apply NoDup_map_inv in Hnd.
    + rewrite Hnodes; auto. eapply segment_last; eauto.
Qed.

(** One link lies in one block only, and a block has one owner. *)
Lemma overlap_same w F G o o' x y b :
  safe P w F G ->
  owns F (held w) G o x -> owns F (held w) G o' y ->
  inside P b x = true -> touches P b y = true ->
  x = y /\ o = o'.
Proof.
  intros Hs Hx Hy Hbx Hby. destruct (block_eq_dec x y) as [->|Hne].
  - split; [reflexivity|]. eapply s_one_owner; eauto.
  - exfalso. apply inside_iff in Hbx. apply touches_iff in Hby.
    unfold link_size in *.
    destruct (s_disjoint P w F G Hs o o' x y Hx Hy Hne); lia.
Qed.

Lemma writes_none F O G o m m' :
  (forall b, i_byte m' b = i_byte m b) -> writes_within P F O G o m m'.
Proof. intros H b _. apply H. Qed.

(** A link that has no byte in a block of owner [o] is left as it is by
    writes within the blocks of [o]. *)
Lemma link_kept F O G o m m' b :
  writes_within P F O G o m m' ->
  (forall x, owns F O G o x -> touches P b x = false) ->
  load_link m' b = load_link m b.
Proof.
  intros Hw Hb. apply load_ext. intros i Hi. apply Hw. intros x Hx.
  specialize (Hb x Hx). destruct (within P i x) eqn:E; [|reflexivity].
  apply within_iff in E.
  assert (Ht : touches P b x = true) by (apply touches_iff; lia).
  congruence.
Qed.

(** The link of a block of another owner is left as it is. *)
Lemma start_kept w F G o o' m' x :
  safe P w F G ->
  writes_within P F (held w) G o (bmem (cfg w)) m' ->
  owns F (held w) G o' x -> o' <> o ->
  forall b, inside P b x = true ->
    load_link m' b = load_link (bmem (cfg w)) b.
Proof.
  intros Hs Hw Hx Hne b Hb. apply (link_kept F (held w) G o); auto.
  intros y Hy. destruct (touches P b y) eqn:E; [exfalso | reflexivity].
  destruct (overlap_same w F G o' o x y b Hs Hx Hy Hb E) as [_ Heq].
  contradiction.
Qed.

(** Writes within blocks that are not on a list leave the chains alone. *)
Lemma chains_ok w F G o m' :
  safe P w F G ->
  writes_within P F (held w) G o (bmem (cfg w)) m' -> o <> OnList ->
  forall l h, chain (view (bmem (cfg w))) h (F l) -> chain (view m') h (F l).
Proof.
  intros Hs Hw Ho l h Hc.
  apply chain_ext with (sh := view (bmem (cfg w))); auto.
  intros b Hb. simpl.
  assert (Hfree : owns F (held w) G OnList (b, l)) by exact Hb.
  apply (start_kept w F G o OnList m' (b, l)); auto.
  apply (inside_start (b, l)). eapply s_in_pool; eauto.
Qed.

(** Writes within blocks of another owner leave a thread's state
    fitting. *)
Lemma others_ok w F G o m' F' u :
  safe P w F G ->
  writes_within P F (held w) G o (bmem (cfg w)) m' ->
  o <> InCall u -> o <> OnList ->
  (forall l, holds_list (bthr (cfg w) u) l -> F' l = F l) ->
  thread_ok P (view m') F' (asked w u) (G u) (bthr (cfg w) u).
Proof.
  intros Hs Hw Hou Hol HF.
  apply thread_ok_frame with (sh := view (bmem (cfg w))) (F := F).
  - apply (s_thread P w F G Hs).
  - apply (s_nodup_call P w F G Hs).
  - intros x Hx. apply (s_in_pool P w F G Hs (InCall u)). exact Hx.
  - intros x b Hx Hb. simpl.
    assert (Hown : owns F (held w) G (InCall u) x) by exact Hx.
    apply (start_kept w F G o (InCall u) m' x); auto.
  - intros l Hl. split; [now apply HF|].
    intros b Hb. simpl.
    assert (Hfree : owns F (held w) G OnList (b, l)) by exact Hb.
    apply (start_kept w F G o OnList m' (b, l)); auto.
    apply (inside_start (b, l)). eapply s_in_pool; eauto.
Qed.

(** A thread that holds no list and locks none: the locked lists keep
    their holders. *)
Lemma locked_kept w F G t (k' : option pc) (heads : nat -> Z) :
  safe P w F G ->
  (forall l, ~ holds_list (bthr (cfg w) t) l) ->
  (forall l, heads l = KOKKOS_MEMPOOLLIST_LOCK ->
     i_freelist (bmem (cfg w)) l = KOKKOS_MEMPOOLLIST_LOCK) ->
  forall l, (l < length (m_chunk_size P))%nat ->
    heads l = KOKKOS_MEMPOOLLIST_LOCK ->
    exists u, holds_list (if Nat.eqb u t then k' else bthr (cfg w) u) l.
Proof.
  intros Hs Hnot Hheads l Hl Hlk.
  destruct (s_locked P w F G Hs l Hl (Hheads l Hlk)) as [u Hu]. exists u.
  destruct (Nat.eqb u t) eqn:E; [|exact Hu].
  apply Nat.eqb_eq in E. subst u. exfalso. exact (Hnot l Hu).
Qed.

(** A step that moves no block, writes only within the blocks of the
    thread that takes it and changes a list head only by locking it. *)
Lemma safe_local w F G t k' m' :
  safe P w F G ->
  (forall l, i_freelist m' l <> KOKKOS_MEMPOOLLIST_LOCK ->
     i_freelist m' l = i_freelist (bmem (cfg w)) l) ->
  writes_within P F (held w) G (InCall t) (bmem (cfg w)) m' ->
  (forall l, i_freelist m' l = KOKKOS_MEMPOOLLIST_LOCK ->
     holds k' l \/
     (i_freelist (bmem (cfg w)) l = KOKKOS_MEMPOOLLIST_LOCK /\
      ~ holds_list (bthr (cfg w) t) l)) ->
  sys_inv (view_config
             {| bmem := m';
                bthr := fun u => if Nat.eqb u t then Some k'
                                 else bthr (cfg w) u |}) ->
  thread_ok P (view m') F (asked w t) (G t) (Some k') ->
  safe P {| cfg := {| bmem := m';
                      bthr := fun u => if Nat.eqb u t then Some k'
                                       else bthr (cfg w) u |};
            held := held w; asked := asked w |} F G.
Proof.
  intros Hs Hheads Hw Hlocked Hsys Hok. constructor; simpl.
  - exact Hsys.
  - intros l Hl Hnl. rewrite (Hheads l Hnl) in Hnl |- *.
    apply (chains_ok w F G (InCall t)); auto; [discriminate|].
    now apply (s_chain P w F G Hs).
  - intros l Hl Hlk. destruct (Hlocked l Hlk) as [Hh|[Hold Hnot]].
    + exists t. now rewrite Nat.eqb_refl.
    + destruct (s_locked P w F G Hs l Hl Hold) as [u Hu]. exists u.
      destruct (Nat.eqb u t) eqn:E; [|exact Hu].
      apply Nat.eqb_eq in E. subst u. contradiction.
  - apply (s_nodup_list P w F G Hs).
  - apply (s_nodup_held P w F G Hs).
  - apply (s_nodup_call P w F G Hs).
  - apply (s_one_owner P w F G Hs).
  - apply (s_in_pool P w F G Hs).
  - apply (s_disjoint P w F G Hs).
  - intros u. destruct (Nat.eqb u t) eqn:E.
    + apply Nat.eqb_eq in E. subst u. exact Hok.
    + apply Nat.eqb_neq in E.
      apply (others_ok w F G (InCall t)); auto; try discriminate.
      congruence.
Qed.

Lemma conserves_refl F O G : conserves P F O G F O G.
Proof.
  split; [|split]; auto.
  intros o x Hx. exists o, x. auto.
Qed.

Lemma conserves_trans F O G F1 O1 G1 F2 O2 G2 :
  conserves P F O G F1 O1 G1 -> conserves P F1 O1 G1 F2 O2 G2 ->
  conserves P F O G F2 O2 G2.
Proof.
  intros [H1 [H2 H3]] [H4 [H5 H6]]. split; [|split]; auto.
  intros o x Hx. destruct (H3 o x Hx) as [o1 [y [Hy [Hfst Hsnd]]]].
  destruct (H6 o1 y Hy) as [o2 [z [Hz [Hfst' Hsnd']]]].
  exists o2, z. split; [exact Hz|]. split; [congruence | lia].
Qed.

(** Blocks that only change owner cover the same bytes. *)
Lemma conserves_same_blocks F O G F' O' G' :
  (forall o x, owns F' O' G' o x -> exists o1, owns F O G o1 x) ->
  (forall o x, owns F O G o x -> exists o1, owns F' O' G' o1 x) ->
  conserves P F O G F' O' G'.
Proof.
  intros Hback Hfwd. split; [|split].
  - intros b [o [x [Hx Hb]]]. destruct (Hback o x Hx) as [o1 Ho1].
    now exists o1, x.
  - intros _ b [o [x [Hx Hb]]]. destruct (Hfwd o x Hx) as [o1 Ho1].
    now exists o1, x.
  - intros o x Hx. destruct (Hfwd o x Hx) as [o1 Ho1].
    exists o1, x. auto.
Qed.

Lemma safe_local_kept w F G t k' m' :
  safe P w F G ->
  (forall l, i_freelist m' l <> KOKKOS_MEMPOOLLIST_LOCK ->
     i_freelist m' l = i_freelist (bmem (cfg w)) l) ->
  writes_within P F (held w) G (InCall t) (bmem (cfg w)) m' ->
  (forall l, i_freelist m' l = KOKKOS_MEMPOOLLIST_LOCK ->
     holds k' l \/
     (i_freelist (bmem (cfg w)) l = KOKKOS_MEMPOOLLIST_LOCK /\
      ~ holds_list (bthr (cfg w) t) l)) ->
  sys_inv (view_config
             {| bmem := m';
                bthr := fun u => if Nat.eqb u t then Some k'
                                 else bthr (cfg w) u |}) ->
  thread_ok P (view m') F (asked w t) (G t) (Some k') ->
  exists F' G',
    safe P {| cfg := {| bmem := m';
                        bthr := fun u => if Nat.eqb u t then Some k'
                                         else bthr (cfg w) u |};
              held := held w; asked := asked w |} F' G' /\
    conserves P F (held w) G F' (held w) G'.
Proof.
  intros Hs Hheads Hw Hlocked Hsys Hok. exists F, G.
  split; [now apply safe_local | apply conserves_refl].
Qed.

(** Blocks that change owner: the new state has one owner per block, all
    blocks in the arena and no overlap, as the old one has. *)
Lemma moved_ok w F G F' O' G' (M : block -> Prop) o2 :
  safe P w F G ->
  (forall x, M x -> exists o, owns F (held w) G o x) ->
  (forall o x, owns F' O' G' o x ->
     (owns F (held w) G o x /\ ~ M x) \/ (M x /\ o = o2)) ->
  (forall o o' x, owns F' O' G' o x -> owns F' O' G' o' x -> o = o') /\
  (forall o x, owns F' O' G' o x -> in_pool P x) /\
  (forall o o' x y, owns F' O' G' o x -> owns F' O' G' o' y -> x <> y ->
     disjoint P x y).
Proof.
  intros Hs HM Hnew. split; [|split].
  - intros o o' x Hx Hx'.
    destruct (Hnew o x Hx) as [[Hold Hn]|[Hm ->]];
      destruct (Hnew o' x Hx') as [[Hold' Hn']|[Hm' ->]];
      try contradiction; auto.
    eapply s_one_owner; eauto.
  - intros o x Hx. destruct (Hnew o x Hx) as [[Hold _]|[Hm _]].
    + eapply s_in_pool; eauto.
    + destruct (HM x Hm) as [o1 Ho1]. eapply s_in_pool; eauto.
  - intros o o' x y Hx Hy Hne.
    assert (Hxo : exists o1, owns F (held w) G o1 x).
    { destruct (Hnew o x Hx) as [[Hold _]|[Hm _]]; eauto. }
    assert (Hyo : exists o1, owns F (held w) G o1 y).
    { destruct (Hnew o' y Hy) as [[Hold _]|[Hm _]]; eauto. }
    destruct Hxo as [o1 Hx1]. destruct Hyo as [o1' Hy1].
    eapply s_disjoint; eauto.
Qed.

(** The unlocking compare-and-swap, line 174: the head leaves the list and
    belongs to the thread. *)
Lemma safe_unlock w F G t e l a hn :
  safe P w F G ->
  bthr (cfg w) t = Some (AllocUnlock e l a hn) ->
  sys_inv (view_config {| bmem := set_head (bmem (cfg w)) l hn;
             bthr := fun u => if Nat.eqb u t then Some (AllocClear e l a)
                             else bthr (cfg w) u |}) ->
  exists F' G',
    safe P {| cfg := {| bmem := set_head (bmem (cfg w)) l hn;
                        bthr := fun u => if Nat.eqb u t
                                        then Some (AllocClear e l a)
                                        else bthr (cfg w) u |};
              held := held w; asked := asked w |} F' G' /\
    conserves P F (held w) G F' (held w) G'.
Proof.
  intros Hs Ht Hsys.
  pose proof (s_thread P w F G Hs t) as Hok. rewrite Ht in Hok. simpl in Hok.
  destruct Hok as [Hg [He [Hl [Hnz [Hch Hhn]]]]].
  destruct (F l) as [|a' rest] eqn:HF; simpl in Hch; [contradiction|].
  destruct Hch as [<- [_ [Hnl Hrest]]].
  pose proof (s_nodup_list P w F G Hs l) as Hnd. rewrite HF in Hnd.
  apply NoDup_cons_iff in Hnd. destruct Hnd as [Hnotin Hnd].
  assert (Hfree : owns F (held w) G OnList (a, l)).
  { simpl. unfold free_in. simpl. rewrite HF. now left. }
  set (F' := set_list F l rest). set (G' := set_call G t [(a, l)]).
  assert (Hnew : forall o x, owns F' (held w) G' o x ->
            (owns F (held w) G o x /\ ~ (x = (a, l))) \/
            (x = (a, l) /\ o = InCall t)).
  { intros o x Hx. unfold G' in Hx. apply owns_set_call in Hx.
    destruct Hx as [[-> Hin]|[Hne Hx]].
    - right. destruct Hin as [<-|[]]. auto.
    - left. destruct o as [| |u]; simpl in Hx |- *.
      + unfold free_in, F', set_list in Hx.
        destruct (Nat.eqb (snd x) l) eqn:E.
        * apply Nat.eqb_eq in E. split.
          -- unfold free_in. rewrite E, HF. now right.
          -- intros ->. simpl in Hx. contradiction.
        * apply Nat.eqb_neq in E. split; [exact Hx|].
          intros ->. simpl in E. congruence.
      + split; [exact Hx|]. intros ->.
        pose proof (s_one_owner P w F G Hs OnList ByClient _ Hfree Hx).
        discriminate.
      + split; [exact Hx|]. intros ->.
        pose proof (s_one_owner P w F G Hs OnList (InCall u) _ Hfree Hx).
        discriminate. }
  destruct (moved_ok w F G F' (held w) G' (fun x => x = (a, l)) (InCall t) Hs)
    as [Hone [Hpool Hdis]]; auto.
  { intros x ->. eauto. }
  exists F', G'. split.
  2:{ apply conserves_same_blocks.
      - intros o x Hx. destruct (Hnew o x Hx) as [[Hold _]|[-> _]]; eauto.
      - intros o x Hx. destruct (block_eq_dec x (a, l)) as [->|Hne].
        + exists (InCall t). unfold G'. apply owns_set_call. left.
          split; [reflexivity | now left].
        + exists o. unfold G'. apply owns_set_call. right.
          destruct o as [| |u]; simpl in Hx |- *.
          * split; [discriminate|]. unfold free_in, F', set_list.
            destruct (Nat.eqb (snd x) l) eqn:E; [|exact Hx].
            apply Nat.eqb_eq in E. unfold free_in in Hx.
            rewrite E, HF in Hx. destruct Hx as [Hx|Hx]; [|exact Hx].
            exfalso. apply Hne. rewrite (block_eta x). congruence.
          * split; [discriminate | exact Hx].
          * split; [|exact Hx]. intros Heq. inversion Heq; subst u.
            rewrite Hg in Hx. contradiction. }
  constructor; simpl; auto.
  - intros i Hi Hnl'. unfold F', set_list. destruct (Nat.eqb i l) eqn:E.
    + apply chain_ext with (sh := view (bmem (cfg w))); [reflexivity|].
      rewrite Hhn. exact Hrest.
    + apply chain_ext with (sh := view (bmem (cfg w))); [reflexivity|].
      apply (s_chain P w F G Hs); auto.
  - intros i Hi Hlk. destruct (Nat.eqb i l) eqn:E.
    + exfalso. apply (chain_head_not_locked _ _ _ Hrest).
      rewrite <- Hhn. exact Hlk.
    + destruct (s_locked P w F G Hs i Hi Hlk) as [u Hu]. exists u.
      destruct (Nat.eqb u t) eqn:E'; [|exact Hu].
      apply Nat.eqb_eq in E'. subst u. rewrite Ht in Hu. simpl in Hu.
      subst i. rewrite Nat.eqb_refl in E. discriminate.
  - intros i. unfold F', set_list. destruct (Nat.eqb i l) eqn:E; auto.
    apply (s_nodup_list P w F G Hs).
  - apply (s_nodup_held P w F G Hs).
  - intros u. unfold G', set_call. destruct (Nat.eqb u t); auto.
    + constructor; [simpl; tauto | constructor].
    + apply (s_nodup_call P w F G Hs).
  - intros u. unfold G', set_call. destruct (Nat.eqb u t) eqn:E.
    + apply Nat.eqb_eq in E. subst u. simpl. repeat split; auto; lia.
    + apply Nat.eqb_neq in E.
      apply (others_ok w F G ByClient); try discriminate; auto.
      * apply writes_none. reflexivity.
      * intros i Hi. unfold F', set_list.
        destruct (Nat.eqb i l) eqn:E'; [|reflexivity].
        apply Nat.eqb_eq in E'. subst i. exfalso. apply E.
        destruct (s_sys P w F G Hs) as [Hlock _].
        destruct (bthr (cfg w) u) as [ku|] eqn:Hu; [|contradiction].
        destruct (Hlock t _ l Ht eq_refl) as [_ Huniq].
        eapply Huniq; eauto.
Qed.

(** The end of the linking loop, line 248: the chunk becomes the piece that
    is returned and the pieces that go to the list of the fitting class. *)
Lemma safe_split_done w F G t e p n i :
  safe P w F G ->
  bthr (cfg w) t = Some (AllocSplit e p n i) ->
  (i <? n) = false ->
  sys_inv (view_config {| bmem := bmem (cfg w);
             bthr := fun u =>
               if Nat.eqb u t
               then Some (InsertRead (wrap (p + chunk_size P e))
                            (wrap (p + (n - 1) * chunk_size P e)) e (Ptr p))
               else bthr (cfg w) u |}) ->
  exists F' G',
    safe P {| cfg := {| bmem := bmem (cfg w);
                        bthr := fun u =>
                          if Nat.eqb u t
                          then Some (InsertRead (wrap (p + chunk_size P e))
                                       (wrap (p + (n - 1) * chunk_size P e))
                                       e (Ptr p))
                          else bthr (cfg w) u |};
              held := held w; asked := asked w |} F' G' /\
    conserves P F (held w) G F' (held w) G'.
Proof.
  intros Hs Ht Hlast Hsys.
  pose proof (s_thread P w F G Hs t) as Hok. rewrite Ht in Hok. simpl in Hok.
  destruct Hok as [l [Hg [He [Hl [Hn [Hi Hlinks]]]]]].
  apply Z.ltb_ge in Hlast. assert (i = n) by lia. subst i. clear Hlast.
  set (sz := chunk_size P e) in *.
  assert (Hown : owns F (held w) G (InCall t) (p, l)).
  { simpl. rewrite Hg. now left. }
  pose proof (s_in_pool P w F G Hs _ _ Hown) as Hpool.
  destruct (in_pool_address P table arena _ Hpool) as [Hp [Hend _]].
  simpl in Hp, Hend. destruct Hpool as [_ [Hlo Hhi]]. simpl in Hlo, Hhi.
  assert (Hsz : 0 < sz < modulus) by (apply chunk_size_pos; auto; lia).
  assert (Hcl : 0 < chunk_size P l) by (apply chunk_size_pos; auto; lia).
  assert (Hmul : n * sz <= chunk_size P l).
  { pose proof (Z.mul_div_le (chunk_size P l) sz ltac:(lia)) as Hmd.
    rewrite <- Hn in Hmd. lia. }
  set (subs := sub_chunks p sz (Z.to_nat n)).
  assert (Hsubs : forall a, In a subs ->
            exists j, 1 <= j < n /\ a = p + j * sz).
  { intros a Ha. unfold subs, sub_chunks in Ha. apply in_map_iff in Ha.
    destruct Ha as [j [<- Hj]]. apply in_seq in Hj.
    exists (Z.of_nat j). split; [lia | reflexivity]. }
  set (g := map (fun a => (a, e)) subs ++ [(p, e)]).
  set (G' := set_call G t g).
  assert (Hpieces : forall x, In x g ->
            exists j, 0 <= j < n /\ x = (p + j * sz, e)).
  { intros x Hx. unfold g in Hx. apply in_app_or in Hx.
    destruct Hx as [Hx|[<-|[]]].
    - apply in_map_iff in Hx. destruct Hx as [a [<- Ha]].
      destruct (Hsubs a Ha) as [j [Hj ->]]. exists j. split; [lia | auto].
    - exists 0. split; [lia|]. f_equal. lia. }
  assert (Houtside : forall o y, owns F (held w) G o y -> y <> (p, l) ->
            fst y + chunk_size P (snd y) <= p \/ p + chunk_size P l <= fst y).
  { intros o y Hy Hne.
    destruct (s_disjoint P w F G Hs _ _ (p, l) y Hown Hy (not_eq_sym Hne))
      as [H|H]; simpl in H; lia. }
  assert (Hkept : forall o y, o <> InCall t -> owns F (held w) G o y ->
            y <> (p, l)).
  { intros o y Ho Hy ->. apply Ho. symmetry.
    eapply s_one_owner; eauto. }
  assert (Hall : forall j, 0 <= j < n -> In (p + j * sz, e) g).
  { intros j Hj. unfold g. apply in_or_app.
    destruct (Z.eq_dec j 0) as [->|Hj0].
    - right. left. f_equal. lia.
    - left. apply (in_map (fun a => (a, e)) subs (p + j * sz)).
      unfold subs, sub_chunks. apply in_map_iff.
      exists (Z.to_nat j). split; [f_equal; lia|]. apply in_seq. lia. }
  exists F, G'. split.
  2:{ split; [|split].
      3:{ intros o x Hx. destruct (block_eq_dec x (p, l)) as [->|Hne].
          - exists (InCall t), (p + 0 * sz, e). split.
            + unfold G'. apply owns_set_call. left. split; [reflexivity|].
              apply Hall. lia.
            + simpl. split; lia.
          - exists o, x. split; [|auto]. unfold G'.
            apply owns_set_call. right. split; [|exact Hx].
            intros ->. simpl in Hx. rewrite Hg in Hx.
            destruct Hx as [Hx|[]]. now apply Hne. }
      - intros b [o [x [Hx Hb]]]. unfold G' in Hx.
        apply owns_set_call in Hx. destruct Hx as [[-> Hin]|[_ Hx]].
        + exists (InCall t), (p, l). split; [exact Hown|].
          destruct (Hpieces x Hin) as [j [Hj ->]].
          apply within_iff in Hb. apply within_iff. simpl in Hb |- *.
          fold sz in Hb. nia.
        + now exists o, x.
      - intros Heven b [o [x [Hx Hb]]].
        destruct (block_eq_dec x (p, l)) as [->|Hne].
        + pose proof (Heven e l ltac:(lia)) as Hmod. fold sz in Hmod.
          assert (Hfull : chunk_size P l = n * sz).
          { rewrite Hn. rewrite (Z.div_mod (chunk_size P l) sz) at 1 by lia.
            rewrite Hmod. lia. }
          apply within_iff in Hb. simpl in Hb.
          exists (InCall t), (p + (b - p) / sz * sz, e). split.
          * unfold G'. apply owns_set_call. left. split; [reflexivity|].
            apply Hall. split; [apply Z.div_pos; lia|].
            apply Z.div_lt_upper_bound; lia.
          * apply within_iff. simpl. fold sz.
            pose proof (Z.div_mod (b - p) sz ltac:(lia)) as Hdm.
            pose proof (Z.mod_pos_bound (b - p) sz ltac:(lia)) as Hmb.
            lia.
        + exists o, x. split; [|exact Hb]. unfold G'.
          apply owns_set_call. right. split; [|exact Hx].
          intros ->. simpl in Hx. rewrite Hg in Hx.
          destruct Hx as [Hx|[]]. now apply Hne. }
  constructor; simpl.
  - exact Hsys.
  - apply (s_chain P w F G Hs).
  - apply (locked_kept w F G t _ (i_freelist (bmem (cfg w))) Hs); auto.
    intros j. rewrite Ht. simpl. tauto.
  - apply (s_nodup_list P w F G Hs).
  - apply (s_nodup_held P w F G Hs).
  - intros u. unfold G', set_call. destruct (Nat.eqb u t);
      [|apply (s_nodup_call P w F G Hs)].
    unfold g. change [(p, e)] with (map (fun a => (a, e)) [p]).
    rewrite <- map_app. apply NoDup_map_injective.
    + intros a b Hab. now inversion Hab.
    + apply NoDup_app.
      * apply NoDup_sub_chunks. lia.
      * constructor; [simpl; tauto | constructor].
      * intros a Ha [<-|[]]. destruct (Hsubs _ Ha) as [j [Hj Heq]]. nia.
  - intros o o' x Hx Hx'. unfold G' in Hx, Hx'.
    apply owns_set_call in Hx. apply owns_set_call in Hx'.
    destruct Hx as [[-> Hin]|[Hne Hx]]; destruct Hx' as [[-> Hin']|[Hne' Hx']];
      auto.
    + exfalso. destruct (Hpieces x Hin) as [j [Hj ->]].
      pose proof (in_pool_size P table _ (s_in_pool P w F G Hs _ _ Hx')) as Hxs.
      simpl in Hxs. fold sz in Hxs.
      destruct (Houtside o' _ Hx' (Hkept _ _ Hne' Hx')) as [H|H];
        simpl in H; fold sz in H; nia.
    + exfalso. destruct (Hpieces x Hin') as [j [Hj ->]].
      pose proof (in_pool_size P table _ (s_in_pool P w F G Hs _ _ Hx)) as Hxs.
      simpl in Hxs. fold sz in Hxs.
      destruct (Houtside o _ Hx (Hkept _ _ Hne Hx)) as [H|H];
        simpl in H; fold sz in H; nia.
    + eapply s_one_owner; eauto.
  - intros o x Hx. unfold G' in Hx. apply owns_set_call in Hx.
    destruct Hx as [[-> Hin]|[Hne Hx]].
    + destruct (Hpieces x Hin) as [j [Hj ->]].
      unfold in_pool. simpl. fold sz. split; [lia|]. split; nia.
    + eapply s_in_pool; eauto.
  - intros o o' x y Hx Hy Hxy. unfold G' in Hx, Hy.
    apply owns_set_call in Hx. apply owns_set_call in Hy.
    destruct Hx as [[-> Hin]|[Hne Hx]]; destruct Hy as [[-> Hin']|[Hne' Hy]].
    + destruct (Hpieces x Hin) as [j [Hj ->]].
      destruct (Hpieces y Hin') as [j' [Hj' ->]].
      unfold disjoint. simpl. fold sz.
      assert (j <> j') by (intros ->; now apply Hxy). nia.
    + destruct (Hpieces x Hin) as [j [Hj ->]].
      apply disjoint_inside with (y := (p, l)); simpl; fold sz; try nia.
      eapply s_disjoint; eauto. apply not_eq_sym. eapply Hkept; eauto.
    + destruct (Hpieces y Hin') as [j [Hj ->]].
      apply disjoint_sym.
      apply disjoint_inside with (y := (p, l)); simpl; fold sz; try nia.
      eapply s_disjoint; eauto. apply not_eq_sym. eapply Hkept; eauto.
    + eapply s_disjoint; eauto.
  - intros u. unfold G', set_call. destruct (Nat.eqb u t) eqn:E.
    + apply Nat.eqb_eq in E. subst u. simpl. exists subs.
      repeat split; auto.
      rewrite (wrap_small (p + sz)) by nia.
      rewrite (wrap_small (p + (n - 1) * sz)) by nia.
      unfold subs, sub_chunks.
      replace (p + sz) with (p + Z.of_nat 1 * sz) by lia.
      replace (p + (n - 1) * sz)
        with (p + Z.of_nat (1 + (Z.to_nat n - 1) - 1) * sz)
        by (f_equal; f_equal; lia).
      apply segment_sub_chunks.
      * intros j Hj. unfold KOKKOS_MEMPOOLLIST_LOCK. split; nia.
      * intros j Hj Hj'.
        replace (p + Z.of_nat j * sz)
          with (p + (Z.of_nat (S j) - 1) * sz) by (f_equal; lia).
        apply Hlinks. lia.
      * lia.
    + apply Nat.eqb_neq in E.
      apply (others_ok w F G ByClient); try discriminate; auto.
      apply writes_none. reflexivity.
Qed.

Lemma NoDup_app_apart (A : Type) (xs ys : list A) (a : A) :
  NoDup (xs ++ ys) -> In a xs -> In a ys -> False.
Proof.
  induction xs as [|x xs IH]; simpl; intros Hnd Hx Hy; [contradiction|].
  apply NoDup_cons_iff in Hnd. destruct Hnd as [Hnotin Hnd].
  destruct Hx as [->|Hx]; [|now apply IH].
  apply Hnotin. apply in_or_app. now right.
Qed.

(** The compare-and-swap of [insert_list] that succeeds, line 116: the
    chunks of the segment are on the list. *)
Lemma safe_linked w F G t h tl l oh r :
  safe P w F G ->
  bthr (cfg w) t = Some (InsertCAS h tl l oh r) ->
  i_freelist (bmem (cfg w)) l = oh ->
  sys_inv (view_config {| bmem := set_head (bmem (cfg w)) l h;
             bthr := fun u => if Nat.eqb u t then Some (Done (Return r))
                             else bthr (cfg w) u |}) ->
  exists F' G',
    safe P {| cfg := {| bmem := set_head (bmem (cfg w)) l h;
                        bthr := fun u => if Nat.eqb u t
                                        then Some (Done (Return r))
                                        else bthr (cfg w) u |};
              held := held w; asked := asked w |} F' G' /\
    conserves P F (held w) G F' (held w) G'.
Proof.
  intros Hs Ht Hhead Hsys.
  pose proof (s_thread P w F G Hs t) as Hok. rewrite Ht in Hok. simpl in Hok.
  destruct Hok as [nodes [Hseg [Hg [Hl Hoh]]]].
  assert (Hpc : pc_ok (InsertCAS h tl l oh r)).
  { destruct (s_sys P w F G Hs) as [_ [_ Hpcs]]. eapply Hpcs; eauto. }
  simpl in Hpc. destruct Hpc as [Hnl Hret].
  pose proof (s_nodup_call P w F G Hs t) as Hnd. rewrite Hg in Hnd.
  assert (Hmine : forall a, In a nodes -> owns F (held w) G (InCall t) (a, l)).
  { intros a Ha. simpl. rewrite Hg. apply in_or_app. left.
    apply in_map_iff. eauto. }
  assert (Hlen : (l < length (m_chunk_size P))%nat).
  { destruct (segment_nonempty _ _ _ _ Hseg) as [a [rest ->]].
    pose proof (s_in_pool P w F G Hs _ _ (Hmine a (or_introl eq_refl))) as Hp.
    destruct Hp as [Hp _]. exact Hp. }
  set (M := fun x : block => In x (map (fun a => (a, l)) nodes)).
  assert (HM : forall x, M x -> owns F (held w) G (InCall t) x).
  { intros x Hx. simpl. rewrite Hg. apply in_or_app. now left. }
  set (F' := set_list F l (nodes ++ F l)).
  set (G' := set_call G t (ret_block r l)).
  assert (Hnew : forall o x, owns F' (held w) G' o x ->
            (owns F (held w) G o x /\ ~ M x) \/ (M x /\ o = OnList)).
  { intros o x Hx. unfold G' in Hx. apply owns_set_call in Hx.
    destruct Hx as [[-> Hin]|[Hne Hx]].
    - left. split.
      + simpl. rewrite Hg. apply in_or_app. now right.
      + intros Hm. eapply NoDup_app_apart; eauto.
    - destruct o as [| |u]; simpl in Hx.
      + unfold free_in, F', set_list in Hx.
        destruct (Nat.eqb (snd x) l) eqn:E.
        * apply Nat.eqb_eq in E. apply in_app_or in Hx.
          destruct Hx as [Hx|Hx].
          -- right. split; [|reflexivity]. unfold M. apply in_map_iff.
             exists (fst x). split; [|exact Hx].
             rewrite <- E. symmetry. apply block_eta.
          -- left. assert (Hf : owns F (held w) G OnList x).
             { simpl. unfold free_in. now rewrite E. }
             split; [exact Hf|]. intros Hm.
             pose proof (s_one_owner P w F G Hs _ _ _ Hf (HM x Hm)).
             discriminate.
        * left. split; [exact Hx|]. intros Hm. unfold M in Hm.
          apply in_map_iff in Hm. destruct Hm as [a [<- _]].
          simpl in E. now rewrite Nat.eqb_refl in E.
      + left. split; [exact Hx|]. intros Hm.
        pose proof (s_one_owner P w F G Hs ByClient _ _ Hx (HM x Hm)).
        discriminate.
      + left. split; [exact Hx|]. intros Hm.
        pose proof (s_one_owner P w F G Hs (InCall u) _ _ Hx (HM x Hm)).
        congruence. }
  destruct (moved_ok w F G F' (held w) G' M OnList Hs)
    as [Hone [Hpool Hdis]]; auto.
  { intros x Hx. eauto. }
  exists F', G'. split.
  2:{ apply conserves_same_blocks.
      - intros o x Hx. destruct (Hnew o x Hx) as [[Hold _]|[Hm _]]; eauto.
      - intros o x Hx. destruct o as [| |u]; simpl in Hx.
        + exists OnList. simpl. unfold free_in, F', set_list.
          destruct (Nat.eqb (snd x) l) eqn:E; [|exact Hx].
          apply Nat.eqb_eq in E. unfold free_in in Hx. rewrite E in Hx.
          apply in_or_app. now right.
        + exists ByClient. exact Hx.
        + destruct (Nat.eq_dec u t) as [->|Hut].
          * rewrite Hg in Hx. apply in_app_or in Hx.
            destruct Hx as [Hx|Hx].
            -- exists OnList. apply in_map_iff in Hx.
               destruct Hx as [a [<- Ha]]. simpl.
               unfold free_in, F', set_list. simpl.
               rewrite Nat.eqb_refl. apply in_or_app. now left.
            -- exists (InCall t). unfold G'. apply owns_set_call.
               left. now split.
          * exists (InCall u). unfold G'. apply owns_set_call.
            right. split; [congruence | exact Hx]. }
  constructor; simpl; auto.
  - intros i Hi Hnl'. unfold F', set_list. destruct (Nat.eqb i l) eqn:E.
    + apply Nat.eqb_eq in E. subst i.
      apply chain_ext with (sh := view (bmem (cfg w))); [reflexivity|].
      apply segment_chain with (t := tl) (old := oh); auto.
      rewrite <- Hhead. apply (s_chain P w F G Hs); auto. congruence.
    + apply chain_ext with (sh := view (bmem (cfg w))); [reflexivity|].
      apply (s_chain P w F G Hs); auto.
  - apply (locked_kept w F G t _
             (i_freelist (set_head (bmem (cfg w)) l h)) Hs).
    + intros j. rewrite Ht. simpl. tauto.
    + intros j Hj. simpl in Hj. destruct (Nat.eqb j l); [|exact Hj].
      exfalso. destruct nodes as [|a rest]; simpl in Hseg; [contradiction|].
      destruct Hseg as [Hh [_ [Hn _]]]. congruence.
  - intros i. unfold F', set_list. destruct (Nat.eqb i l) eqn:E;
      [|apply (s_nodup_list P w F G Hs)].
    apply NoDup_app.
    + apply NoDup_app_remove_r in Hnd. now apply NoDup_map_inv in Hnd.
    + apply (s_nodup_list P w F G Hs).
    + intros a Ha Hf.
      assert (Hfree : owns F (held w) G OnList (a, l)) by exact Hf.
      pose proof (s_one_owner P w F G Hs _ _ _ Hfree (Hmine a Ha)).
      discriminate.
  - apply (s_nodup_held P w F G Hs).
  - intros u. unfold G', set_call. destruct (Nat.eqb u t);
      [|apply (s_nodup_call P w F G Hs)].
    now apply NoDup_app_remove_l in Hnd.
  - intros u. unfold G', set_call. destruct (Nat.eqb u t) eqn:E.
    + apply Nat.eqb_eq in E. subst u. simpl. destruct r as [p|]; simpl; auto.
      assert (Hp : owns F (held w) G (InCall t) (p, l)).
      { simpl. rewrite Hg. apply in_or_app. right. now left. }
      pose proof (s_in_pool P w F G Hs _ _ Hp) as Hin.
      destruct (in_pool_address P table arena _ Hin) as [_ [_ [Hnz _]]].
      simpl in Hnz. apply Z.eqb_neq in Hnz. rewrite Hnz. now rewrite Hl.
    + apply Nat.eqb_neq in E.
      apply (others_ok w F G ByClient); try discriminate; auto.
      * apply writes_none. reflexivity.
      * intros i Hi. unfold F', set_list.
        destruct (Nat.eqb i l) eqn:E'; [|reflexivity].
        apply Nat.eqb_eq in E'. subst i. exfalso.
        destruct (s_sys P w F G Hs) as [Hlock _].
        destruct (bthr (cfg w) u) as [ku|] eqn:Hu; [|contradiction].
        destruct (Hlock u ku l Hu Hi) as [Hlocked _]. simpl in Hlocked.
        congruence.
Qed.

(** A link stored inside a block writes within that block. *)
Lemma store_within F O G o m a v x :
  owns F O G o x -> inside P a x = true ->
  writes_within P F O G o m (store_link m a v).
Proof.
  intros Hx Ha b Hb. specialize (Hb x Hx).
  apply inside_iff in Ha. apply byte_store_other.
  destruct (Z_lt_ge_dec b a) as [|Hge]; [now left | right].
  destruct (Z_lt_ge_dec b (a + link_size)) as [Hlt|]; [exfalso | lia].
  assert (Hin : within P b x = true) by (apply within_iff; lia).
  congruence.
Qed.

(** A step writes only within blocks that its thread has: the link of the
    chunk it removed, the links of the pieces of the chunk it splits, the
    link of the tail it inserts. *)
Lemma step_writes_own w F G t k m' k' :
  safe P w F G -> bthr (cfg w) t = Some k ->
  byte_step P (bmem (cfg w)) k = (m', k') ->
  writes_within P F (held w) G (InCall t) (bmem (cfg w)) m'.
Proof.
  intros Hs Ht Hstep.
  pose proof (s_thread P w F G Hs t) as Hok. rewrite Ht in Hok.
  destruct k as [s' | e n l | e n l | e n l oh | e l oh | e l oh hn
                | e l oh | e p n i | h tl l r | h tl l oh r | h tl l oh r
                | p s' | o]; simpl in Hstep, Hok;
    try (step_cases; apply writes_none; reflexivity).
  - (* line 189 *)
    destruct Hok as [Hg _].
    assert (Hown : owns F (held w) G (InCall t) (oh, l)).
    { simpl. rewrite Hg. now left. }
    pose proof (inside_start _ (s_in_pool P w F G Hs _ _ Hown)) as Hin.
    simpl in Hin.
    step_cases; eapply store_within; eauto.
  - (* line 242 *)
    destruct (i <? n) eqn:E; [|inversion Hstep; subst; apply writes_none;
                               reflexivity].
    destruct Hok as [l [Hg [He [Hl [Hn [Hi Hlinks]]]]]].
    apply Z.ltb_lt in E. set (sz := chunk_size P e) in *.
    assert (Hown : owns F (held w) G (InCall t) (p, l)).
    { simpl. rewrite Hg. now left. }
    pose proof (s_in_pool P w F G Hs _ _ Hown) as Hpool.
    destruct (in_pool_address P table arena _ Hpool) as [Hp [Hend _]].
    simpl in Hp, Hend.
    assert (Hsz : 0 < sz < modulus) by (apply chunk_size_pos; auto; lia).
    assert (Hlk : link_size <= sz) by (apply chunk_size_link; lia).
    assert (Hcl : 0 < chunk_size P l) by (apply chunk_size_pos; auto; lia).
    assert (Hmul : n * sz <= chunk_size P l).
    { pose proof (Z.mul_div_le (chunk_size P l) sz ltac:(lia)) as Hmd.
      rewrite <- Hn in Hmd. lia. }
    rewrite (wrap_small (p + (i - 1) * sz)) in Hstep by nia.
    inversion Hstep; subst m' k'.
    eapply store_within; [exact Hown|].
    apply inside_iff. simpl. nia.
  - (* line 108 *)
    destruct Hok as [nodes [Hseg [Hg Hl]]].
    inversion Hstep; subst m' k'.
    assert (Hown : owns F (held w) G (InCall t) (tl, l)).
    { simpl. rewrite Hg. apply in_or_app. left. apply in_map_iff.
      exists tl. split; [reflexivity|]. eapply segment_last; eauto. }
    pose proof (inside_start _ (s_in_pool P w F G Hs _ _ Hown)) as Hin.
    simpl in Hin.
    eapply store_within; eauto.
Qed.

(** The head of a list that is not locked is a word. *)
Lemma head_word w F G l :
  safe P w F G -> (l < length (m_chunk_size P))%nat ->
  i_freelist (bmem (cfg w)) l <> KOKKOS_MEMPOOLLIST_LOCK ->
  0 <= i_freelist (bmem (cfg w)) l < modulus.
Proof.
  intros Hs Hl Hnl. pose proof (s_chain P w F G Hs l Hl Hnl) as Hch.
  destruct (F l) as [|a rest] eqn:HF; simpl in Hch.
  - rewrite Hch. unfold modulus. lia.
  - destruct Hch as [Hh _]. rewrite Hh.
    assert (Hfree : owns F (held w) G OnList (a, l)).
    { simpl. unfold free_in. simpl. rewrite HF. now left. }
    pose proof (s_in_pool P w F G Hs _ _ Hfree) as Hpool.
    destruct (in_pool_address P table arena _ Hpool) as [Hp [Hend _]].
    pose proof (in_pool_size P table _ Hpool). simpl in *. lia.
Qed.

(** The links at the starts of two blocks of a thread share no byte. *)
Lemma starts_apart w F G o o' x y :
  safe P w F G ->
  owns F (held w) G o x -> owns F (held w) G o' y -> fst x <> fst y ->
  apart (fst x) (fst y).
Proof.
  intros Hs Hx Hy Hne.
  assert (Hxy : x <> y) by congruence.
  pose proof (chunk_size_link _ (proj1 (s_in_pool P w F G Hs _ _ Hx))).
  pose proof (chunk_size_link _ (proj1 (s_in_pool P w F G Hs _ _ Hy))).
  unfold apart.
  destruct (s_disjoint P w F G Hs o o' x y Hx Hy Hxy); lia.
Qed.

(** The step changes no list head and the thread holds no list. *)
Ltac keeps_locks Ht :=
  try (let i := fresh "i" in
       let Hi := fresh "Hi" in
       intros i Hi; right; split; [exact Hi | rewrite Ht; simpl; tauto]).

Lemma safe_thread_step w F G t k m' k' :
  safe P w F G -> bthr (cfg w) t = Some k ->
  byte_step P (bmem (cfg w)) k = (m', k') ->
  exists F' G',
    safe P {| cfg := {| bmem := m';
                        bthr := fun u => if Nat.eqb u t then Some k'
                                         else bthr (cfg w) u |};
              held := held w; asked := asked w |} F' G' /\
    conserves P F (held w) G F' (held w) G'.
Proof.
  intros Hs Ht Hstep.
  assert (Hsys : sys_inv (view_config
                   {| bmem := m';
                      bthr := fun u => if Nat.eqb u t then Some k'
                                       else bthr (cfg w) u |})).
  { apply (byte_sys_inv_step P (Step t) (cfg w));
      [apply (s_sys P w F G Hs)|].
    simpl. now rewrite Ht, Hstep. }
  pose proof (step_writes_own w F G t k m' k' Hs Ht Hstep) as Hw.
  pose proof (s_thread P w F G Hs t) as Hok. rewrite Ht in Hok.
  assert (Hpc : pc_ok k).
  { destruct (s_sys P w F G Hs) as [_ [_ Hpcs]]. eapply Hpcs; eauto. }
  destruct k as [s' | e n l | e n l | e n l oh | e l oh | e l oh hn
                | e l oh | e p n i | h tl l r | h tl l oh r | h tl l oh r
                | p s' | o]; simpl in Hstep, Hok, Hpc.
  - (* entry of allocate *)
    destruct Hok as [Hg [-> Hs0]].
    destruct (KOKKOS_MEMPOOLLIST_PRINTERR P && _); inversion Hstep; subst;
      apply safe_local_kept; auto; keeps_locks Ht;
      simpl; auto.
  - (* scan, line 150 *)
    destruct Hok as [Hg [He Hl]].
    assert (Hlen : 0 < chunk_size P l -> (l < length (m_chunk_size P))%nat).
    { intros Hpos. destruct (le_lt_dec (length (m_chunk_size P)) l); auto.
      rewrite chunk_size_sentinel in Hpos by assumption. lia. }
    step_cases; apply safe_local_kept; auto; keeps_locks Ht;
      simpl; auto;
      try (rewrite Hg; reflexivity);
      repeat split; auto; try lia;
      match goal with H : (0 <? _) = true |- _ => apply Z.ltb_lt in H end;
      specialize (Hlen ltac:(assumption)); lia.
  - (* read of the head, line 155 *)
    destruct Hok as [Hg [He Hl]].
    step_cases; apply safe_local_kept; auto; keeps_locks Ht;
      simpl; auto;
      repeat split; auto; lia.
  - (* locking compare-and-swap, line 164 *)
    destruct Hok as [Hg [He Hl]]. destruct Hpc as [Hnz Hnl].
    destruct (i_freelist (bmem (cfg w)) l =? oh) eqn:E;
      inversion Hstep; subst; apply safe_local_kept; auto;
      keeps_locks Ht; simpl; auto; try (repeat split; auto; lia).
    + intros i Hi. destruct (Nat.eqb i l); [contradiction | reflexivity].
    + intros i Hi. destruct (Nat.eq_dec i l) as [->|Hne]; [now left|].
      right. apply Nat.eqb_neq in Hne. rewrite Hne in Hi.
      split; [exact Hi | rewrite Ht; simpl; tauto].
    + apply Z.eqb_eq in E. repeat split; auto; try lia.
      apply chain_ext with (sh := view (bmem (cfg w))); [reflexivity|].
      rewrite <- E. apply (s_chain P w F G Hs); [lia | congruence].
  - (* read of the head's link, line 170 *)
    destruct Hok as [Hg [He [Hl [Hnz Hch]]]].
    inversion Hstep; subst; apply safe_local_kept; auto;
      simpl; auto.
    + intros i Hi. destruct (Nat.eq_dec i l) as [->|Hne]; [now left|].
      right. split; [exact Hi | rewrite Ht; simpl; congruence].
    + repeat split; auto; lia.
  - (* unlocking compare-and-swap, line 174 *)
    assert (Hlocked : i_freelist (bmem (cfg w)) l = KOKKOS_MEMPOOLLIST_LOCK).
    { destruct (s_sys P w F G Hs) as [Hlock _].
      destruct (Hlock t _ l Ht eq_refl) as [H _]. exact H. }
    rewrite Hlocked, Z.eqb_refl in Hstep. inversion Hstep; subst.
    eapply safe_unlock; eauto.
  - (* the removed chunk's link is cleared, line 189 *)
    destruct Hok as [Hg [He Hl]]. destruct Hpc as [Hnz Hnl].
    apply Z.eqb_neq in Hnz. rewrite Hnz in Hstep. simpl in Hstep.
    destruct (e <? l)%nat eqn:E; inversion Hstep; subst;
      apply safe_local_kept; auto; keeps_locks Ht; simpl.
    + apply Nat.ltb_lt in E. exists l. repeat split; auto; try lia.
      apply Z.div_le_lower_bound.
      * apply chunk_size_pos; auto; lia.
      * pose proof (twice (find_class P (asked w t)) l ltac:(lia)). lia.
    + apply Nat.ltb_ge in E. rewrite Hnz.
      assert (l = find_class P (asked w t)) by lia. congruence.
  - (* the linking loop, lines 238-247 *)
    destruct (i <? n) eqn:E.
    + destruct Hok as [l [Hg [He [Hl [Hn [Hi Hlinks]]]]]].
      apply Z.ltb_lt in E.
      set (sz := chunk_size P e) in *.
      assert (Hown : owns F (held w) G (InCall t) (p, l)).
      { simpl. rewrite Hg. now left. }
      pose proof (s_in_pool P w F G Hs _ _ Hown) as Hpool.
      destruct (in_pool_address P table arena _ Hpool) as [Hp [Hend _]].
      simpl in Hp, Hend.
      assert (Hsz : 0 < sz < modulus) by (apply chunk_size_pos; auto; lia).
      assert (Hlk : link_size <= sz) by (apply chunk_size_link; lia).
      assert (Hcl : 0 < chunk_size P l) by (apply chunk_size_pos; auto; lia).
      assert (Hmul : n * sz <= chunk_size P l).
      { pose proof (Z.mul_div_le (chunk_size P l) sz ltac:(lia)) as Hmd.
        rewrite <- Hn in Hmd. lia. }
      rewrite (wrap_small (p + (i - 1) * sz)) in Hstep by nia.
      rewrite (wrap_small (p + i * sz)) in Hstep by nia.
      inversion Hstep; subst m' k'.
      apply safe_local_kept; auto; keeps_locks Ht.
      exists l. repeat split; auto; try lia. intros j Hj.
      change (load_link (store_link (bmem (cfg w)) (p + (i - 1) * sz)
                                    (p + i * sz))
                        (p + (j - 1) * sz) = p + j * sz).
      destruct (Z.eq_dec j i) as [->|Hne].
      * apply load_store_same. nia.
      * rewrite load_store_apart by (unfold apart; nia).
        apply Hlinks. lia.
    + inversion Hstep; subst m' k'. eapply safe_split_done; eauto.
  - (* insert_list reads the head, line 100 *)
    destruct Hok as [nodes [Hseg [Hg Hl]]].
    assert (Hlen : (l < length (m_chunk_size P))%nat).
    { destruct (segment_nonempty _ _ _ _ Hseg) as [a [rest Hn]].
      assert (Hown : owns F (held w) G (InCall t) (a, l)).
      { simpl. rewrite Hg, Hn. now left. }
      exact (proj1 (s_in_pool P w F G Hs _ _ Hown)). }
    destruct (negb (i_freelist (bmem (cfg w)) l =? KOKKOS_MEMPOOLLIST_LOCK))
      eqn:E; inversion Hstep; subst m' k';
      apply safe_local_kept; auto; keeps_locks Ht.
    + exists nodes. repeat split; auto;
        apply negb_true_iff, Z.eqb_neq in E;
        apply (head_word w F G l Hs Hlen E).
    + exists nodes. auto.
  - (* the tail is linked to the head that was read, line 108 *)
    destruct Hok as [nodes [Hseg [Hg [Hl Hoh]]]].
    inversion Hstep; subst m' k'.
    pose proof (s_nodup_call P w F G Hs t) as Hnd. rewrite Hg in Hnd.
    apply NoDup_app_remove_r in Hnd. apply NoDup_map_inv in Hnd.
    assert (Hmine : forall a, In a nodes ->
              owns F (held w) G (InCall t) (a, l)).
    { intros a Ha. simpl. rewrite Hg. apply in_or_app. left.
      apply in_map_iff. eauto. }
    apply safe_local_kept; auto; keeps_locks Ht.
    exists nodes. repeat split; auto.
    + apply segment_frame with (sh := view (bmem (cfg w))); auto.
      intros a Ha Hne. apply load_store_apart.
      apply (starts_apart w F G (InCall t) (InCall t) (tl, l) (a, l) Hs);
        auto.
      apply Hmine. eapply segment_last; eauto.
    + apply load_store_same. exact Hoh.
  - (* the compare-and-swap of insert_list, line 116 *)
    destruct (i_freelist (bmem (cfg w)) l =? oh) eqn:E.
    + apply Z.eqb_eq in E. inversion Hstep; subst m' k'.
      eapply safe_linked; eauto.
    + inversion Hstep; subst m' k'.
      apply safe_local_kept; auto; keeps_locks Ht.
      simpl. destruct Hok as [nodes [Hseg [Hg [Hl _]]]]. exists nodes. auto.
  - (* entry of deallocate *)
    destruct Hok as [Hg [-> Hs0]].
    assert (Hown : owns F (held w) G (InCall t)
                     (p, find_class P (asked w t))).
    { simpl. rewrite Hg. now left. }
    pose proof (s_in_pool P w F G Hs _ _ Hown) as Hpool.
    destruct (in_pool_address P table arena _ Hpool) as [_ [_ [Hnz Hnl]]].
    simpl in Hnz, Hnl.
    assert (Hin : (p <? m_data P)
                  || (wrap (m_data P + m_data_size P) <? wrap (p + asked w t))
                  = false).
    { destruct (in_pool_address P table arena _ Hpool) as [Hp [Hend _]].
      simpl in Hp, Hend. destruct Hpool as [Hlen [Hlo Hhi]].
      simpl in Hlen, Hlo, Hhi. destruct arena as [Hbase Hlim].
      assert (Hse : asked w t <= chunk_size P (find_class P (asked w t))).
      { pose proof (chunk_size_pos P _ table Hlen).
        destruct (find_class_spec P (asked w t)) as [_ Hstop]. lia. }
      rewrite (wrap_small (m_data P + m_data_size P)) by lia.
      rewrite (wrap_small (p + asked w t)) by lia.
      apply orb_false_iff. split; apply Z.ltb_ge; lia. }
    assert (Hcl : (chunk_size P (find_class P (asked w t)) =? 0) = false).
    { apply Z.eqb_neq. destruct Hpool as [Hlen _]. simpl in Hlen.
      pose proof (chunk_size_pos P _ table Hlen). lia. }
    rewrite Hin, Hcl, !andb_false_r in Hstep. inversion Hstep; subst m' k'.
    apply safe_local_kept; auto; keeps_locks Ht;
      simpl; auto.
    exists [p]. simpl. repeat split; auto.
  - (* the call is over *)
    inversion Hstep; subst m' k'.
    apply safe_local_kept; auto; keeps_locks Ht.
Qed.

(** A call of [allocate]. *)
Lemma safe_call_allocate w F G t s c :
  safe P w F G -> 0 <= s ->
  byte_sys_step P (CallAllocate t s) (cfg w) = Some c ->
  safe P {| cfg := c; held := held w; asked := set_asked w t s |} F G.
Proof.
  intros Hs Hs0 Hstep.
  pose proof (byte_sys_inv_step P _ _ _ (s_sys P w F G Hs) Hstep) as Hsys.
  simpl in Hstep. destruct (bthr (cfg w) t) eqn:Ht; [discriminate|].
  inversion Hstep; subst c. clear Hstep.
  pose proof (s_thread P w F G Hs t) as Hok. rewrite Ht in Hok. simpl in Hok.
  constructor; simpl; try apply Hs; auto.
  - apply (locked_kept w F G t _ (i_freelist (bmem (cfg w))) Hs); auto.
    intros j. rewrite Ht. simpl. tauto.
  - intros u. unfold set_asked. destruct (Nat.eqb u t) eqn:E.
    + apply Nat.eqb_eq in E. subst u. simpl. auto.
    + apply (s_thread P w F G Hs u).
Qed.

(** A call of [deallocate] with a block that the client holds. *)
Lemma safe_call_deallocate w F G t p s c :
  safe P w F G -> 0 <= s -> In (p, find_class P s) (held w) ->
  byte_sys_step P (CallDeallocate t p s) (cfg w) = Some c ->
  exists G',
    safe P {| cfg := c;
              held := remove block_eq_dec (p, find_class P s) (held w);
              asked := set_asked w t s |} F G' /\
    conserves P F (held w) G
      F (remove block_eq_dec (p, find_class P s) (held w)) G'.
Proof.
  intros Hs Hs0 Hheld Hstep.
  pose proof (byte_sys_inv_step P _ _ _ (s_sys P w F G Hs) Hstep) as Hsys.
  simpl in Hstep. destruct (bthr (cfg w) t) eqn:Ht; [discriminate|].
  inversion Hstep; subst c. clear Hstep.
  set (x := (p, find_class P s)) in *.
  set (O' := remove block_eq_dec x (held w)).
  set (G' := set_call G t [x]).
  assert (Hmine : owns F (held w) G ByClient x) by exact Hheld.
  assert (Hnew : forall o y, owns F O' G' o y ->
            (owns F (held w) G o y /\ ~ (y = x)) \/
            (y = x /\ o = InCall t)).
  { intros o y Hy. unfold G' in Hy. apply owns_set_call in Hy.
    destruct Hy as [[-> Hin]|[Hne Hy]].
    - right. destruct Hin as [<-|[]]. auto.
    - left. destruct o as [| |u]; simpl in Hy |- *.
      + split; [exact Hy|]. intros ->.
        pose proof (s_one_owner P w F G Hs OnList ByClient _ Hy Hmine).
        discriminate.
      + unfold O' in Hy. apply in_remove in Hy. exact Hy.
      + split; [exact Hy|]. intros ->.
        pose proof (s_one_owner P w F G Hs (InCall u) ByClient _ Hy Hmine).
        discriminate. }
  destruct (moved_ok w F G F O' G' (fun y => y = x) (InCall t) Hs)
    as [Hone [Hpool Hdis]]; auto.
  { intros y ->. eauto. }
  exists G'. split.
  2:{ apply conserves_same_blocks.
      - intros o y Hy. destruct (Hnew o y Hy) as [[Hold _]|[-> _]]; eauto.
      - intros o y Hy. destruct (block_eq_dec y x) as [->|Hne].
        + exists (InCall t). unfold G'. apply owns_set_call. left.
          split; [reflexivity | now left].
        + exists o. unfold G'. apply owns_set_call. right.
          destruct o as [| |u]; simpl in Hy |- *.
          * split; [discriminate | exact Hy].
          * split; [discriminate|]. unfold O'.
            now apply in_in_remove.
          * split; [|exact Hy]. intros Heq. inversion Heq; subst u.
            pose proof (s_thread P w F G Hs t) as Hok.
            rewrite Ht in Hok. simpl in Hok. rewrite Hok in Hy.
            contradiction. }
  constructor; simpl; auto; try apply Hs.
  - apply (locked_kept w F G t _ (i_freelist (bmem (cfg w))) Hs); auto.
    intros j. rewrite Ht. simpl. tauto.
  - apply remove_NoDup. apply (s_nodup_held P w F G Hs).
  - intros u. unfold G', set_call. destruct (Nat.eqb u t).
    + constructor; [simpl; tauto | constructor].
    + apply (s_nodup_call P w F G Hs).
  - intros u. unfold G', set_call, set_asked.
    destruct (Nat.eqb u t) eqn:E.
    + simpl. auto.
    + apply (s_thread P w F G Hs u).
Qed.

(** What the thread that leaves a call takes with it. *)
Lemma handed_is_owned w F G t r :
  safe P w F G -> bthr (cfg w) t = Some (Done (Return r)) ->
  handed P w t = G t.
Proof.
  intros Hs Ht. pose proof (s_thread P w F G Hs t) as Hok.
  unfold handed. rewrite Ht in Hok |- *. simpl in Hok.
  destruct r as [p|]; auto.
Qed.

(** The return to client code. *)
Lemma safe_leave w F G t c :
  safe P w F G ->
  byte_sys_step P (Leave t) (cfg w) = Some c ->
  exists G',
    safe P {| cfg := c; held := handed P w t ++ held w; asked := asked w |}
         F G' /\
    conserves P F (held w) G F (handed P w t ++ held w) G'.
Proof.
  intros Hs Hstep.
  pose proof (byte_sys_inv_step P _ _ _ (s_sys P w F G Hs) Hstep) as Hsys.
  simpl in Hstep.
  destruct (bthr (cfg w) t) as [[| | | | | | | | | | | |[r|m]]|] eqn:Ht;
    try discriminate.
  inversion Hstep; subst c. clear Hstep.
  rewrite (handed_is_owned w F G t r Hs Ht).
  set (O' := G t ++ held w). set (G' := set_call G t []).
  assert (HM : forall y, In y (G t) -> owns F (held w) G (InCall t) y)
    by (intros y Hy; exact Hy).
  assert (Hnew : forall o y, owns F O' G' o y ->
            (owns F (held w) G o y /\ ~ In y (G t)) \/
            (In y (G t) /\ o = ByClient)).
  { intros o y Hy. unfold G' in Hy. apply owns_set_call in Hy.
    destruct Hy as [[-> []]|[Hne Hy]].
    destruct o as [| |u]; simpl in Hy |- *.
    - left. split; [exact Hy|]. intros Hm.
      pose proof (s_one_owner P w F G Hs OnList _ _ Hy (HM y Hm)).
      discriminate.
    - unfold O' in Hy. apply in_app_or in Hy. destruct Hy as [Hy|Hy]; auto.
      left. split; [exact Hy|]. intros Hm.
      pose proof (s_one_owner P w F G Hs ByClient _ _ Hy (HM y Hm)).
      discriminate.
    - left. split; [exact Hy|]. intros Hm.
      pose proof (s_one_owner P w F G Hs (InCall u) _ _ Hy (HM y Hm)).
      congruence. }
  destruct (moved_ok w F G F O' G' (fun y => In y (G t)) ByClient Hs)
    as [Hone [Hpool Hdis]]; auto.
  { intros y Hy. eauto. }
  exists G'. split.
  2:{ apply conserves_same_blocks.
      - intros o y Hy. destruct (Hnew o y Hy) as [[Hold _]|[Hm _]]; eauto.
      - intros o y Hy. destruct o as [| |u]; simpl in Hy.
        + exists OnList. exact Hy.
        + exists ByClient. simpl. unfold O'. apply in_or_app. now right.
        + destruct (Nat.eq_dec u t) as [->|Hut].
          * exists ByClient. simpl. unfold O'. apply in_or_app. now left.
          * exists (InCall u). unfold G'. apply owns_set_call. right.
            split; [congruence | exact Hy]. }
  constructor; simpl; auto; try apply Hs.
  - apply (locked_kept w F G t _ (i_freelist (bmem (cfg w))) Hs); auto.
    intros j. rewrite Ht. simpl. tauto.
  - unfold O'. apply NoDup_app.
    + apply (s_nodup_call P w F G Hs).
    + apply (s_nodup_held P w F G Hs).
    + intros y Hy Hh.
      pose proof (s_one_owner P w F G Hs ByClient _ _ Hh (HM y Hy)).
      discriminate.
  - intros u. unfold G', set_call. destruct (Nat.eqb u t).
    + constructor.
    + apply (s_nodup_call P w F G Hs).
  - intros u. unfold G', set_call. destruct (Nat.eqb u t) eqn:E.
    + reflexivity.
    + apply (s_thread P w F G Hs u).
Qed.

(** A write of client code to a byte of a block it holds. *)
Lemma safe_client_write w F G b v :
  safe P w F G -> existsb (within P b) (held w) = true ->
  safe P {| cfg := {| bmem := poke (bmem (cfg w)) b v;
                      bthr := bthr (cfg w) |};
            held := held w; asked := asked w |} F G.
Proof.
  intros Hs Hin. apply existsb_exists in Hin. destruct Hin as [x [Hx Hbx]].
  assert (Hw : writes_within P F (held w) G ByClient (bmem (cfg w))
                 (poke (bmem (cfg w)) b v)).
  { intros b' Hb'. simpl. destruct (b' =? b) eqn:E; [|reflexivity].
    apply Z.eqb_eq in E. subst b'. specialize (Hb' x Hx). congruence. }
  assert (Hsys : sys_inv (view_config {| bmem := poke (bmem (cfg w)) b v;
                                         bthr := bthr (cfg w) |})).
  { apply (byte_sys_inv_step P (ClientWrite b v) (cfg w));
      [apply (s_sys P w F G Hs) | reflexivity]. }
  constructor; simpl; try apply Hs; auto.
  - intros l Hl Hnl.
    apply (chains_ok w F G ByClient); auto; [discriminate|].
    now apply (s_chain P w F G Hs).
  - intros u. apply (others_ok w F G ByClient); auto; discriminate.
Qed.

(** Every action of a client that keeps to the contract leaves the system
    consistent. *)
Lemma safe_step a w w' F G :
  safe P w F G -> contract_step P a w = Some w' ->
  exists F' G',
    safe P w' F' G' /\ conserves P F (held w) G F' (held w') G'.
Proof.
  intros Hs Hstep. destruct a as [t s | t p s | t | t | b v];
    unfold contract_step in Hstep.
  - destruct (0 <=? s) eqn:Hs0; [|discriminate]. apply Z.leb_le in Hs0.
    destruct (byte_sys_step P _ (cfg w)) as [c|] eqn:Hc; [|discriminate].
    inversion Hstep; subst w'. exists F, G.
    split; [now apply safe_call_allocate | apply conserves_refl].
  - destruct (0 <=? s) eqn:Hs0; [|discriminate]. apply Z.leb_le in Hs0.
    destruct (in_dec block_eq_dec (p, find_class P s) (held w)) as [Hin|];
      [|discriminate]. cbn [andb] in Hstep.
    destruct (byte_sys_step P _ (cfg w)) as [c|] eqn:Hc; [|discriminate].
    inversion Hstep; subst w'. exists F. cbn [held].
    eapply safe_call_deallocate; eauto.
  - destruct (byte_sys_step P _ (cfg w)) as [c|] eqn:Hc; [|discriminate].
    inversion Hstep; subst w'. simpl in Hc.
    destruct (bthr (cfg w) t) as [k|] eqn:Ht; [|discriminate].
    destruct (byte_step P (bmem (cfg w)) k) as [m' k'] eqn:Hk.
    inversion Hc; subst c. cbn [held]. eapply safe_thread_step; eauto.
  - destruct (byte_sys_step P _ (cfg w)) as [c|] eqn:Hc; [|discriminate].
    inversion Hstep; subst w'. exists F. cbn [held].
    eapply safe_leave; eauto.
  - destruct (existsb (within P b) (held w)) eqn:Hin; [|discriminate].
    simpl in Hstep. inversion Hstep; subst w'. exists F, G.
    split; [now apply safe_client_write | apply conserves_refl].
Qed.

Lemma safe_run acts : forall w w' F G,
  safe P w F G -> contract_run P acts w = Some w' ->
  exists F' G',
    safe P w' F' G' /\ conserves P F (held w) G F' (held w') G'.
Proof.
  induction acts as [|a rest IH]; intros w w' F G Hs Hrun; simpl in Hrun.
  - inversion Hrun; subst. exists F, G. split; [assumption|].
    apply conserves_refl.
  - destruct (contract_step P a w) as [w1|] eqn:Hstep; [|discriminate].
    destruct (safe_step a w w1 F G Hs Hstep) as [F1 [G1 [Hs1 Hc1]]].
    destruct (IH w1 w' F1 G1 Hs1 Hrun) as [F2 [G2 [Hs2 Hc2]]].
    exists F2, G2. split; [assumption|].
    eapply conserves_trans; eauto.
Qed.

(** A consistent pool with every thread in client code. *)
Lemma safe_initial m F O asked0 :
  pool_wf P (view m) F O ->
  safe P {| cfg := {| bmem := m; bthr := fun _ => None |};
            held := O; asked := asked0 |} F (fun _ => []).
Proof.
  intros Hwf. set (sh := view m) in *. constructor; simpl.
  - apply sys_inv_initial. intros t. reflexivity.
  - intros l Hl _. now apply (wf_chain P sh F O Hwf).
  - intros l Hl Hlk. exfalso.
    apply (chain_head_not_locked _ _ _ (wf_chain P sh F O Hwf l Hl)).
    exact Hlk.
  - apply (wf_nodup P sh F O Hwf).
  - apply (wf_held_once P sh F O Hwf).
  - intros t. constructor.
  - intros o o' x Hx Hx'.
    destruct o as [| |u]; destruct o' as [| |u']; simpl in Hx, Hx';
      try contradiction; auto;
      exfalso; eapply (wf_free_not_held P sh F O Hwf); eauto.
  - intros o x Hx. apply (wf_in_pool P sh F O Hwf).
    destruct o as [| |u]; simpl in Hx;
      [now left | now right | contradiction].
  - intros o o' x y Hx Hy Hne. apply (wf_disjoint P sh F O Hwf); auto.
    + destruct o as [| |u]; simpl in Hx;
        [now left | now right | contradiction].
    + destruct o' as [| |u]; simpl in Hy;
        [now left | now right | contradiction].
  - intros t. reflexivity.
Qed.

Lemma handed_sub w F G t x :
  safe P w F G -> In x (handed P w t) -> In x (G t).
Proof.
  intros Hs Hx. unfold handed in Hx.
  destruct (bthr (cfg w) t) as [[| | | | | | | | | | | |[r|m]]|] eqn:Ht;
    try contradiction.
  rewrite <- (handed_is_owned w F G t r Hs Ht). unfold handed. now rewrite Ht.
Qed.

(** One byte lies in one block only. *)
Lemma byte_one_block w F G o o' x y b :
  safe P w F G ->
  owns F (held w) G o x -> owns F (held w) G o' y ->
  within P b x = true -> within P b y = true ->
  x = y /\ o = o'.
Proof.
  intros Hs Hx Hy Hbx Hby. destruct (block_eq_dec x y) as [->|Hne].
  - split; [reflexivity|]. eapply s_one_owner; eauto.
  - exfalso. apply within_iff in Hbx. apply within_iff in Hby.
    destruct (s_disjoint P w F G Hs o o' x y Hx Hy Hne); lia.
Qed.

(** An action that spares a held block leaves it held and leaves its
    bytes as they are. *)
Lemma spared_step a w w' F G x :
  safe P w F G -> contract_step P a w = Some w' ->
  spares P x a -> In x (held w) ->
  In x (held w') /\
  forall b, within P b x = true ->
    i_byte (bmem (cfg w')) b = i_byte (bmem (cfg w)) b.
Proof.
  intros Hs Hstep Hsp Hx. destruct a as [t s | t p s | t | t | b' v];
    unfold contract_step in Hstep; simpl in Hsp.
  - destruct (0 <=? s); [|discriminate]. simpl in Hstep.
    destruct (bthr (cfg w) t); [discriminate|].
    inversion Hstep; subst w'. simpl. auto.
  - destruct ((0 <=? s) && _); [|discriminate]. simpl in Hstep.
    destruct (bthr (cfg w) t); [discriminate|].
    inversion Hstep; subst w'. simpl. split; [|auto].
    apply in_in_remove; auto.
  - simpl in Hstep. destruct (bthr (cfg w) t) as [k|] eqn:Ht; [|discriminate].
    destruct (byte_step P (bmem (cfg w)) k) as [m' k'] eqn:Hk.
    inversion Hstep; subst w'. simpl. split; [exact Hx|].
    intros b Hb. apply (step_writes_own w F G t k m' k' Hs Ht Hk).
    intros y Hy. destruct (within P b y) eqn:E; [exfalso | reflexivity].
    assert (Hmine : owns F (held w) G ByClient x) by exact Hx.
    destruct (byte_one_block w F G ByClient (InCall t) x y b Hs Hmine Hy Hb E)
      as [_ Heq].
    discriminate.
  - destruct (byte_sys_step P (Leave t) (cfg w)) as [c|] eqn:Hc;
      [|discriminate].
    inversion Hstep; subst w'. simpl. split.
    + apply in_or_app. now right.
    + simpl in Hc.
      destruct (bthr (cfg w) t) as [[| | | | | | | | | | | |[r|m]]|];
        try discriminate.
      inversion Hc; subst c. reflexivity.
  - destruct (existsb (within P b') (held w)); [|discriminate].
    simpl in Hstep. inversion Hstep; subst w'. simpl. split; [exact Hx|].
    intros b Hb. destruct (b =? b') eqn:E; [|reflexivity].
    apply Z.eqb_eq in E. subst b'. congruence.
Qed.

Lemma spared_run x acts : forall w w' F G,
  safe P w F G -> contract_run P acts w = Some w' ->
  Forall (spares P x) acts -> In x (held w) ->
  In x (held w') /\
  forall b, within P b x = true ->
    i_byte (bmem (cfg w')) b = i_byte (bmem (cfg w)) b.
Proof.
  induction acts as [|a rest IH]; intros w w' F G Hs Hrun Hall Hx;
    simpl in Hrun.
  - inversion Hrun; subst. auto.
  - destruct (contract_step P a w) as [w1|] eqn:Hstep; [|discriminate].
    inversion Hall as [|? ? Ha Hrest]; subst.
    destruct (safe_step a w w1 F G Hs Hstep) as [F1 [G1 [Hs1 _]]].
    destruct (spared_step a w w1 F G x Hs Hstep Ha Hx) as [Hx1 Hsame1].
    destruct (IH w1 w' F1 G1 Hs1 Hrun Hrest Hx1) as [Hx' Hsame'].
    split; [exact Hx'|]. intros b Hb.
    rewrite (Hsame' b Hb). now apply Hsame1.
Qed.

End Interleaved.

(** ** Sequential calls on the bytes *)

Lemma byte_steps_run P n : forall m c m' o,
  byte_steps P n m c = (m', Done o) ->
  forall fuel, (n <= fuel)%nat -> byte_run P fuel m c = Some (o, m').
Proof.
  induction n as [|n IH]; intros m c m' o Hs fuel Hle; simpl in Hs.
  - inversion Hs; subst. destruct fuel; reflexivity.
  - destruct (final c) eqn:Hf.
    + destruct c; try discriminate. simpl in Hs.
      assert (Hd : forall k mm oo, byte_steps P k mm (Done oo) = (mm, Done oo))
        by (induction k; simpl; auto).
      rewrite Hd in Hs. inversion Hs; subst. destruct fuel; reflexivity.
    + destruct fuel as [|fuel]; [lia|]. simpl. rewrite Hf.
      destruct (byte_step P m c) as [m1 c1]. apply (IH _ _ _ _ Hs). lia.
Qed.

Lemma byte_run_steps P fuel : forall m c o m',
  byte_run P fuel m c = Some (o, m') ->
  exists n, byte_steps P n m c = (m', Done o).
Proof.
  induction fuel as [|fuel IH]; intros m c o m' Hrun; simpl in Hrun.
  - destruct c; try discriminate. inversion Hrun; subst. now exists 0%nat.
  - destruct (final c) eqn:Hf.
    + destruct c; try discriminate. simpl in Hf.
      inversion Hf; subst. inversion Hrun; subst. now exists 0%nat.
    + destruct (byte_step P m c) as [m1 c1] eqn:Hs.
      destruct (IH _ _ _ _ Hrun) as [n Hn]. exists (S n).
      simpl. now rewrite Hs.
Qed.

Lemma byte_run_yields P fuel m c o m' :
  byte_run P fuel m c = Some (o, m') -> byte_yields P m c o m'.
Proof.
  intros Hrun. destruct (byte_run_steps P fuel m c o m' Hrun) as [n Hn].
  exists n. now apply byte_steps_run.
Qed.

Lemma byte_yields_det P m c o1 m1 o2 m2 :
  byte_yields P m c o1 m1 -> byte_yields P m c o2 m2 ->
  o1 = o2 /\ m1 = m2.
Proof.
  intros [n1 H1] [n2 H2].
  specialize (H1 (n1 + n2)%nat ltac:(lia)).
  specialize (H2 (n1 + n2)%nat ltac:(lia)).
  rewrite H1 in H2. now inversion H2.
Qed.

Lemma exec_steps P sh c o sh' :
  exec P sh c o sh' -> exists n, steps P n sh c = (sh', Done o).
Proof.
  induction 1 as [sh o | sh c sh1 c1 o sh' Hf Hs _ [n IH]].
  - now exists 0%nat.
  - exists (S n). simpl. now rewrite Hs.
Qed.

(** A step keeps the bytes and the word-granular memory together, and
    both take the call to the same control state. *)
Lemma follows_step P m0 m sh c m' c' sh' c'' :
  follows P m0 m sh c ->
  byte_step P m c = (m', c') -> thread_step P sh c = (sh', c'') ->
  c' = c'' /\ follows P m0 m' sh' c'.
Proof.
  intros [Hheads [Hnn Hearly]] Hb Hw.
  pose proof (nonnull_step P sh c Hnn) as Hnn'. rewrite Hw in Hnn'.
  simpl in Hnn'.
  assert (Hread : early c = true ->
            forall a, load_link m a = m_next sh a).
  { intros He a. destruct (Hearly He) as [Hbytes Hlinks].
    rewrite Hlinks. apply load_ext. intros i _. apply Hbytes. }
  destruct c; simpl in Hb, Hw, Hearly, Hread;
    try (destruct (Hearly eq_refl) as [Hbytes Hlinks]);
    try (specialize (Hread eq_refl));
    try rewrite <- !Hheads in Hw; try rewrite Hread in Hb.
  all: repeat match goal with
         | H : context [if ?b then _ else _] |- _ => destruct b eqn:?
         end.
  all: inversion Hb; inversion Hw; subst; split; [reflexivity|].
  all: split; [|split]; simpl; auto.
  all: try (intros l'; simpl; rewrite ?Hheads; reflexivity).
  all: try (intros l'; simpl; destruct (Nat.eqb l' _); auto).
  all: try discriminate.
  - intros E. apply Z.eqb_eq in E. simpl in Hnn. contradiction.
  - destruct ret as [p|]; [|discriminate].
    intros E. apply Z.eqb_eq in E. simpl in Hnn. contradiction.
Qed.

Lemma follows_steps P m0 n : forall m sh c m' c' sh' c'',
  follows P m0 m sh c ->
  byte_steps P n m c = (m', c') -> steps P n sh c = (sh', c'') ->
  c' = c'' /\ follows P m0 m' sh' c'.
Proof.
  induction n as [|n IH]; intros m sh c m' c' sh' c'' Hf Hb Hw;
    simpl in Hb, Hw.
  - inversion Hb; inversion Hw; subst. auto.
  - destruct (byte_step P m c) as [m1 c1] eqn:Hb1.
    destruct (thread_step P sh c) as [sh1 c2] eqn:Hw1.
    destruct (follows_step P m0 m sh c m1 c1 sh1 c2 Hf Hb1 Hw1) as [<- Hf1].
    exact (IH _ _ _ _ _ _ _ Hf1 Hb Hw).
Qed.

Lemma follows_start P m c :
  nonnull P c -> follows P m m (view m) c.
Proof. intros Hnn. repeat split; auto. Qed.

(** A call that ends in the word-granular memory, started on the links
    that the bytes hold, ends on the bytes after as many steps, with the
    same outcome and the same list heads; a call that fails leaves the
    bytes as they were. *)
Lemma byte_follows P m c o sh' :
  nonnull P c ->
  yields P (view m) c o sh' ->
  exists m',
    byte_yields P m c o m' /\
    (forall l, i_freelist m' l = m_freelist sh' l) /\
    (early (Done o) = true -> forall b, i_byte m' b = i_byte m b).
Proof.
  intros Hnn Hy. apply yields_exec in Hy.
  destruct (exec_steps P _ _ _ _ Hy) as [n Hn].
  destruct (byte_steps P n m c) as [m' c'] eqn:Hb.
  destruct (follows_steps P m n m (view m) c m' c' sh' (Done o)
              (follows_start P m c Hnn) Hb Hn) as [-> [Hheads [_ Hearly]]].
  exists m'. split; [|split].
  - exists n. now apply byte_steps_run.
  - exact Hheads.
  - intros He. exact (proj1 (Hearly He)).
Qed.

(** A call of [allocate] stays a call of [allocate]. *)
Lemma allocating_step P m c :
  allocating c -> allocating (snd (byte_step P m c)).
Proof.
  destruct c; simpl; intros H;
    repeat match goal with
           | |- context [if ?b then _ else _] => destruct b eqn:?
           end; simpl; auto.
Qed.

Lemma allocating_steps P n : forall m c,
  allocating c -> allocating (snd (byte_steps P n m c)).
Proof.
  induction n as [|n IH]; intros m c Hc; simpl; [exact Hc|].
  pose proof (allocating_step P m c Hc) as H1.
  destruct (byte_step P m c) as [m1 c1]. now apply IH.
Qed.

(** A call of [deallocate] is inside [insert_list], or one of its two
    tests has aborted it. *)
Lemma releasing_step P m c :
  (inserting c \/ c = Done (Abort ADDRESS_OUT_OF_RANGE) \/
   c = Done (Abort CHUNK_TOO_LARGE)) ->
  inserting (snd (byte_step P m c)) \/
  snd (byte_step P m c) = Done (Abort ADDRESS_OUT_OF_RANGE) \/
  snd (byte_step P m c) = Done (Abort CHUNK_TOO_LARGE).
Proof.
  intros [H|[->| ->]]; [|simpl; auto|simpl; auto].
  left. destruct (byte_step P m c) as [m' c'] eqn:Hs.
  destruct (byte_step_view P m c m' c' Hs) as [sh' [Hw _]].
  pose proof (inserting_step P (view m) c H) as Hi.
  now rewrite Hw in Hi.
Qed.

Lemma releasing_steps P n : forall m c,
  (inserting c \/ c = Done (Abort ADDRESS_OUT_OF_RANGE) \/
   c = Done (Abort CHUNK_TOO_LARGE)) ->
  inserting (snd (byte_steps P n m c)) \/
  snd (byte_steps P n m c) = Done (Abort ADDRESS_OUT_OF_RANGE) \/
  snd (byte_steps P n m c) = Done (Abort CHUNK_TOO_LARGE).
Proof.
  induction n as [|n IH]; intros m c Hc; simpl; [exact Hc|].
  pose proof (releasing_step P m c Hc) as H1.
  destruct (byte_step P m c) as [m1 c1]. now apply IH.
Qed.

Lemma deallocate_outcome P n m p s m' o :
  byte_steps P n m (DeallocEntry p s) = (m', Done o) ->
  o = Return Void \/ o = Abort ADDRESS_OUT_OF_RANGE \/
  o = Abort CHUNK_TOO_LARGE.
Proof.
  destruct n as [|n]; [simpl; discriminate|]. cbn [byte_steps].
  destruct (byte_step P m (DeallocEntry p s)) as [m1 c1] eqn:Hs.
  intros Hn.
  assert (H1 : inserting c1 \/ c1 = Done (Abort ADDRESS_OUT_OF_RANGE) \/
               c1 = Done (Abort CHUNK_TOO_LARGE)).
  { simpl in Hs.
    repeat match goal with
           | H : context [if ?b then _ else _] |- _ => destruct b eqn:?
           end; inversion Hs; subst; simpl; auto. }
  pose proof (releasing_steps P n m1 c1 H1) as H2. rewrite Hn in H2.
  simpl in H2. destruct H2 as [H2|[H2|H2]].
  - destruct o as [[q|]|msg]; simpl in H2; try contradiction. now left.
  - inversion H2. auto.
  - inversion H2. auto.
Qed.

Section SequentialBytes.

Variable P : MemPoolList.
Hypothesis table : table_ok P.
Hypothesis twice : doubling P.
Hypothesis arena : arena_ok P.
Hypothesis links : holds_link P.

(** Steps of one thread are actions of the interleaved system. *)
Lemma steps_as_run t n : forall w k m' k',
  bthr (cfg w) t = Some k ->
  byte_steps P n (bmem (cfg w)) k = (m', k') ->
  exists w',
    contract_run P (repeat (Step t) n) w = Some w' /\
    bmem (cfg w') = m' /\ bthr (cfg w') t = Some k' /\
    (forall u, u <> t -> bthr (cfg w') u = bthr (cfg w) u) /\
    held w' = held w /\ asked w' = asked w.
Proof.
  induction n as [|n IH]; intros w k m' k' Ht Hs; simpl in Hs.
  - inversion Hs; subst. exists w. repeat split; auto.
  - destruct (byte_step P (bmem (cfg w)) k) as [m1 k1] eqn:Hs1.
    set (w1 := {| cfg := {| bmem := m1;
                            bthr := fun u => if Nat.eqb u t then Some k1
                                             else bthr (cfg w) u |};
                  held := held w; asked := asked w |}).
    assert (Hstep : contract_step P (Step t) w = Some w1).
    { unfold contract_step, byte_sys_step. now rewrite Ht, Hs1. }
    destruct (IH w1 k1 m' k') as [w' [Hrun [Hm [Hk [Hoth [Hh Ha]]]]]].
    + simpl. now rewrite Nat.eqb_refl.
    + exact Hs.
    + exists w'. split; [|split; [|split; [|split; [|split]]]]; auto.
      * change (repeat (Step t) (S n)) with (Step t :: repeat (Step t) n).
        cbn [contract_run]. now rewrite Hstep.
      * intros u Hu. rewrite (Hoth u Hu). simpl.
        apply Nat.eqb_neq in Hu. now rewrite Hu.
Qed.

(** When every thread is in client code or has aborted, no list is locked
    and the pool is consistent with the blocks that client code holds. *)
Lemma quiescent_wf w F G :
  safe P w F G ->
  (forall t, bthr (cfg w) t = None \/
             exists msg, bthr (cfg w) t = Some (Done (Abort msg))) ->
  (forall l, (l < length (m_chunk_size P))%nat ->
     i_freelist (bmem (cfg w)) l <> KOKKOS_MEMPOOLLIST_LOCK) /\
  pool_wf P (view (bmem (cfg w))) F (held w) /\
  (forall t, G t = []).
Proof.
  intros Hs Hquiet.
  assert (Hfree : forall l, (l < length (m_chunk_size P))%nat ->
            i_freelist (bmem (cfg w)) l <> KOKKOS_MEMPOOLLIST_LOCK).
  { intros l Hl Hlk'. destruct (s_locked P w F G Hs l Hl Hlk') as [t Ht].
    destruct (Hquiet t) as [Hn|[msg Hm]].
    - rewrite Hn in Ht. exact Ht.
    - rewrite Hm in Ht. exact Ht. }
  split; [exact Hfree|]. split.
  - constructor.
    + intros l Hl. apply (s_chain P w F G Hs l Hl). now apply Hfree.
    + apply (s_nodup_list P w F G Hs).
    + apply (s_nodup_held P w F G Hs).
    + intros x Hx Hin.
      pose proof (s_one_owner P w F G Hs OnList ByClient x Hx Hin).
      discriminate.
    + intros x [Hx|Hx].
      * apply (s_in_pool P w F G Hs OnList x Hx).
      * apply (s_in_pool P w F G Hs ByClient x Hx).
    + intros x y [Hx|Hx] [Hy|Hy] Hne.
      * apply (s_disjoint P w F G Hs OnList OnList x y Hx Hy Hne).
      * apply (s_disjoint P w F G Hs OnList ByClient x y Hx Hy Hne).
      * apply (s_disjoint P w F G Hs ByClient OnList x y Hx Hy Hne).
      * apply (s_disjoint P w F G Hs ByClient ByClient x y Hx Hy Hne).
  - intros t. pose proof (s_thread P w F G Hs t) as Hok.
    destruct (Hquiet t) as [Hn|[msg Hm]].
    + rewrite Hn in Hok. exact Hok.
    + rewrite Hm in Hok. exact (proj1 Hok).
Qed.

(** One call of [allocate] with every thread in client code. *)
Lemma seq_allocate w F G s n m' o :
  safe P w F G -> (forall t, bthr (cfg w) t = None) -> 0 <= s ->
  byte_steps P n (bmem (cfg w)) (AllocEntry s) = (m', Done o) ->
  exists w' F' G',
    safe P w' F' G' /\ bmem (cfg w') = m' /\
    held w' = gained P s o ++ held w /\
    (forall t, bthr (cfg w') t = None \/
               exists msg, bthr (cfg w') t = Some (Done (Abort msg))) /\
    ((forall msg, o <> Abort msg) -> forall t, bthr (cfg w') t = None).
Proof.
  intros Hs Hcalm Hs0 Hn.
  set (w1 := {| cfg := {| bmem := bmem (cfg w);
                          bthr := fun u => if Nat.eqb u 0
                                           then Some (AllocEntry s)
                                           else bthr (cfg w) u |};
                held := held w; asked := set_asked w 0 s |}).
  assert (Hcall : contract_step P (CallAllocate 0 s) w = Some w1).
  { unfold contract_step, byte_sys_step.
    apply Z.leb_le in Hs0. now rewrite Hs0, (Hcalm 0%nat). }
  destruct (safe_step P table twice arena links _ _ _ F G Hs Hcall)
    as [F1 [G1 [Hs1 _]]].
  destruct (steps_as_run 0 n w1 (AllocEntry s) m' (Done o) eq_refl Hn)
    as [w2 [Hrun [Hm [Hk [Hoth [Hh Ha]]]]]].
  destruct (safe_run P table twice arena links _ _ _ F1 G1 Hs1 Hrun)
    as [F2 [G2 [Hs2 _]]].
  assert (Hothers : forall u, u <> 0%nat -> bthr (cfg w2) u = None).
  { intros u Hu. rewrite (Hoth u Hu). simpl.
    apply Nat.eqb_neq in Hu. rewrite Hu. apply Hcalm. }
  destruct o as [r|msg].
  - set (w3 := {| cfg := {| bmem := bmem (cfg w2);
                            bthr := fun u => if Nat.eqb u 0 then None
                                             else bthr (cfg w2) u |};
                  held := handed P w2 0 ++ held w2; asked := asked w2 |}).
    assert (Hleave : contract_step P (Leave 0) w2 = Some w3).
    { unfold contract_step, byte_sys_step. now rewrite Hk. }
    destruct (safe_step P table twice arena links _ _ _ F2 G2 Hs2 Hleave)
      as [F3 [G3 [Hs3 _]]].
    assert (Hcalm3 : forall t, bthr (cfg w3) t = None).
    { intros t. simpl. destruct (Nat.eqb t 0) eqn:E; [reflexivity|].
      apply Hothers. now apply Nat.eqb_neq. }
    exists w3, F3, G3. split; [exact Hs3|]. split; [exact Hm|].
    split; [|split; [intros t; left; apply Hcalm3 | intros _; exact Hcalm3]].
    simpl. rewrite Hh. f_equal. unfold handed. rewrite Hk, Ha.
    simpl. unfold set_asked. simpl. destruct r; reflexivity.
  - exists w2, F2, G2. split; [exact Hs2|]. split; [exact Hm|].
    split; [simpl; exact Hh|]. split.
    + intros t. destruct (Nat.eq_dec t 0) as [->|Ht].
      * right. now exists msg.
      * left. now apply Hothers.
    + intros Hno. exfalso. now apply (Hno msg).
Qed.

(** One call of [deallocate] for a block that client code holds, with
    every thread in client code: the call returns. *)
Lemma seq_deallocate w F G p s n m' o :
  safe P w F G -> (forall t, bthr (cfg w) t = None) -> 0 <= s ->
  In (p, find_class P s) (held w) ->
  byte_steps P n (bmem (cfg w)) (DeallocEntry p s) = (m', Done o) ->
  o = Return Void /\
  exists w' F' G',
    safe P w' F' G' /\ bmem (cfg w') = m' /\
    held w' = remove block_eq_dec (p, find_class P s) (held w) /\
    (forall t, bthr (cfg w') t = None).
Proof.
  intros Hs Hcalm Hs0 Hheld Hn.
  set (w1 := {| cfg := {| bmem := bmem (cfg w);
                          bthr := fun u => if Nat.eqb u 0
                                           then Some (DeallocEntry p s)
                                           else bthr (cfg w) u |};
                held := remove block_eq_dec (p, find_class P s) (held w);
                asked := set_asked w 0 s |}).
  assert (Hcall : contract_step P (CallDeallocate 0 p s) w = Some w1).
  { unfold contract_step, byte_sys_step.
    apply Z.leb_le in Hs0. rewrite Hs0, (Hcalm 0%nat).
    destruct (in_dec block_eq_dec (p, find_class P s) (held w));
      [reflexivity | contradiction]. }
  destruct (safe_step P table twice arena links _ _ _ F G Hs Hcall)
    as [F1 [G1 [Hs1 _]]].
  destruct (steps_as_run 0 n w1 (DeallocEntry p s) m' (Done o) eq_refl Hn)
    as [w2 [Hrun [Hm [Hk [Hoth [Hh Ha]]]]]].
  destruct (safe_run P table twice arena links _ _ _ F1 G1 Hs1 Hrun)
    as [F2 [G2 [Hs2 _]]].
  assert (Hothers : forall u, u <> 0%nat -> bthr (cfg w2) u = None).
  { intros u Hu. rewrite (Hoth u Hu). simpl.
    apply Nat.eqb_neq in Hu. rewrite Hu. apply Hcalm. }
  assert (Ho : o = Return Void).
  { destruct (deallocate_outcome P n _ p s m' o Hn) as [Ho|[Ho|Ho]];
      [exact Ho | exfalso | exfalso]; subst o;
      pose proof (s_thread P w2 F2 G2 Hs2 0%nat) as Hok;
      rewrite Hk in Hok; destruct Hok as [_ [Hok|Hok]]; discriminate. }
  split; [exact Ho|]. subst o.
  set (w3 := {| cfg := {| bmem := bmem (cfg w2);
                          bthr := fun u => if Nat.eqb u 0 then None
                                           else bthr (cfg w2) u |};
                held := handed P w2 0 ++ held w2; asked := asked w2 |}).
  assert (Hleave : contract_step P (Leave 0) w2 = Some w3).
  { unfold contract_step, byte_sys_step. now rewrite Hk. }
  destruct (safe_step P table twice arena links _ _ _ F2 G2 Hs2 Hleave)
    as [F3 [G3 [Hs3 _]]].
  exists w3, F3, G3. split; [exact Hs3|]. split; [exact Hm|]. split.
  - simpl. unfold handed. rewrite Hk. simpl. exact Hh.
  - intros t. simpl. destruct (Nat.eqb t 0) eqn:E; [reflexivity|].
    apply Hothers. now apply Nat.eqb_neq.
Qed.

(** A sequence of calls that keeps to the contract, with every thread in
    client code at the start. *)
Lemma byte_play_safe fuel : forall calls m O w F G m' O',
  safe P w F G -> (forall t, bthr (cfg w) t = None) ->
  bmem (cfg w) = m -> held w = O ->
  Forall (fun c => 0 <= call_size c) calls ->
  byte_play P fuel calls m O = Some (m', O') ->
  exists w' F' G',
    safe P w' F' G' /\ bmem (cfg w') = m' /\ held w' = O' /\
    (forall t, bthr (cfg w') t = None \/
               exists msg, bthr (cfg w') t = Some (Done (Abort msg))).
Proof.
  induction calls as [|c calls IH];
    intros m O w F G m' O' Hs Hcalm Hm HO Hsizes Hplay.
  - simpl in Hplay. inversion Hplay; subst.
    exists w, F, G. split; [exact Hs|]. split; [reflexivity|].
    split; [reflexivity|]. intros t. left. apply Hcalm.
  - inversion Hsizes as [|? ? Hc Hrest]; subst.
    destruct c as [s | p s]; simpl in Hc, Hplay.
    + destruct (byte_allocate P fuel (bmem (cfg w)) s) as [[o m1]|] eqn:Hrun;
        [|discriminate].
      destruct (byte_run_steps P fuel _ _ _ _ Hrun) as [n Hn].
      destruct (seq_allocate w F G s n m1 o Hs Hcalm Hc Hn)
        as [w1 [F1 [G1 [Hs1 [Hm1 [Hh1 [Hquiet Hcalm1]]]]]]].
      destruct o as [[q|]|msg].
      * assert (Hc1 : forall t, bthr (cfg w1) t = None)
          by (apply Hcalm1; discriminate).
        simpl in Hh1. destruct (q =? 0).
        -- exact (IH m1 _ w1 F1 G1 m' O' Hs1 Hc1 Hm1 Hh1 Hrest Hplay).
        -- exact (IH m1 _ w1 F1 G1 m' O' Hs1 Hc1 Hm1 Hh1 Hrest Hplay).
      * inversion Hplay; subst. exists w1, F1, G1.
        split; [exact Hs1|]. split; [reflexivity|].
        split; [exact Hh1 | exact Hquiet].
      * inversion Hplay; subst. exists w1, F1, G1.
        split; [exact Hs1|]. split; [reflexivity|].
        split; [exact Hh1 | exact Hquiet].
    + destruct (in_dec block_eq_dec (p, find_class P s) (held w))
        as [Hheld|]; [|discriminate].
      destruct (byte_deallocate P fuel (bmem (cfg w)) p s) as [[o m1]|]
        eqn:Hrun; [|discriminate].
      destruct (byte_run_steps P fuel _ _ _ _ Hrun) as [n Hn].
      destruct (seq_deallocate w F G p s n m1 o Hs Hcalm Hc Hheld Hn)
        as [-> [w1 [F1 [G1 [Hs1 [Hm1 [Hh1 Hcalm1]]]]]]].
      exact (IH m1 _ w1 F1 G1 m' O' Hs1 Hcalm1 Hm1 Hh1 Hrest Hplay).
Qed.

End SequentialBytes.

(** ** Interleavings under the contract, on the bytes: what holds *)

Lemma image_a_wf : pool_wf pool_a (view image_a) free_a held_a.
Proof.
  pose proof pool_a_wf as Hwf. constructor.
  - intros l Hl. apply chain_ext with (sh := mem_a).
    + intros a Ha. unfold free_a in Ha.
      destruct (Nat.eqb l 2); [|contradiction].
      destruct Ha as [<-|[<-|[<-|[]]]]; vm_compute; reflexivity.
    + exact (wf_chain pool_a mem_a free_a held_a Hwf l Hl).
  - apply (wf_nodup pool_a mem_a free_a held_a Hwf).
  - apply (wf_held_once pool_a mem_a free_a held_a Hwf).
  - apply (wf_free_not_held pool_a mem_a free_a held_a Hwf).
  - apply (wf_in_pool pool_a mem_a free_a held_a Hwf).
  - apply (wf_disjoint pool_a mem_a free_a held_a Hwf).
Qed.

Lemma pool_a_table_ok : table_ok pool_a.
Proof. split; [discriminate|]. repeat constructor. Qed.

Lemma pool_a_arena_ok : arena_ok pool_a.
Proof. split; reflexivity. Qed.

Lemma pool_a_evenly : evenly pool_a.
Proof.
  intros i j Hij. simpl in Hij.
  destruct i as [|[|[|i]]]; destruct j as [|[|[|j]]]; try lia; reflexivity.
Qed.

(** The consistency that every interleaving keeps, from a consistent pool
    with every thread in client code. *)
Lemma safe_reached (P : MemPoolList) (m : image) (F : nat -> list Z)
    (O : list block) (acts : list action) (w : world) :
  table_ok P -> holds_link P -> doubling P -> arena_ok P ->
  pool_wf P (view m) F O ->
  contract_run P acts (start m O) = Some w ->
  exists F' G',
    safe P w F' G' /\ conserves P F O (fun _ => []) F' (held w) G'.
Proof.
  intros Htab Hlk Htw Har Hwf Hrun.
  eapply (safe_run P Htab Htw Har Hlk acts (start m O) w F (fun _ => [])).
  - apply safe_initial. exact Hwf.
  - exact Hrun.
Qed.

(** X17.  Threads that call [allocate] and [deallocate] in any interleaving,
    on the bytes of the arena, with client code that keeps to the contract
    (it releases a block only while it holds it, with a size of its class,
    and writes only bytes of blocks it holds), on a doubling table whose
    classes hold a link and a consistent pool: the blocks that client code
    holds are distinct, lie in the arena and do not overlap; a block that a
    call of [allocate] is about to return lies in the arena and overlaps
    neither a held block nor the block that another call is about to
    return. *)
Theorem interleaved_blocks_never_overlap
    (P : MemPoolList) (m : image) (F : nat -> list Z) (O : list block)
    (acts : list action) (w : world) :
  table_ok P -> holds_link P -> doubling P -> arena_ok P ->
  pool_wf P (view m) F O ->
  contract_run P acts (start m O) = Some w ->
  NoDup (held w) /\
  (forall x, In x (held w) -> in_pool P x) /\
  (forall x y, In x (held w) -> In y (held w) -> x <> y -> disjoint P x y) /\
  (forall t x, In x (handed P w t) ->
     in_pool P x /\ forall y, In y (held w) -> disjoint P x y) /\
  (forall t u x y, t <> u -> In x (handed P w t) -> In y (handed P w u) ->
     disjoint P x y).
Proof.
  intros Htab Hlk Htw Har Hwf Hrun.
  destruct (safe_reached P m F O acts w Htab Hlk Htw Har Hwf Hrun)
    as [F' [G' [Hs _]]].
  split; [apply (s_nodup_held P w F' G' Hs)|].
  split; [intros x Hx; apply (s_in_pool P w F' G' Hs ByClient x Hx)|].
  split.
  { intros x y Hx Hy Hne.
    apply (s_disjoint P w F' G' Hs ByClient ByClient x y Hx Hy Hne). }
  split.
  - intros t x Hx. apply (handed_sub P w F' G' t x Hs) in Hx. split.
    + apply (s_in_pool P w F' G' Hs (InCall t) x Hx).
    + intros y Hy.
      apply (s_disjoint P w F' G' Hs (InCall t) ByClient x y Hx Hy).
      intros ->.
      pose proof (s_one_owner P w F' G' Hs (InCall t) ByClient y Hx Hy).
      discriminate.
  - intros t u x y Htu Hx Hy.
    apply (handed_sub P w F' G' t x Hs) in Hx.
    apply (handed_sub P w F' G' u y Hs) in Hy.
    apply (s_disjoint P w F' G' Hs (InCall t) (InCall u) x y Hx Hy).
    intros ->.
    pose proof (s_one_owner P w F' G' Hs (InCall t) (InCall u) y Hx Hy).
    congruence.
Qed.

Lemma interleaved_blocks_never_overlap_witness :
  exists w,
    contract_run pool_a schedule_three (start image_a held_a) = Some w /\
    held w = [(4096, 2%nat); (7168, 0%nat)] /\
    NoDup (held w) /\
    disjoint pool_a (4096, 2%nat) (7168, 0%nat).
Proof.
  assert (Hheld : match contract_run pool_a schedule_three
                          (start image_a held_a) with
                  | Some w => held w = [(4096, 2%nat); (7168, 0%nat)]
                  | None => False
                  end) by (vm_compute; reflexivity).
  destruct (contract_run pool_a schedule_three (start image_a held_a))
    as [w|] eqn:Hrun; [|contradiction].
  destruct (interleaved_blocks_never_overlap pool_a image_a free_a held_a
              schedule_three w pool_a_table_ok pool_a_holds_link
              pool_a_doubling pool_a_arena_ok image_a_wf Hrun)
    as [Hnd [_ [Hdis _]]].
  exists w. split; [reflexivity|]. split; [exact Hheld|].
  split; [exact Hnd|].
  apply Hdis;
    [rewrite Hheld; simpl; auto | rewrite Hheld; simpl; auto | discriminate].
Defined.

(** X18.  Under the same contract, on the bytes of the arena, no call
    aborts for a reason other than the size of the request or the
    exhaustion of the pool, in any interleaving: [deallocate] passes its
    range test and its size test, and the unlocking compare-and-swap of
    [allocate] succeeds. *)
Theorem contract_calls_abort_only_in_allocate
    (P : MemPoolList) (m : image) (F : nat -> list Z) (O : list block)
    (acts : list action) (w : world) (t : nat) (msg : abort_msg) :
  table_ok P -> holds_link P -> doubling P -> arena_ok P ->
  pool_wf P (view m) F O ->
  contract_run P acts (start m O) = Some w ->
  bthr (cfg w) t = Some (Done (Abort msg)) ->
  msg = REQUESTED_SIZE_TOO_LARGE \/ msg = NO_CHUNKS_BIG_ENOUGH.
Proof.
  intros Htab Hlk Htw Har Hwf Hrun Ht.
  destruct (safe_reached P m F O acts w Htab Hlk Htw Har Hwf Hrun)
    as [F' [G' [Hs _]]].
  pose proof (s_thread P w F' G' Hs t) as Hok. rewrite Ht in Hok.
  exact (proj2 Hok).
Qed.

Lemma contract_calls_abort_only_in_allocate_witness :
  exists w,
    contract_run pool_a schedule_abort (start image_a held_a) = Some w /\
    bthr (cfg w) 2%nat = Some (Done (Return Void)) /\
    bthr (cfg w) 3%nat = Some (Done (Abort REQUESTED_SIZE_TOO_LARGE)) /\
    (REQUESTED_SIZE_TOO_LARGE = REQUESTED_SIZE_TOO_LARGE \/
     REQUESTED_SIZE_TOO_LARGE = NO_CHUNKS_BIG_ENOUGH).
Proof.
  assert (H : match contract_run pool_a schedule_abort
                      (start image_a held_a) with
              | Some w =>
                  bthr (cfg w) 2%nat = Some (Done (Return Void)) /\
                  bthr (cfg w) 3%nat =
                  Some (Done (Abort REQUESTED_SIZE_TOO_LARGE))
              | None => False
              end) by (vm_compute; split; reflexivity).
  destruct (contract_run pool_a schedule_abort (start image_a held_a))
    as [w|] eqn:Hrun; [|contradiction].
  destruct H as [H2 H3].
  exists w. split; [reflexivity|]. split; [exact H2|]. split; [exact H3|].
  exact (contract_calls_abort_only_in_allocate pool_a image_a free_a held_a
           schedule_abort w 3%nat REQUESTED_SIZE_TOO_LARGE pool_a_table_ok
           pool_a_holds_link pool_a_doubling pool_a_arena_ok image_a_wf
           Hrun H3).
Defined.

(** X19.  Under the same contract, on the bytes of the arena, the lists
    stay intact in any interleaving: whenever the head of a list is not
    locked, the links that the bytes hold make the list a null-terminated
    chain of distinct chunks of its class that lie in the arena and overlap
    neither a held block nor a block that a call of [allocate] is about to
    return. *)
Theorem interleaved_lists_stay_chains
    (P : MemPoolList) (m : image) (F : nat -> list Z) (O : list block)
    (acts : list action) (w : world) (l : nat) :
  table_ok P -> holds_link P -> doubling P -> arena_ok P ->
  pool_wf P (view m) F O ->
  contract_run P acts (start m O) = Some w ->
  (l < length (m_chunk_size P))%nat ->
  i_freelist (bmem (cfg w)) l <> KOKKOS_MEMPOOLLIST_LOCK ->
  exists cs,
    chain (view (bmem (cfg w))) (i_freelist (bmem (cfg w)) l) cs /\
    NoDup cs /\
    forall a, In a cs ->
      in_pool P (a, l) /\
      (forall y, In y (held w) -> disjoint P (a, l) y) /\
      (forall t y, In y (handed P w t) -> disjoint P (a, l) y).
Proof.
  intros Htab Hlk Htw Har Hwf Hrun Hl Hnl.
  destruct (safe_reached P m F O acts w Htab Hlk Htw Har Hwf Hrun)
    as [F' [G' [Hs _]]].
  exists (F' l). split; [now apply (s_chain P w F' G' Hs)|].
  split; [apply (s_nodup_list P w F' G' Hs)|].
  intros a Ha.
  assert (Hfree : owns F' (held w) G' OnList (a, l)) by exact Ha.
  split; [apply (s_in_pool P w F' G' Hs OnList _ Hfree)|]. split.
  - intros y Hy.
    apply (s_disjoint P w F' G' Hs OnList ByClient _ y Hfree Hy).
    intros <-.
    pose proof (s_one_owner P w F' G' Hs OnList ByClient _ Hfree Hy).
    discriminate.
  - intros t y Hy. apply (handed_sub P w F' G' t y Hs) in Hy.
    apply (s_disjoint P w F' G' Hs OnList (InCall t) _ y Hfree Hy).
    intros <-.
    pose proof (s_one_owner P w F' G' Hs OnList (InCall t) _ Hfree Hy).
    discriminate.
Qed.

Lemma interleaved_lists_stay_chains_witness :
  exists w cs,
    contract_run pool_a schedule_three (start image_a held_a) = Some w /\
    i_freelist (bmem (cfg w)) 0%nat = 7232 /\
    chain (view (bmem (cfg w))) 7232 cs /\ NoDup cs /\
    forall a, In a cs -> disjoint pool_a (a, 0%nat) (7168, 0%nat).
Proof.
  assert (H : match contract_run pool_a schedule_three
                      (start image_a held_a) with
              | Some w =>
                  i_freelist (bmem (cfg w)) 0%nat = 7232 /\
                  held w = [(4096, 2%nat); (7168, 0%nat)]
              | None => False
              end) by (vm_compute; split; reflexivity).
  destruct (contract_run pool_a schedule_three (start image_a held_a))
    as [w|] eqn:Hrun; [|contradiction].
  destruct H as [Hhead Hheld].
  destruct (interleaved_lists_stay_chains pool_a image_a free_a held_a
              schedule_three w 0%nat pool_a_table_ok pool_a_holds_link
              pool_a_doubling pool_a_arena_ok image_a_wf Hrun)
    as [cs [Hch [Hnd Hall]]].
  - simpl. lia.
  - rewrite Hhead. discriminate.
  - exists w, cs. split; [reflexivity|]. split; [exact Hhead|].
    rewrite Hhead in Hch. split; [exact Hch|]. split; [exact Hnd|].
    intros a Ha. destruct (Hall a Ha) as [_ [Hdis _]].
    apply Hdis. rewrite Hheld. simpl. auto.
Defined.

(** X20.  Under the same contract, on the bytes of the arena, no lock is
    lost, no chunk is lost and no memory is made up: whenever every thread
    is back in client code or has aborted, no list is locked; the pool is
    consistent, in the sense of the sequential contract, with the blocks
    that client code holds; every chunk that was on a list or held at the
    start is on a list or held, whole or as the first piece of a split;
    every byte of a chunk of a list or of a held block was a byte of one at
    the start; and on a table where every class size is a multiple of the
    smaller ones, every byte that was in a chunk of a list or in a held
    block at the start is in one. *)
Theorem quiescent_pool_is_consistent
    (P : MemPoolList) (m : image) (F : nat -> list Z) (O : list block)
    (acts : list action) (w : world) :
  table_ok P -> holds_link P -> doubling P -> arena_ok P ->
  pool_wf P (view m) F O ->
  contract_run P acts (start m O) = Some w ->
  (forall t, bthr (cfg w) t = None \/
             exists msg, bthr (cfg w) t = Some (Done (Abort msg))) ->
  (forall l, (l < length (m_chunk_size P))%nat ->
     i_freelist (bmem (cfg w)) l <> KOKKOS_MEMPOOLLIST_LOCK) /\
  exists F',
    pool_wf P (view (bmem (cfg w))) F' (held w) /\
    (forall x, live F O x ->
       exists y, live F' (held w) y /\
                 fst y = fst x /\ (snd y <= snd x)%nat) /\
    (forall b, pooled P F' (held w) b -> pooled P F O b) /\
    (evenly P -> forall b, pooled P F O b -> pooled P F' (held w) b).
Proof.
  intros Htab Hlk Htw Har Hwf Hrun Hquiet.
  destruct (safe_reached P m F O acts w Htab Hlk Htw Har Hwf Hrun)
    as [F' [G' [Hs [Hback [Hfwd Hkeep]]]]].
  destruct (quiescent_wf P w F' G' Hs Hquiet) as [Hfree [Hwf' Hnone]].
  split; [exact Hfree|]. exists F'. split; [exact Hwf'|split; [|split]].
  - intros x Hx.
    assert (Hown : exists o, owns F O (fun _ => []) o x).
    { destruct Hx as [Hx|Hx]; [now exists OnList | now exists ByClient]. }
    destruct Hown as [o0 Hown].
    destruct (Hkeep o0 x Hown) as [o [y [Hy Hsame]]].
    exists y. split; [|exact Hsame].
    destruct o as [| |u]; simpl in Hy; [now left | now right |].
    rewrite Hnone in Hy. contradiction.
  - intros b [x [Hx Hb]].
    destruct (Hback b) as [o [y [Hy Hby]]].
    { destruct Hx as [Hx|Hx];
        [exists OnList, x | exists ByClient, x]; split; auto. }
    exists y. split; [|exact Hby].
    destruct o as [| |u]; simpl in Hy; [now left | now right | contradiction].
  - intros Heven b [x [Hx Hb]].
    destruct (Hfwd Heven b) as [o [y [Hy Hby]]].
    { destruct Hx as [Hx|Hx];
        [exists OnList, x | exists ByClient, x]; split; auto. }
    exists y. split; [|exact Hby].
    destruct o as [| |u]; simpl in Hy; [now left | now right |].
    rewrite Hnone in Hy. contradiction.
Qed.

Lemma quiescent_pool_is_consistent_witness :
  exists w F',
    contract_run pool_a schedule_three (start image_a held_a) = Some w /\
    i_freelist (bmem (cfg w)) 2%nat <> KOKKOS_MEMPOOLLIST_LOCK /\
    pool_wf pool_a (view (bmem (cfg w))) F' (held w) /\
    pooled pool_a F' (held w) 7300.
Proof.
  assert (H : match contract_run pool_a schedule_three
                      (start image_a held_a) with
              | Some w => forall t, bthr (cfg w) t = None
              | None => False
              end).
  { vm_compute. intros t. destruct t as [|[|[|t]]]; reflexivity. }
  destruct (contract_run pool_a schedule_three (start image_a held_a))
    as [w|] eqn:Hrun; [|contradiction].
  assert (Hquiet : forall t, bthr (cfg w) t = None \/
                     exists msg, bthr (cfg w) t = Some (Done (Abort msg)))
    by (intros t; left; apply H).
  destruct (quiescent_pool_is_consistent pool_a image_a free_a held_a
              schedule_three w pool_a_table_ok pool_a_holds_link
              pool_a_doubling pool_a_arena_ok image_a_wf Hrun Hquiet)
    as [Hfree [F' [Hwf [_ [_ Hfwd]]]]].
  exists w, F'. split; [reflexivity|].
  split; [apply Hfree; simpl; lia|]. split; [exact Hwf|].
  apply (Hfwd pool_a_evenly). exists (7168, 2%nat).
  split; [right; left; reflexivity | reflexivity].
Defined.

(** X21.  Under the same contract the pool never writes a byte of a block
    that client code holds: from any state that the system reaches,
    whatever the threads do and in any interleaving, as long as the block
    is not released and client code does not write into it, the block stays
    held and every byte of it keeps its value. *)
Theorem held_block_keeps_its_contents
    (P : MemPoolList) (m : image) (F : nat -> list Z) (O : list block)
    (acts1 acts2 : list action) (w w' : world) (x : block) :
  table_ok P -> holds_link P -> doubling P -> arena_ok P ->
  pool_wf P (view m) F O ->
  contract_run P acts1 (start m O) = Some w ->
  In x (held w) ->
  Forall (spares P x) acts2 ->
  contract_run P acts2 w = Some w' ->
  In x (held w') /\
  forall b, within P b x = true ->
    i_byte (bmem (cfg w')) b = i_byte (bmem (cfg w)) b.
Proof.
  intros Htab Hlk Htw Har Hwf Hrun Hx Hall Hrun'.
  destruct (safe_reached P m F O acts1 w Htab Hlk Htw Har Hwf Hrun)
    as [F' [G' [Hs _]]].
  eapply spared_run; eauto.
Qed.

Lemma held_block_keeps_its_contents_witness :
  exists w w',
    contract_run pool_a schedule_store (start image_a held_a) = Some w /\
    contract_run pool_a schedule_keep w = Some w' /\
    held w' = [(4096, 2%nat); (5120, 0%nat); (7168, 2%nat)] /\
    i_byte (bmem (cfg w')) 8191 = 99.
Proof.
  assert (H : match contract_run pool_a schedule_store
                      (start image_a held_a) with
              | Some w =>
                  match contract_run pool_a schedule_keep w with
                  | Some w' =>
                      held w = held_a /\
                      i_byte (bmem (cfg w)) 8191 = 99 /\
                      held w' =
                      [(4096, 2%nat); (5120, 0%nat); (7168, 2%nat)]
                  | None => False
                  end
              | None => False
              end) by (vm_compute; repeat split; reflexivity).
  destruct (contract_run pool_a schedule_store (start image_a held_a))
    as [w|] eqn:Hrun; [|contradiction].
  destruct (contract_run pool_a schedule_keep w) as [w'|] eqn:Hrun';
    [|contradiction].
  destruct H as [Hheld [Hmem Hheld']].
  assert (Hall : Forall (spares pool_a (7168, 2%nat)) schedule_keep).
  { repeat constructor. }
  destruct (held_block_keeps_its_contents pool_a image_a free_a held_a
              schedule_store schedule_keep w w' (7168, 2%nat)
              pool_a_table_ok pool_a_holds_link pool_a_doubling
              pool_a_arena_ok image_a_wf Hrun
              ltac:(rewrite Hheld; left; reflexivity) Hall Hrun')
    as [_ Hsame].
  exists w, w'. split; [reflexivity|]. split; [exact Hrun'|].
  split; [exact Hheld'|].
  rewrite (Hsame 8191 eq_refl). exact Hmem.
Defined.

(** Why the classes must hold a link: on classes of 4 and 16 bytes the
    pool is consistent and client code keeps to the contract, yet the call
    of [allocate] that splits the chunk at 4096 stores the link of the last
    piece, at 4108, over the first bytes of the block that client code
    holds at 4112. *)
Lemma small_classes_spill :
  table_ok pool_s /\ doubling pool_s /\ arena_ok pool_s /\
  pool_wf pool_s (view image_s) free_s held_s /\
  ~ holds_link pool_s /\
  Forall (spares pool_s (4112, 1%nat)) schedule_s /\
  exists w,
    contract_run pool_s schedule_s (start image_s held_s) = Some w /\
    held w = [(4096, 0%nat); (4112, 1%nat)] /\
    i_byte image_s 4112 = 255 /\
    i_byte (bmem (cfg w)) 4112 = 0.
Proof.
  assert (Hlive : forall x, live free_s held_s x ->
            In x [(4096, 1%nat); (4112, 1%nat)]).
  { intros [a l] [Hx|Hx].
    - unfold free_in, free_s in Hx. simpl in Hx.
      destruct l as [|[|l]]; simpl in Hx; try contradiction.
      destruct Hx as [<-|[]]. simpl. tauto.
    - destruct Hx as [<-|[]]. simpl. tauto. }
  split; [split; [discriminate | repeat constructor]|].
  split.
  { intros i j Hij. simpl in Hij.
    destruct i as [|[|i]]; destruct j as [|[|j]]; try lia.
    vm_compute. discriminate. }
  split; [split; reflexivity|]. split.
  { constructor.
    - intros l Hl. simpl in Hl. destruct l as [|[|l]]; try lia.
      + reflexivity.
      + vm_compute. repeat split; discriminate.
    - intros l. unfold free_s. destruct (Nat.eqb l 1); repeat constructor.
      simpl. tauto.
    - repeat constructor. simpl. tauto.
    - intros [a l] Hx [Heq|[]]. inversion Heq; subst.
      unfold free_in in Hx. simpl in Hx. intuition discriminate.
    - intros x Hx. apply Hlive in Hx. simpl in Hx.
      destruct Hx as [<-|[<-|[]]]; unfold in_pool; simpl;
        repeat split; try lia; vm_compute; discriminate.
    - intros x y Hx Hy Hne. apply Hlive in Hx. apply Hlive in Hy.
      simpl in Hx, Hy. unfold disjoint.
      destruct Hx as [<-|[<-|[]]]; destruct Hy as [<-|[<-|[]]]; simpl;
        try (exfalso; apply Hne; reflexivity);
        try (left; vm_compute; discriminate);
        try (right; vm_compute; discriminate). }
  split.
  { intros Hlk. inversion Hlk as [|c cs Hc _]. vm_compute in Hc.
    now apply Hc. }
  split; [repeat constructor|].
  assert (H : match contract_run pool_s schedule_s (start image_s held_s) with
              | Some w =>
                  held w = [(4096, 0%nat); (4112, 1%nat)] /\
                  i_byte (bmem (cfg w)) 4112 = 0
              | None => False
              end) by (vm_compute; split; reflexivity).
  destruct (contract_run pool_s schedule_s (start image_s held_s))
    as [w|]; [|contradiction].
  destruct H as [Hheld Hbyte].
  exists w. repeat split; assumption.
Qed.

(** ** What a call on the bytes leaves alone *)

Lemma byte_run_keeps_mem P (Q : image -> pc -> Prop) :
  (forall m c, Q m c ->
     Q (fst (byte_step P m c)) (snd (byte_step P m c))) ->
  forall fuel m c o m',
  Q m c -> byte_run P fuel m c = Some (o, m') -> Q m' (Done o).
Proof.
  intros Hkeep. induction fuel as [|fuel IH]; intros m c o m' Hc Hrun.
  - destruct c; simpl in Hrun; try discriminate.
    inversion Hrun; subst. exact Hc.
  - simpl in Hrun. destruct (final c) eqn:Hf.
    + destruct c; try discriminate. simpl in Hf.
      inversion Hf; subst. inversion Hrun; subst. exact Hc.
    + pose proof (Hkeep m c Hc) as Hnext.
      destruct (byte_step P m c) as [m1 c1].
      exact (IH m1 c1 o m' Hnext Hrun).
Qed.

Lemma above_class_byte_step P s m0 m c :
  above_class P s (view m0) (view m) c ->
  above_class P s (view m0) (view (fst (byte_step P m c)))
    (snd (byte_step P m c)).
Proof.
  intros HQ. destruct (byte_step P m c) as [m' c'] eqn:Hs.
  destruct (byte_step_view P m c m' c' Hs) as [sh' [Hw Hheads]].
  pose proof (above_class_step P s (view m0) (view m) c HQ) as Hn.
  rewrite Hw in Hn. destruct Hn as [Hlow Hc]. split; [|exact Hc].
  intros i Hi. simpl. rewrite <- Hheads. now apply Hlow.
Qed.

Lemma only_own_link_step P ptr size m0 m c :
  only_own_link P ptr size m0 m c ->
  only_own_link P ptr size m0
    (fst (byte_step P m c)) (snd (byte_step P m c)).
Proof.
  intros [Hlists [Hbytes Hc]].
  destruct c; simpl in Hc |- *; try contradiction;
    repeat match goal with
           | |- context [if ?b then _ else _] => destruct b eqn:?
           end; simpl;
    try match type of Hc with _ /\ _ => destruct Hc as [Hc1 Hc2]; subst end;
    (split; [|split]); auto; simpl.
  - intros b Hb.
    assert (Hout : (ptr <=? b) && (b <? ptr + link_size) = false).
    { apply andb_false_iff.
      destruct Hb; [left; apply Z.leb_gt | right; apply Z.ltb_ge]; lia. }
    rewrite Hout. now apply Hbytes.
  - intros i Hi. apply Nat.eqb_neq in Hi. rewrite Hi. apply Hlists.
    now apply Nat.eqb_neq.
Qed.

(** X10.  A sequential call on the bytes leaves the other lists alone,
    whatever the memory and the table hold and however the call ends:
    [allocate(s)] changes no list below the fitting class of [s];
    [deallocate(ptr, size)] changes no list but that of the class of [size]
    and no byte but the eight bytes of the link of [ptr]. *)
Theorem calls_leave_other_lists_alone (P : MemPoolList) (m : image) :
  (forall fuel s o m',
     byte_allocate P fuel m s = Some (o, m') ->
     forall i, (i < find_class P s)%nat ->
       i_freelist m' i = i_freelist m i) /\
  (forall fuel ptr size o m',
     byte_deallocate P fuel m ptr size = Some (o, m') ->
     (forall i, i <> find_class P size ->
        i_freelist m' i = i_freelist m i) /\
     (forall b, b < ptr \/ ptr + link_size <= b ->
        i_byte m' b = i_byte m b)).
Proof.
  split.
  - intros fuel s o m' Hrun.
    apply (byte_run_keeps_mem P
             (fun m1 c => above_class P s (view m) (view m1) c)
             (above_class_byte_step P s m)) in Hrun;
      [exact (proj1 Hrun)|].
    split; [reflexivity|reflexivity].
  - intros fuel ptr size o m' Hrun.
    apply (byte_run_keeps_mem P (only_own_link P ptr size m)
             (only_own_link_step P ptr size m)) in Hrun.
    + destruct Hrun as [H1 [H2 _]]. split; assumption.
    + repeat split.
Qed.

Lemma calls_leave_other_lists_alone_witness :
  byte_deallocate pool_a 20 (poke image_a 7176 9) 7168 1000 <> None /\
  (forall o m',
     byte_deallocate pool_a 20 (poke image_a 7176 9) 7168 1000 =
     Some (o, m') ->
     i_freelist m' 0%nat = 0 /\ i_byte m' 7176 = 9).
Proof.
  split.
  - assert (H : option_map fst
                  (byte_deallocate pool_a 20 (poke image_a 7176 9) 7168 1000)
                = Some (Return Void)) by (vm_compute; reflexivity).
    intros Hnone. rewrite Hnone in H. discriminate.
  - intros o m' Hrun.
    destruct (proj2 (calls_leave_other_lists_alone pool_a
                       (poke image_a 7176 9))
                20%nat 7168 1000 o m' Hrun) as [Hlists Hbytes].
    split.
    + rewrite (Hlists 0%nat) by (vm_compute; discriminate). reflexivity.
    + rewrite (Hbytes 7176) by (right; vm_compute; discriminate).
      reflexivity.
Defined.

(** ** Sequential use that keeps to the contract, on the bytes *)

(** X15.  Use that keeps to the contract keeps the chunks apart, on the
    bytes of the arena: in a table whose classes hold a link and where
    every class is at least twice the next smaller one, starting from a
    consistent pool, after any sequence of [allocate] calls and of
    [deallocate] calls for blocks held at the time, the pool is consistent
    again; in particular no block is held twice, every block held lies in
    the arena within its class size, and no two blocks held overlap. *)
Theorem contract_keeps_chunks_apart
    (P : MemPoolList) (m : image) (F : nat -> list Z) (O : list block)
    (fuel : nat) (calls : list call) (m' : image) (O' : list block) :
  table_ok P -> holds_link P -> doubling P -> arena_ok P ->
  pool_wf P (view m) F O ->
  Forall (fun c => 0 <= call_size c) calls ->
  byte_play P fuel calls m O = Some (m', O') ->
  (exists F', pool_wf P (view m') F' O') /\
  NoDup O' /\
  (forall x, In x O' -> in_pool P x) /\
  (forall x y, In x O' -> In y O' -> x <> y -> disjoint P x y).
Proof.
  intros Hok Hlk Htw Har Hwf Hsizes Hplay.
  destruct (byte_play_safe P Hok Htw Har Hlk fuel calls m O (start m O)
              F (fun _ => []) m' O'
              (safe_initial P _ F O _ Hwf) (fun _ => eq_refl)
              eq_refl eq_refl Hsizes Hplay)
    as [w [F' [G' [Hs [Hm [HO Hquiet]]]]]].
  destruct (quiescent_wf P w F' G' Hs Hquiet) as [_ [Hwf' _]].
  rewrite Hm, HO in Hwf'.
  split; [now exists F'|]. split; [apply (wf_held_once P _ F' O' Hwf')|].
  split.
  - intros x Hx. apply (wf_in_pool P _ F' O' Hwf'). now right.
  - intros x y Hx Hy Hne. apply (wf_disjoint P _ F' O' Hwf'); auto;
      now right.
Qed.

Lemma contract_keeps_chunks_apart_witness :
  exists m',
    byte_play pool_a 40 calls_a image_a held_a =
    Some (m', [(7168, 2%nat); (4160, 0%nat); (5120, 1%nat)]) /\
    disjoint pool_a (7168, 2%nat) (4160, 0%nat) /\
    disjoint pool_a (4160, 0%nat) (5120, 1%nat).
Proof.
  assert (H : option_map snd (byte_play pool_a 40 calls_a image_a held_a) =
              Some [(7168, 2%nat); (4160, 0%nat); (5120, 1%nat)])
    by (vm_compute; reflexivity).
  destruct (byte_play pool_a 40 calls_a image_a held_a) as [[m' O']|]
    eqn:Hplay; [|discriminate].
  simpl in H. injection H as HO.
  assert (Hsizes : Forall (fun c => 0 <= call_size c) calls_a)
    by (repeat constructor; discriminate).
  destruct (contract_keeps_chunks_apart pool_a image_a free_a held_a 40
              calls_a m' O' pool_a_table_ok pool_a_holds_link
              pool_a_doubling pool_a_arena_ok image_a_wf Hsizes Hplay)
    as [_ [_ [_ Hdis]]].
  subst O'. exists m'. split; [reflexivity|]. split.
  - apply Hdis; simpl; auto. discriminate.
  - apply Hdis; simpl; auto. discriminate.
Defined.

(** X16.  In a consistent pool, on a doubling table whose classes hold a
    link, no sequential call on the bytes hangs and no release of a held
    block fails: [allocate(s)] ends, either with a chunk and the pool
    consistent with that chunk held, or with a failure and the list heads
    and the bytes as they were; [deallocate(p, s)] of a held block of the
    class of [s] passes the range test, returns, and leaves the pool
    consistent with that block no longer held. *)
Theorem contract_calls_return
    (P : MemPoolList) (m : image) (F : nat -> list Z) (O : list block) :
  table_ok P -> holds_link P -> doubling P -> arena_ok P ->
  pool_wf P (view m) F O ->
  (forall s, 0 <= s ->
     exists o m',
       byte_yields P m (AllocEntry s) o m' /\
       match o with
       | Return (Ptr p) =>
           if p =? 0 then same_memory m m'
           else exists F', pool_wf P (view m') F' ((p, find_class P s) :: O)
       | _ => same_memory m m'
       end) /\
  (forall p s, 0 <= s -> In (p, find_class P s) O ->
     in_arena P p s = true /\
     exists m' F',
       byte_yields P m (DeallocEntry p s) (Return Void) m' /\
       pool_wf P (view m') F' (remove block_eq_dec (p, find_class P s) O)).
Proof.
  intros Hok Hlk Htw Har Hwf.
  pose proof (safe_initial P m F O (fun _ => 0) Hwf) as Hs0.
  split.
  - intros s Hs.
    destruct (wf_allocate P Hok Htw Har (view m) F O Hwf s Hs)
      as [o [sh' [Hy Hcase]]].
    destruct (byte_follows P m (AllocEntry s) o sh' I Hy)
      as [m' [Hby [Hheads Hearly]]].
    exists o, m'. split; [exact Hby|].
    assert (Hsame : sh' = view m -> early (Done o) = true ->
              same_memory m m').
    { intros -> He. split; [exact Hheads | exact (Hearly He)]. }
    destruct Hby as [n Hn]. specialize (Hn n (le_n n)).
    destruct (byte_run_steps P n m _ _ _ Hn) as [k Hk].
    destruct o as [[p|]|msg].
    + destruct (p =? 0) eqn:Hp.
      * apply Hsame; [exact Hcase | exact Hp].
      * destruct (seq_allocate P Hok Htw Har Hlk (start m O) F (fun _ => [])
                    s k m' _ Hs0 (fun _ => eq_refl) Hs Hk)
          as [w [F' [G' [Hsafe [Hm [Hh [Hquiet _]]]]]]].
        destruct (quiescent_wf P w F' G' Hsafe Hquiet) as [_ [Hwf' _]].
        rewrite Hm, Hh in Hwf'. simpl in Hwf'. rewrite Hp in Hwf'.
        now exists F'.
    + exfalso.
      pose proof (allocating_steps P k m (AllocEntry s) I) as Ha.
      rewrite Hk in Ha. exact Ha.
    + apply Hsame; [exact Hcase | reflexivity].
  - intros p s Hs Hheld. split.
    + exact (proj2 (held_in_arena P Hok Har (view m) F O Hwf p s Hs Hheld)).
    + destruct (wf_deallocate P Hok Har (view m) F O Hwf p s Hs Hheld)
        as [sh' [F1 [Hy _]]].
      destruct (byte_follows P m (DeallocEntry p s) _ sh' I Hy)
        as [m' [Hby _]].
      destruct Hby as [n Hn]. pose proof (Hn n (le_n n)) as Hrun.
      destruct (byte_run_steps P n m _ _ _ Hrun) as [k Hk].
      destruct (seq_deallocate P Hok Htw Har Hlk (start m O) F (fun _ => [])
                  p s k m' _ Hs0 (fun _ => eq_refl) Hs Hheld Hk)
        as [_ [w [F' [G' [Hsafe [Hm [Hh Hcalm]]]]]]].
      destruct (quiescent_wf P w F' G' Hsafe
                  (fun t => or_introl (Hcalm t))) as [_ [Hwf' _]].
      rewrite Hm, Hh in Hwf'. simpl in Hwf'.
      exists m', F'. split; [now exists n | exact Hwf'].
Qed.

Lemma contract_calls_return_witness :
  in_arena pool_a 7168 1000 = true /\
  (exists m' F',
     byte_yields pool_a image_a (DeallocEntry 7168 1000) (Return Void) m' /\
     pool_wf pool_a (view m') F' []) /\
  (exists o m', byte_yields pool_a image_a (AllocEntry 64) o m').
Proof.
  destruct (contract_calls_return pool_a image_a free_a held_a
              pool_a_table_ok pool_a_holds_link pool_a_doubling
              pool_a_arena_ok image_a_wf) as [Halloc Hfree].
  destruct (Hfree 7168 1000 ltac:(lia) ltac:(left; reflexivity))
    as [Hin [m' [F' [Hy Hwf]]]].
  split; [exact Hin|]. split.
  - exists m', F'. split; [exact Hy | exact Hwf].
  - destruct (Halloc 64 ltac:(lia)) as [o [m1 [Hy1 _]]]. now exists o, m1.
Defined.

(** ** A split chunk, on the bytes *)

Section Taking.

Variable P : MemPoolList.
Variable s : Z.
Variable l : nat.
Variable m0 : image.
Hypothesis table : table_ok P.
Hypothesis links : holds_link P.

Let e := find_class P s.
Let p := i_freelist m0 l.
Let sz := chunk_size P e.
Let n := chunk_size P l / sz.

Hypothesis class_le : (e <= l < length (m_chunk_size P))%nat.
Hypothesis low_lists : forall j, (e <= j < l)%nat -> i_freelist m0 j = 0.
Hypothesis p_pos : 0 < p.
Hypothesis p_end : p + chunk_size P l < modulus.
Hypothesis pieces : (e < l)%nat -> 2 <= n.

Lemma taking_sizes :
  link_size <= sz /\ 0 < sz /\ 0 < chunk_size P l /\
  n * sz <= chunk_size P l /\ p <> 0 /\ p <> KOKKOS_MEMPOOLLIST_LOCK.
Proof.
  assert (Hsz : 0 < sz < modulus) by (apply chunk_size_pos; auto; lia).
  assert (Hcl : 0 < chunk_size P l < modulus)
    by (apply chunk_size_pos; auto; lia).
  split; [apply class_holds_link; auto; lia|]. split; [lia|].
  split; [lia|]. split.
  - unfold n. pose proof (Z.mul_div_le (chunk_size P l) sz ltac:(lia)). lia.
  - unfold KOKKOS_MEMPOOLLIST_LOCK. lia.
Qed.

Lemma load_set_head m i v a : load_link (set_head m i v) a = load_link m a.
Proof. reflexivity. Qed.

Lemma taking_step m c :
  taking P s l m0 m c ->
  taking P s l m0 (fst (byte_step P m c)) (snd (byte_step P m c)).
Proof.
  destruct taking_sizes as [Hlsz [Hsz [Hcl [Hmul [Hp0 Hpl]]]]].
  unfold link_size in Hlsz.
  unfold taking. fold e p sz n. cbv zeta.
  intros [Hframe [Hheads Hc]].
  destruct (byte_step P m c) as [m' c'] eqn:Hstep. cbn [fst snd].
  destruct c as [s' | e' k l' | e' k l' | e' k l' a | e' l' a | e' l' a hn
                | e' l' a | e' p' n' i | h tl li r | h tl li oh r
                | h tl li oh r | dp ds | o];
    simpl in Hstep; fold e p sz n in Hstep.
  - (* the entry *)
    destruct Hc as [-> [Hh Hb]]. fold e sz in Hstep.
    assert (Hnz : (sz =? 0) = false) by (apply Z.eqb_neq; lia).
    rewrite Hnz, andb_false_r in Hstep. inversion Hstep; subst m' c'.
    repeat split; auto; lia.
  - (* the scan *)
    destruct Hc as [-> [Hl' [Hh Hb]]].
    assert (Hpos : (0 <? chunk_size P l') = true).
    { apply Z.ltb_lt. apply chunk_size_pos; auto. lia. }
    rewrite Hpos in Hstep.
    destruct (i_freelist m l' =? 0) eqn:E; inversion Hstep; subst m' c'.
    + apply Z.eqb_eq in E. rewrite Hh in E.
      assert (l' <> l) by (intros ->; fold p in E; lia).
      repeat split; auto; lia.
    + apply Z.eqb_neq in E. rewrite Hh in E.
      assert (l' = l).
      { destruct (Nat.eq_dec l' l); auto. exfalso. apply E.
        apply low_lists. lia. }
      repeat split; auto.
  - (* the head is read *)
    destruct Hc as [-> [-> [Hh Hb]]]. rewrite Hh in Hstep. fold p in Hstep.
    assert (H1 : (p =? 0) = false) by now apply Z.eqb_neq.
    assert (H2 : (p =? KOKKOS_MEMPOOLLIST_LOCK) = false)
      by now apply Z.eqb_neq.
    rewrite H1, H2 in Hstep. inversion Hstep; subst m' c'.
    repeat split; auto.
  - (* the list is locked *)
    destruct Hc as [-> [-> [-> [Hh Hb]]]]. rewrite Hh in Hstep.
    fold p in Hstep. rewrite Z.eqb_refl in Hstep.
    inversion Hstep; subst m' c'. simpl.
    split; [exact Hframe|]. split.
    { intros i Hie Hil. apply Nat.eqb_neq in Hil. now rewrite Hil. }
    repeat split; auto.
    + now rewrite Nat.eqb_refl.
    + intros Hlt. assert (Hne : (e =? l)%nat = false)
        by (apply Nat.eqb_neq; lia).
      rewrite Hne, Hh. apply low_lists. lia.
  - (* the successor is read *)
    destruct Hc as [-> [-> [-> [Hlock [Hb Hlow]]]]].
    inversion Hstep; subst m' c'.
    repeat split; auto. apply load_ext. intros i _. apply Hb.
  - (* the list is unlocked *)
    destruct Hc as [-> [-> [-> [-> [Hlock [Hb Hlow]]]]]].
    rewrite Hlock, Z.eqb_refl in Hstep. inversion Hstep; subst m' c'. simpl.
    split; [exact Hframe|]. split.
    { intros i Hie Hil. rewrite (proj2 (Nat.eqb_neq i l) Hil).
      now apply Hheads. }
    repeat split; auto.
    + now rewrite Nat.eqb_refl.
    + intros Hlt. assert (Hne : (e =? l)%nat = false)
        by (apply Nat.eqb_neq; lia).
      rewrite Hne. now apply Hlow.
  - (* the link of the chunk is cleared *)
    destruct Hc as [-> [-> [-> [Hhead [Hb Hlow]]]]].
    assert (H1 : (p =? 0) = false) by now apply Z.eqb_neq.
    rewrite H1 in Hstep. simpl in Hstep.
    assert (Hclear : load_link (store_link m p 0) p = 0).
    { apply load_store_same. unfold modulus. lia. }
    destruct (e <? l)%nat eqn:E; inversion Hstep; subst m' c'.
    + apply Nat.ltb_lt in E. pose proof (pieces E) as Hn.
      split.
      { intros b Hbb. rewrite byte_store_other; [apply Hb|].
        unfold link_size. destruct Hbb; [left; lia | right; nia]. }
      split; [exact Hheads|].
      repeat split; auto; try lia.
    + split.
      { intros b Hbb. rewrite byte_store_other; [apply Hb|]. exact Hbb. }
      split; [exact Hheads|].
      apply Nat.ltb_ge in E.
      repeat split; auto; try (exfalso; lia); intros j Hj; exfalso; lia.
  - (* the linking loop *)
    destruct Hc as [Hlt [-> [-> [-> [Hi [Hhead [Hnone [Hclear Hlinked]]]]]]]].
    fold sz in Hstep.
    assert (E : (e <? l)%nat = true) by now apply Nat.ltb_lt.
    rewrite E in Hframe.
    destruct (i <? n) eqn:Ei; inversion Hstep; subst m' c'.
    + apply Z.ltb_lt in Ei.
      rewrite (wrap_small (p + (i - 1) * sz)) by nia.
      rewrite (wrap_small (p + i * sz)) by nia.
      split.
      { rewrite E. intros b Hbb. rewrite byte_store_other; [now apply Hframe|].
        unfold link_size. destruct Hbb; [left; nia | right; nia]. }
      split; [exact Hheads|].
      split; [exact Hlt|]. repeat split; auto; try lia.
      * rewrite load_store_apart; [exact Hclear|].
        unfold apart, link_size. right. nia.
      * intros j Hj. destruct (Z.eq_dec j i) as [->|Hne].
        -- apply load_store_same. nia.
        -- rewrite load_store_apart; [apply Hlinked; lia|].
           unfold apart, link_size. right. nia.
    + apply Z.ltb_ge in Ei. assert (i = n) by lia. subst i.
      rewrite (wrap_small (p + sz)) by nia.
      rewrite (wrap_small (p + (n - 1) * sz)) by nia.
      rewrite E. split; [exact Hframe|]. split; [exact Hheads|].
      repeat split; auto.
  - (* insert_list reads the head *)
    destruct Hc as [[Hlt [Hhead [Hnone [Hclear Hlinked]]]]
                      [-> [-> [-> ->]]]].
    rewrite Hnone in Hstep. simpl in Hstep. inversion Hstep; subst m' c'.
    split; [exact Hframe|]. split; [exact Hheads|]. repeat split; auto.
  - (* insert_list links the tail *)
    destruct Hc as [[Hlt [Hhead [Hnone [Hclear Hlinked]]]]
                      [-> [-> [-> [-> ->]]]]].
    inversion Hstep; subst m' c'. pose proof (pieces Hlt) as Hn.
    assert (E : (e <? l)%nat = true) by now apply Nat.ltb_lt.
    rewrite E in Hframe |- *.
    assert (Htl : (n - 1) * sz = n * sz - sz) by ring.
    assert (Hfar : sz <= (n - 1) * sz) by nia.
    split.
    { intros b Hbb. rewrite byte_store_other; [now apply Hframe|].
      unfold link_size. destruct Hbb; [left; lia | right; lia]. }
    split; [exact Hheads|].
    repeat split; auto.
    + rewrite load_store_apart; [exact Hclear|].
      unfold apart, link_size. right. lia.
    + intros j Hj. rewrite load_store_apart; [apply Hlinked; lia|].
      unfold apart, link_size. right.
      assert ((j - 1) * sz + sz <= (n - 1) * sz) by nia. lia.
    + apply load_store_same. unfold modulus. lia.
  - (* insert_list swaps the head *)
    destruct Hc as [[Hlt [Hhead [Hnone [Hclear Hlinked]]]]
                      [-> [-> [-> [-> [-> Htail]]]]]].
    rewrite Hnone in Hstep. simpl in Hstep. inversion Hstep; subst m' c'.
    simpl. split; [exact Hframe|]. split.
    { intros i Hie Hil. rewrite (proj2 (Nat.eqb_neq i e) Hie).
      now apply Hheads. }
    assert (Hne : (l =? e)%nat = false) by (apply Nat.eqb_neq; lia).
    repeat split; auto.
    + now rewrite Hne.
    + now rewrite Nat.eqb_refl.
  - contradiction.
  - inversion Hstep; subst m' c'. auto.
Qed.

End Taking.

Lemma taking_start P s l m : taking P s l m m (AllocEntry s).
Proof.
  unfold taking, same_memory. cbv zeta.
  split; [reflexivity|]. split; [reflexivity|]. repeat split.
Qed.

(** What a call of [allocate(s)] that takes the head of list [l] has done
    to the bytes when it returns. *)
Lemma taking_done P s l m o m' :
  table_ok P -> holds_link P ->
  let e := find_class P s in
  let p := i_freelist m l in
  let sz := chunk_size P e in
  let n := chunk_size P l / sz in
  (e <= l < length (m_chunk_size P))%nat ->
  (forall j, (e <= j < l)%nat -> i_freelist m j = 0) ->
  0 < p -> p + chunk_size P l < modulus ->
  ((e < l)%nat -> 2 <= n) ->
  byte_yields P m (AllocEntry s) o m' ->
  taking P s l m m' (Done o).
Proof.
  intros Hok Hlk e p sz n Hl Hempty Hp Hend Hn [k Hrun].
  apply (byte_run_keeps_mem P (taking P s l m)
           (taking_step P s l m Hok Hlk Hl Hempty Hp Hend Hn)
           k m (AllocEntry s) o m' (taking_start P s l m)).
  apply Hrun. lia.
Qed.

(** The splitting allocation on the bytes. *)
Lemma byte_allocate_splits P m s l :
  table_ok P -> holds_link P -> 0 <= s <= largest_class P ->
  let e := find_class P s in
  let p := i_freelist m l in
  let sz := chunk_size P e in
  let n := chunk_size P l / sz in
  (e < l < length (m_chunk_size P))%nat ->
  (forall j, (e <= j < l)%nat -> i_freelist m j = 0) ->
  0 < p -> p + chunk_size P l < modulus ->
  2 <= n ->
  exists m',
    byte_yields P m (AllocEntry s) (Return (Ptr p)) m' /\
    i_freelist m' l = load_link m p /\
    chain (view m') (i_freelist m' e) (sub_chunks p sz (Z.to_nat n)) /\
    load_link m' p = 0 /\
    (forall i, i <> e -> i <> l -> i_freelist m' i = i_freelist m i) /\
    (forall b, b < p \/ p + n * sz <= b -> i_byte m' b = i_byte m b).
Proof.
  intros Hok Hlk Hs e p sz n Hl Hempty Hp Hend Hn.
  destruct (allocate_splits P (view m) s l Hok Hs Hl Hempty Hp Hend Hn)
    as [sh' [Hy _]].
  destruct (byte_follows P m (AllocEntry s) _ sh' I Hy) as [m' [Hby _]].
  change (m_freelist (view m) l) with p in Hby.
  pose proof (taking_done P s l m _ m' Hok Hlk ltac:(fold e; lia) Hempty Hp
                Hend ltac:(intros _; exact Hn) Hby) as Ht.
  unfold taking in Ht. cbv zeta in Ht. fold e p sz n in Ht.
  assert (He : (e <? l)%nat = true) by (apply Nat.ltb_lt; lia).
  rewrite He in Ht.
  destruct Ht as [Hframe [Hheads [_ [Hhl [Hclear Hsplit]]]]].
  destruct (Hsplit ltac:(lia)) as [Hhe [Hlinked Htail]].
  assert (Hsz : 0 < sz < modulus) by (apply chunk_size_pos; auto; lia).
  assert (Hcl : 0 < chunk_size P l < modulus)
    by (apply chunk_size_pos; auto; lia).
  assert (Hnsz : n * sz <= chunk_size P l).
  { unfold n. pose proof (Z.mul_div_le (chunk_size P l) sz ltac:(lia)). lia. }
  exists m'. split; [exact Hby|]. split; [exact Hhl|].
  split; [|split; [exact Hclear|split; [exact Hheads | exact Hframe]]].
  rewrite Hhe. unfold sub_chunks.
  replace (p + sz) with (p + Z.of_nat 1 * sz) by lia.
  apply chain_sub_chunks.
  - intros i Hi. unfold KOKKOS_MEMPOOLLIST_LOCK. nia.
  - intros i Hi Hi'. change (m_next (view m') (p + Z.of_nat i * sz))
      with (load_link m' (p + Z.of_nat i * sz)).
    replace (p + Z.of_nat i * sz) with (p + (Z.of_nat (S i) - 1) * sz) by lia.
    apply Hlinked. lia.
  - lia.
  - change (m_next (view m') (p + Z.of_nat (1 + (Z.to_nat n - 1) - 1) * sz))
      with (load_link m' (p + Z.of_nat (1 + (Z.to_nat n - 1) - 1) * sz)).
    replace (Z.of_nat (1 + (Z.to_nat n - 1) - 1)) with (n - 1) by lia.
    exact Htail.
Qed.

Lemma byte_serves_nil P m s : byte_serves P m s [] m.
Proof. exists 0%nat. reflexivity. Qed.

Lemma byte_serves_cons P m s o m1 os m2 :
  byte_yields P m (AllocEntry s) o m1 -> byte_serves P m1 s os m2 ->
  byte_serves P m s (o :: os) m2.
Proof.
  intros [n1 H1] [n2 H2]. exists (n1 + n2)%nat. intros fuel Hfuel. simpl.
  unfold byte_allocate. rewrite H1 by lia. rewrite H2 by lia. reflexivity.
Qed.

(** The call on the bytes that takes the head of the list of the fitting
    class: it writes the link of the chunk it returns and nothing else. *)
Lemma byte_exact_fit P m s a rest :
  table_ok P -> holds_link P -> 0 <= s <= largest_class P ->
  let e := find_class P s in
  chain (view m) (i_freelist m e) (a :: rest) ->
  0 < a -> a + chunk_size P e < modulus ->
  (forall b, In b rest -> apart a b) ->
  exists m',
    byte_yields P m (AllocEntry s) (Return (Ptr a)) m' /\
    chain (view m') (i_freelist m' e) rest /\
    (forall i, i <> e -> i_freelist m' i = i_freelist m i) /\
    (forall b, b < a \/ a + link_size <= b -> i_byte m' b = i_byte m b) /\
    load_link m' a = 0.
Proof.
  intros Hok Hlk Hs e Hch Hpos Hend Hapart.
  pose proof Hch as [Hh [Hnz [Hnl Hrest]]].
  assert (He : (e < length (m_chunk_size P))%nat).
  { destruct (le_lt_dec (length (m_chunk_size P)) e) as [Hge|]; [|assumption].
    exfalso. apply chunk_size_sentinel in Hge.
    apply (find_class_sentinel_iff P s Hok (proj1 Hs)) in Hge. lia. }
  pose proof (allocate_exact_fit P (view m) s Hok (proj1 Hs) (proj2 Hs)) as Hy.
  change (m_freelist (view m) (find_class P s)) with (i_freelist m e) in Hy.
  rewrite Hh in Hy. specialize (Hy Hnz Hnl).
  destruct (byte_follows P m (AllocEntry s) _ _ I Hy) as [m' [Hby _]].
  assert (Ht : taking P s e m m' (Done (Return (Ptr a)))).
  { apply (taking_done P s e m _ m' Hok Hlk); fold e.
    - lia.
    - intros j Hj. lia.
    - rewrite Hh. exact Hpos.
    - rewrite Hh. exact Hend.
    - intros Hlt. lia.
    - exact Hby. }
  unfold taking in Ht. cbv zeta in Ht. fold e in Ht.
  rewrite Nat.ltb_irrefl, Hh in Ht.
  destruct Ht as [Hframe [Hheads [_ [Hhl [Hclear _]]]]].
  exists m'. split; [exact Hby|]. split; [|split; [|split]].
  - rewrite Hhl. apply chain_ext with (sh := view m); [|exact Hrest].
    intros b Hb. apply load_ext. intros i Hi. apply Hframe.
    specialize (Hapart b Hb). unfold apart in Hapart. lia.
  - intros i Hi. apply Hheads; exact Hi.
  - exact Hframe.
  - exact Hclear.
Qed.

(** The calls on the bytes that empty a prefix of the list of the fitting
    class, when the links of its chunks share no byte. *)
Lemma byte_drain_prefix P s :
  table_ok P -> holds_link P -> 0 <= s <= largest_class P ->
  forall pre rest m,
  (forall a, In a pre -> 0 < a /\ a + chunk_size P (find_class P s) < modulus) ->
  (forall a b, In a (pre ++ rest) -> In b (pre ++ rest) -> a <> b ->
     apart a b) ->
  NoDup (pre ++ rest) ->
  chain (view m) (i_freelist m (find_class P s)) (pre ++ rest) ->
  exists m',
    byte_serves P m s (returned pre) m' /\
    chain (view m') (i_freelist m' (find_class P s)) rest /\
    (forall i, i <> find_class P s -> i_freelist m' i = i_freelist m i) /\
    (forall b, (forall a, In a pre -> b < a \/ a + link_size <= b) ->
       i_byte m' b = i_byte m b) /\
    (forall a, In a pre -> load_link m' a = 0).
Proof.
  intros Hok Hlk Hs.
  induction pre as [|a pre IH]; intros rest m Hin Hap Hnd Hch.
  - exists m. split; [apply byte_serves_nil|]. split; [exact Hch|].
    split; [reflexivity|]. split; [reflexivity|]. intros b [].
  - simpl in Hnd, Hch, Hap.
    pose proof (proj1 (NoDup_cons_iff a (pre ++ rest)) Hnd) as [Hnotin Hnd'].
    assert (Hfar : forall b, In b (pre ++ rest) -> apart a b).
    { intros b Hb. apply Hap; [now left | now right |].
      intros ->. contradiction. }
    destruct (Hin a ltac:(now left)) as [Hpos Hend].
    destruct (byte_exact_fit P m s a (pre ++ rest) Hok Hlk Hs Hch Hpos Hend Hfar)
      as [m1 [Hfirst [Hch1 [Hheads1 [Hframe1 Hclear1]]]]].
    destruct (IH rest m1) as [m' [Hserve [Hrest [Hheads [Hframe Hclear]]]]].
    + intros b Hb. apply Hin. now right.
    + intros b c Hb Hc. apply Hap; now right.
    + exact Hnd'.
    + exact Hch1.
    + exists m'. split; [|split; [|split; [|split]]].
      * simpl. eapply byte_serves_cons; eauto.
      * exact Hrest.
      * intros i Hi. rewrite Hheads by assumption. now apply Hheads1.
      * intros b Hb. rewrite Hframe.
        -- apply Hframe1. apply Hb. now left.
        -- intros c Hc. apply Hb. now right.
      * intros c [<-|Hc]; [|now apply Hclear].
        rewrite <- Hclear1. apply load_ext. intros i Hi. apply Hframe.
        intros c Hc.
        assert (Hac : apart a c)
          by (apply Hfar; apply in_or_app; now left).
        unfold apart in Hac. lia.
Qed.

(** X3.  On the bytes, where a link is stored as [link_size] bytes and
    every class holds a link: when [allocate(s)] finds the lists from the
    fitting class [e] up to [l - 1] empty and at least two pieces of class
    [e] fit a chunk of class [l], it takes the head [p] of list [l] and
    returns it; list [l] advances to the link that the bytes at [p] held;
    list [e] becomes the chain of the [n - 1] sub-chunks
    [p + size(e), ..., p + (n-1) * size(e)], in address order; these and the
    returned piece lie in the first [n * size(e)] bytes of the chunk; the
    link of [p] is cleared; no other list changes, and no byte outside
    these first [n * size(e)] bytes; the links of the pieces lie in these
    bytes and no two of them share a byte. *)
Theorem split_leaves_remaining_pieces
    (P : MemPoolList) (m : image) (s : Z) (l : nat) :
  table_ok P -> holds_link P -> 0 <= s <= largest_class P ->
  let e := find_class P s in
  let p := i_freelist m l in
  let sz := chunk_size P e in
  let n := chunk_size P l / sz in
  (e < l < length (m_chunk_size P))%nat ->
  (forall j, (e <= j < l)%nat -> i_freelist m j = 0) ->
  0 < p -> p + chunk_size P l < modulus ->
  2 <= n ->
  exists m',
    byte_yields P m (AllocEntry s) (Return (Ptr p)) m' /\
    i_freelist m' l = load_link m p /\
    chain (view m') (i_freelist m' e) (sub_chunks p sz (Z.to_nat n)) /\
    length (sub_chunks p sz (Z.to_nat n)) = Z.to_nat (n - 1) /\
    (forall a, In a (sub_chunks p sz (Z.to_nat n)) ->
       p + sz <= a /\ a + sz <= p + n * sz) /\
    p + n * sz + chunk_size P l mod sz = p + chunk_size P l /\
    load_link m' p = 0 /\
    (forall i, i <> e -> i <> l -> i_freelist m' i = i_freelist m i) /\
    (forall b, b < p \/ p + n * sz <= b -> i_byte m' b = i_byte m b) /\
    (forall a, In a (p :: sub_chunks p sz (Z.to_nat n)) ->
       p <= a /\ a + link_size <= p + n * sz) /\
    (forall a b, In a (p :: sub_chunks p sz (Z.to_nat n)) ->
       In b (p :: sub_chunks p sz (Z.to_nat n)) -> a <> b -> apart a b).
Proof.
  intros Hok Hlk Hs e p sz n Hl Hempty Hp Hend Hn.
  destruct (allocate_splits P (view m) s l Hok Hs Hl Hempty Hp Hend Hn)
    as [_ [_ [_ [_ [Hlen [Hin [Hrem _]]]]]]].
  destruct (byte_allocate_splits P m s l Hok Hlk Hs Hl Hempty Hp Hend Hn)
    as [m' [Hy [Hhead [Hch [Hclear [Hlists Hframe]]]]]].
  change (m_freelist (view m) l) with p in Hlen, Hin, Hrem.
  fold e p sz n in Hy, Hhead, Hch, Hclear, Hlists, Hframe, Hlen, Hin, Hrem.
  assert (Hlsz : link_size <= sz) by (apply class_holds_link; auto; lia).
  destruct (pieces_apart p sz n Hlsz ltac:(lia)) as [Hinside Hapart].
  exists m'.
  split; [exact Hy|]. split; [exact Hhead|]. split; [exact Hch|].
  split; [exact Hlen|]. split; [exact Hin|]. split; [exact Hrem|].
  split; [exact Hclear|]. split; [exact Hlists|].
  split; [exact Hframe|]. split; [exact Hinside | exact Hapart].
Qed.

Lemma split_leaves_remaining_pieces_witness :
  exists m',
    byte_yields pool_a image_a (AllocEntry 64) (Return (Ptr 4096)) m' /\
    i_freelist m' 2%nat = 5120 /\
    chain (view m') (i_freelist m' 0%nat) (sub_chunks 4096 64 16) /\
    length (sub_chunks 4096 64 16) = 15%nat /\
    (forall b, b < 4096 \/ 5120 <= b -> i_byte m' b = i_byte image_a b).
Proof.
  destruct (split_leaves_remaining_pieces pool_a image_a 64 2)
    as [m' [Hy [Hl [Hch [Hlen [_ [_ [_ [_ [Hframe _]]]]]]]]]].
  - split; [discriminate|]. repeat constructor.
  - repeat constructor; discriminate.
  - split; discriminate.
  - change (0 < 2 < 3)%nat. lia.
  - intros j Hj. change (find_class pool_a 64) with 0%nat in Hj.
    destruct j as [|[|j]]; [reflexivity | reflexivity | lia].
  - reflexivity.
  - reflexivity.
  - discriminate.
  - exists m'. split; [exact Hy|]. split; [exact Hl|].
    split; [exact Hch|]. split; [reflexivity | exact Hframe].
Defined.

(** X5.  A split chunk serves [n] requests, on the bytes: under the
    conditions of X3 (every class holds a link among them), [n] calls of
    [allocate(s)] in a row return [p], then
    [p + size(e), ..., p + (n-1) * size(e)] in this order; the first call
    alone touches list [l], which loses its head; list [e] is empty again
    at the end and every other list is as before; no byte outside the
    first [n * size(e)] bytes of the chunk has changed; the links of the
    blocks returned share no byte. *)
Theorem split_chunk_serves_n_requests
    (P : MemPoolList) (m : image) (s : Z) (l : nat) :
  table_ok P -> holds_link P -> 0 <= s <= largest_class P ->
  let e := find_class P s in
  let p := i_freelist m l in
  let sz := chunk_size P e in
  let n := chunk_size P l / sz in
  (e < l < length (m_chunk_size P))%nat ->
  (forall j, (e <= j < l)%nat -> i_freelist m j = 0) ->
  0 < p -> p + chunk_size P l < modulus ->
  2 <= n ->
  exists m',
    byte_serves P m s (returned (p :: sub_chunks p sz (Z.to_nat n))) m' /\
    length (p :: sub_chunks p sz (Z.to_nat n)) = Z.to_nat n /\
    i_freelist m' l = load_link m p /\
    i_freelist m' e = 0 /\
    (forall i, i <> e -> i <> l -> i_freelist m' i = i_freelist m i) /\
    (forall b, b < p \/ p + n * sz <= b -> i_byte m' b = i_byte m b) /\
    (forall a b, In a (p :: sub_chunks p sz (Z.to_nat n)) ->
       In b (p :: sub_chunks p sz (Z.to_nat n)) -> a <> b -> apart a b).
Proof.
  intros Hok Hlk Hs e p sz n Hl Hempty Hp Hend Hn.
  assert (Hlsz : link_size <= sz) by (apply class_holds_link; auto; lia).
  destruct (pieces_apart p sz n Hlsz ltac:(lia)) as [Hinside Hapart].
  destruct (allocate_splits P (view m) s l Hok Hs Hl Hempty Hp Hend Hn)
    as [_ [_ [_ [_ [Hlen [Hin _]]]]]].
  destruct (byte_allocate_splits P m s l Hok Hlk Hs Hl Hempty Hp Hend Hn)
    as [m1 [Hfirst [Hhead [Hch [_ [Hlists Hframe]]]]]].
  change (m_freelist (view m) l) with p in Hlen, Hin.
  fold e p sz n in Hfirst, Hhead, Hch, Hlists, Hframe, Hlen, Hin.
  assert (Hsz : 0 < sz < modulus) by (apply chunk_size_pos; auto; lia).
  assert (Hcl : 0 < chunk_size P l < modulus)
    by (apply chunk_size_pos; auto; lia).
  assert (Hnsz : n * sz <= chunk_size P l).
  { unfold n. pose proof (Z.mul_div_le (chunk_size P l) sz ltac:(lia)). lia. }
  destruct (byte_drain_prefix P s Hok Hlk Hs
              (sub_chunks p sz (Z.to_nat n)) [] m1)
    as [m2 [Hserve [Hrest [Hlists2 [Hframe2 _]]]]].
  - intros a Ha. fold e sz. apply Hin in Ha. lia.
  - rewrite app_nil_r. intros a b Ha Hb. apply Hapart; now right.
  - rewrite app_nil_r. apply NoDup_sub_chunks. lia.
  - rewrite app_nil_r. exact Hch.
  - fold e in Hrest, Hlists2. exists m2.
    split; [|split; [|split; [|split; [|split; [|split; [|exact Hapart]]]]]].
    + simpl. eapply byte_serves_cons; eauto.
    + simpl. rewrite Hlen. lia.
    + rewrite Hlists2 by lia. exact Hhead.
    + exact Hrest.
    + intros i Hie Hil. rewrite Hlists2 by assumption. now apply Hlists.
    + intros b Hb. rewrite Hframe2; [now apply Hframe|].
      intros a Ha. pose proof (Hinside a (or_intror Ha)) as Hi.
      apply Hin in Ha. unfold link_size in *. lia.
Qed.

Lemma split_chunk_serves_n_requests_witness :
  exists m',
    byte_serves pool_a image_a 64 (returned (4096 :: sub_chunks 4096 64 16))
                m' /\
    i_freelist m' 2%nat = 5120 /\ i_freelist m' 0%nat = 0 /\
    (forall b, b < 4096 \/ 5120 <= b -> i_byte m' b = i_byte image_a b).
Proof.
  destruct (split_chunk_serves_n_requests pool_a image_a 64 2)
    as [m' [Hs [_ [Hl [He [_ [Hframe _]]]]]]].
  - split; [discriminate|]. repeat constructor.
  - repeat constructor; discriminate.
  - split; discriminate.
  - change (0 < 2 < 3)%nat. lia.
  - intros j Hj. change (find_class pool_a 64) with 0%nat in Hj.
    destruct j as [|[|j]]; [reflexivity | reflexivity | lia].
  - reflexivity.
  - reflexivity.
  - discriminate.
  - exists m'. split; [exact Hs|]. split; [exact Hl|].
    split; [exact He | exact Hframe].
Defined.

End MemPool.
